(** * SchemaDirectiveVisitor: a model of graphql-tools' directive dispatcher

    The development embeds [src/src/directives.ts] (module [Directives]) and
    the earlier variant of the same file kept as [src/unnamed/part_000]
    (module [Part000]).  Shared between the two are the literal decoder
    [valueFromASTUntyped], the helper [each], the table
    [methodToLocationMap] and the prototype model of visitor classes.

    Conventions of the embedding:
    - a thrown exception is an [Err] result; the walk is a state-and-error
      computation whose state survives the exception, so that what had
      happened before the throw can be stated;
    - a JavaScript object built by assignments is an insertion-ordered
      association list with unique keys ([obj_set]); GraphQL names match
      [_A-Za-z][_0-9A-Za-z]*, so no key is integer-like and insertion order
      is enumeration order;
    - a JavaScript Number is an IEEE binary64 [float];
    - the built-ins [parseInt], [parseFloat] and graphql-js'
      [getArgumentValues] are not code of the repository: they are section
      variables; module [Values] follows [getArgumentValues] as graphql 0.13
      has it, for what is stated of the coerced arguments;
    - [Directives] and [Part000] record the call of a visitor method and
      hold the schema as a value; module [Live], at the end, runs the walk
      of [directives.ts] over objects held by reference, with constructors
      and visitor methods that may change them and may throw. *)

From Stdlib Require Import ZArith Floats.
From stdpp Require Import gmap strings list.

Set Default Proof Using "Type".
Set Warnings "-register-all".


(** ** Exceptions *)

Inductive Error : Type :=
  | UnexpectedValueKind (kind : string)
      (* new Error('Unexpected value kind: ' + valueNode.kind) *)
  | CoercionError (message : string)
      (* a GraphQLError thrown inside getArgumentValues *)
  | TypeError (message : string).
      (* the engine's error for a property access on undefined *)

Definition error_message (e : Error) : string :=
  match e with
  | UnexpectedValueKind kind => "Unexpected value kind: " +:+ kind
  | CoercionError message => message
  | TypeError message => message
  end.

Inductive Result (A : Type) : Type :=
  | Ok (a : A)
  | Err (e : Error).
Arguments Ok {A} a.
Arguments Err {A} e.

#[global] Instance Result_ret : MRet Result := λ A a, Ok a.
#[global] Instance Result_bind : MBind Result := λ A B f r,
  match r with Ok a => f a | Err e => Err e end.
#[global] Instance Result_fmap : FMap Result := λ A B f r,
  match r with Ok a => Ok (f a) | Err e => Err e end.

(** ** The AST of literals and directive occurrences (graphql/language/ast) *)

Inductive ValueNode : Type :=
  | VariableNode (name : string)
  | IntValue (value : string)
  | FloatValue (value : string)
  | StringValue (value : string)
  | BooleanValue (value : bool)
  | NullValue
  | EnumValue (value : string)
  | ListValue (values : list ValueNode)
  | ObjectValue (fields : list (string * ValueNode)).

(** [valueNode.kind], the strings of graphql's [Kind] table. *)
Definition kind (valueNode : ValueNode) : string :=
  match valueNode with
  | VariableNode _ => "Variable"
  | IntValue _ => "IntValue"
  | FloatValue _ => "FloatValue"
  | StringValue _ => "StringValue"
  | BooleanValue _ => "BooleanValue"
  | NullValue => "NullValue"
  | EnumValue _ => "EnumValue"
  | ListValue _ => "ListValue"
  | ObjectValue _ => "ObjectValue"
  end.

(** The kinds the decoder's [switch] has a [case] for. *)
Definition recognized (valueNode : ValueNode) : bool :=
  match valueNode with
  | VariableNode _ => false
  | _ => true
  end.

(** ArgumentNode: [name.value] and [value]. *)
Record ArgumentNode : Type := mkArgumentNode {
  arg_name : string;
  arg_value : ValueNode
}.

(** DirectiveNode: [name.value] and [arguments]. *)
Record DirectiveNode : Type := mkDirectiveNode {
  directive_name : string;
  arguments : list ArgumentNode
}.

(** ** JavaScript values *)

Inductive JSValue : Type :=
  | JNull
  | JNumber (n : float)
  | JString (s : string)
  | JBoolean (b : bool)
  | JArray (elements : list JSValue)
  | JObject (properties : list (string * JSValue)).

Definition JSObject : Type := list (string * JSValue).

(** [obj[k] = v]: an existing key keeps its place and takes the new value,
    a new key goes last. *)
Fixpoint obj_set {V : Type} (k : string) (v : V) (obj : list (string * V))
  : list (string * V) :=
  match obj with
  | [] => [(k, v)]
  | (k', v') :: rest =>
      if decide (k = k') then (k, v) :: rest else (k', v') :: obj_set k v rest
  end.

(** [obj[k]] *)
Fixpoint obj_get {V : Type} (k : string) (obj : list (string * V)) : option V :=
  match obj with
  | [] => None
  | (k', v') :: rest => if decide (k = k') then Some v' else obj_get k rest
  end.

(** [Object.keys(obj)] *)
Definition obj_keys {V : Type} (obj : list (string * V)) : list string :=
  obj.*1.

(** [array.forEach] / [array.map] with a callback that may throw: the first
    exception ends the loop. *)
Fixpoint mapM {A B : Type} (f : A → Result B) (l : list A) : Result (list B) :=
  match l with
  | [] => Ok []
  | x :: rest =>
      match f x with
      | Ok y => match mapM f rest with Ok ys => Ok (y :: ys) | Err e => Err e end
      | Err e => Err e
      end
  end.

Fixpoint foldM {A S : Type} (f : S → A → Result S) (s : S) (l : list A)
  : Result S :=
  match l with
  | [] => Ok s
  | x :: rest => match f s x with Ok s' => foldM f s' rest | Err e => Err e end
  end.

(** ** The literal decoder *)

Section Decoder.
(** The built-ins; [parseInt] takes its radix. *)
Variable parseInt : string → Z → float.
Variable parseFloat : string → float.

Fixpoint valueFromASTUntyped (valueNode : ValueNode) : Result JSValue :=
  match valueNode with
  | NullValue => Ok JNull
  | IntValue value => Ok (JNumber (parseInt value 10))
  | FloatValue value => Ok (JNumber (parseFloat value))
  | StringValue value => Ok (JString value)
  | EnumValue value => Ok (JString value)
  | BooleanValue value => Ok (JBoolean value)
  | ListValue values =>
      JArray <$>
        (fix map_values (l : list ValueNode) : Result (list JSValue) :=
           match l with
           | [] => Ok []
           | x :: rest =>
               match valueFromASTUntyped x with
               | Ok y =>
                   match map_values rest with
                   | Ok ys => Ok (y :: ys)
                   | Err e => Err e
                   end
               | Err e => Err e
               end
           end) values
  | ObjectValue fields =>
      JObject <$>
        (fix each_field (obj : JSObject) (l : list (string * ValueNode))
           : Result JSObject :=
           match l with
           | [] => Ok obj
           | field :: rest =>
               match valueFromASTUntyped field.2 with
               | Ok v => each_field (obj_set field.1 v obj) rest
               | Err e => Err e
               end
           end) [] fields
  | VariableNode _ => Err (UnexpectedValueKind (kind valueNode))
  end.

(** The two loops of the decoder, as the generic loops they are. *)
Lemma valueFromASTUntyped_list values :
  valueFromASTUntyped (ListValue values)
  = JArray <$> mapM valueFromASTUntyped values.
Proof.
  cbn [valueFromASTUntyped]. f_equal.
  induction values as [|x rest IH]; [done|].
  cbn [mapM]. destruct (valueFromASTUntyped x); [|done].
  by rewrite IH.
Qed.

Lemma valueFromASTUntyped_object fields :
  valueFromASTUntyped (ObjectValue fields)
  = JObject <$>
      foldM (λ obj field,
               v ← valueFromASTUntyped field.2; Ok (obj_set field.1 v obj))
            [] fields.
Proof.
  cbn [valueFromASTUntyped]. f_equal.
  generalize (@nil (string * JSValue)).
  induction fields as [|field rest IH]; intros obj; [done|].
  cbn [foldM]. destruct (valueFromASTUntyped field.2); cbn; [|done].
  apply IH.
Qed.
End Decoder.

(** *** Facts about the loops and about objects built by assignment *)

Lemma mapM_Forall2 {A B : Type} (f : A → Result B) l ys :
  mapM f l = Ok ys ↔ Forall2 (λ x y, f x = Ok y) l ys.
Proof.
  revert ys. induction l as [|x l IH]; intros ys; cbn [mapM].
  - split; [intros [= <-]; constructor | by inversion 1].
  - destruct (f x) as [y|e] eqn:Hx.
    + destruct (mapM f l) as [ys'|e] eqn:Hl.
      * split.
        -- intros [= <-]. constructor; [done|]. by apply IH.
        -- inversion 1 as [|? y0 ? ys0 Hy Hys]; subst.
           apply IH in Hys. congruence.
      * split; [done|].
        inversion 1 as [|? y0 ? ys0 Hy Hys]; subst.
        apply IH in Hys. congruence.
    + split; [done|]. inversion 1; congruence.
Qed.

Lemma mapM_Err {A B : Type} (f : A → Result B) l e :
  mapM f l = Err e → ∃ x, x ∈ l ∧ f x = Err e.
Proof.
  induction l as [|x l IH]; cbn [mapM]; [done|].
  destruct (f x) as [y|e'] eqn:Hx.
  - destruct (mapM f l) as [ys|e'']; [done|].
    intros [= ->]. destruct IH as (x' & ? & ?); [done|].
    exists x'. split; [by right | done].
  - intros [= ->]. exists x. split; [by left | done].
Qed.

Lemma obj_get_set_eq {V : Type} k (v : V) obj :
  obj_get k (obj_set k v obj) = Some v.
Proof.
  induction obj as [|[k' v'] obj IH]; cbn.
  - by rewrite decide_True.
  - destruct (decide (k = k')) as [->|Hne]; cbn.
    + by rewrite decide_True.
    + by rewrite decide_False.
Qed.

Lemma obj_get_set_ne {V : Type} k k' (v : V) obj :
  k ≠ k' → obj_get k' (obj_set k v obj) = obj_get k' obj.
Proof.
  intros Hne. induction obj as [|[k0 v0] obj IH]; cbn.
  - by rewrite decide_False.
  - destruct (decide (k = k0)) as [->|Hne0]; cbn.
    + by rewrite !decide_False.
    + destruct (decide (k' = k0)); [done | apply IH].
Qed.

Lemma obj_keys_set {V : Type} k (v : V) obj :
  obj_keys (obj_set k v obj)
  = if decide (k ∈ obj_keys obj) then obj_keys obj else obj_keys obj ++ [k].
Proof.
  unfold obj_keys. induction obj as [|[k' v'] obj IH]; cbn.
  - rewrite decide_False; [done | by apply not_elem_of_nil].
  - destruct (decide (k = k')) as [->|Hne]; cbn.
    + rewrite decide_True; [done | by left].
    + rewrite IH. destruct (decide (k ∈ obj.*1)) as [Hin|Hnin].
      * rewrite decide_True; [done | by right].
      * rewrite decide_False; [done|].
        intros [?|?]%elem_of_cons; done.
Qed.

(** The object a run of assignments [obj[k] = v] leaves, and the order in
    which its keys were first met. *)
Definition obj_assign {V : Type} (obj : list (string * V))
    (kvs : list (string * V)) : list (string * V) :=
  foldl (λ o kv, obj_set kv.1 kv.2 o) obj kvs.

Definition encounter_order (seen names : list string) : list string :=
  foldl (λ acc k, if decide (k ∈ acc) then acc else acc ++ [k]) seen names.

Lemma obj_keys_assign {V : Type} (obj kvs : list (string * V)) :
  obj_keys (obj_assign obj kvs) = encounter_order (obj_keys obj) kvs.*1.
Proof.
  unfold obj_assign, encounter_order. revert obj.
  induction kvs as [|[k v] kvs IH]; intros obj; [done|].
  cbn [foldl fmap list_fmap fst snd]. rewrite IH, obj_keys_set. done.
Qed.

Lemma obj_get_assign {V : Type} k (obj kvs : list (string * V)) :
  obj_get k (obj_assign obj kvs)
  = match obj_get k (reverse kvs) with
    | Some v => Some v
    | None => obj_get k obj
    end.
Proof.
  unfold obj_assign. revert obj.
  induction kvs as [|[k' v'] kvs IH]; intros obj; [done|].
  cbn [foldl fst snd]. rewrite IH, reverse_cons.
  assert (Happ : ∀ (l1 l2 : list (string * V)),
    obj_get k (l1 ++ l2)
    = match obj_get k l1 with Some v => Some v | None => obj_get k l2 end).
  { intros l1 l2. induction l1 as [|[k0 v0] l1 IHl]; [done|].
    cbn. destruct (decide (k = k0)); [done | apply IHl]. }
  rewrite Happ. destruct (obj_get k (reverse kvs)); [done|].
  cbn. destruct (decide (k = k')) as [->|Hne].
  - apply obj_get_set_eq.
  - by apply obj_get_set_ne.
Qed.

Lemma encounter_order_NoDup seen names :
  NoDup seen → NoDup (encounter_order seen names).
Proof.
  revert seen. induction names as [|k names IH]; intros seen Hnd; [done|].
  cbn. apply IH. destruct (decide (k ∈ seen)); [done|].
  apply NoDup_app. split_and!; [done | | apply NoDup_singleton].
  intros x Hx ->%list_elem_of_singleton. done.
Qed.

Lemma encounter_order_elem_of seen names k :
  k ∈ encounter_order seen names ↔ k ∈ seen ∨ k ∈ names.
Proof.
  revert seen. induction names as [|k' names IH]; intros seen; cbn.
  - rewrite elem_of_nil. tauto.
  - rewrite IH, elem_of_cons. destruct (decide (k' ∈ seen)) as [Hin|Hnin].
    + split; [tauto|]. intros [?|[->|?]]; tauto.
    + rewrite elem_of_app, list_elem_of_singleton. tauto.
Qed.

(** Nested induction over literals. *)
Section ValueNode_induction.
Variable P : ValueNode → Prop.
Hypothesis Hvar : ∀ name, P (VariableNode name).
Hypothesis Hint : ∀ value, P (IntValue value).
Hypothesis Hfloat : ∀ value, P (FloatValue value).
Hypothesis Hstring : ∀ value, P (StringValue value).
Hypothesis Hboolean : ∀ value, P (BooleanValue value).
Hypothesis Hnull : P NullValue.
Hypothesis Henum : ∀ value, P (EnumValue value).
Hypothesis Hlist : ∀ values, Forall P values → P (ListValue values).
Hypothesis Hobject : ∀ fields, Forall (λ f, P f.2) fields → P (ObjectValue fields).

Fixpoint ValueNode_nested_ind (valueNode : ValueNode) : P valueNode :=
  match valueNode with
  | VariableNode name => Hvar name
  | IntValue value => Hint value
  | FloatValue value => Hfloat value
  | StringValue value => Hstring value
  | BooleanValue value => Hboolean value
  | NullValue => Hnull
  | EnumValue value => Henum value
  | ListValue values =>
      Hlist values
        ((fix go (l : list ValueNode) : Forall P l :=
            match l with
            | [] => List.Forall_nil P
            | x :: rest => List.Forall_cons P x rest (ValueNode_nested_ind x) (go rest)
            end) values)
  | ObjectValue fields =>
      Hobject fields
        ((fix go (l : list (string * ValueNode)) : Forall (λ f, P f.2) l :=
            match l with
            | [] => List.Forall_nil _
            | f :: rest =>
                List.Forall_cons (λ f, P f.2) f rest (ValueNode_nested_ind f.2) (go rest)
            end) fields)
  end.
End ValueNode_induction.

(** *** What the decoder returns *)

Section DecoderFacts.
Variable parseInt : string → Z → float.
Variable parseFloat : string → float.
Local Abbreviation decode := (valueFromASTUntyped parseInt parseFloat).

(** The [default] arm is the only [throw]: a literal that fails to decode
    holds a variable reference, and the error names that kind. *)
Lemma valueFromASTUntyped_Err valueNode e :
  decode valueNode = Err e → e = UnexpectedValueKind "Variable".
Proof.
  induction valueNode as [name| | | | | | |values IH|fields IH]
    using ValueNode_nested_ind; try done.
  - by intros [= <-].
  - rewrite valueFromASTUntyped_list.
    destruct (mapM decode values) as [ys|e'] eqn:Hm; [done|].
    intros [= ->]. apply mapM_Err in Hm as (x & Hx & Hex).
    rewrite Forall_forall in IH. by apply (IH x).
  - rewrite valueFromASTUntyped_object.
    generalize (@nil (string * JSValue)).
    induction fields as [|field rest IHrest]; intros obj; [done|].
    apply Forall_cons in IH as [Hfield Hrest].
    cbn [foldM]. destruct (decode field.2) as [v|e'] eqn:Hv; cbn.
    + by apply IHrest.
    + intros [= ->]. by apply Hfield.
Qed.

Lemma valueFromASTUntyped_unrecognized valueNode :
  recognized valueNode = false →
  decode valueNode = Err (UnexpectedValueKind (kind valueNode)).
Proof. by destruct valueNode. Qed.

Lemma valueFromASTUntyped_fields fields ws :
  Forall2 (λ field w, decode field.2 = Ok w) fields ws →
  decode (ObjectValue fields)
  = Ok (JObject (obj_assign [] (zip fields.*1 ws))).
Proof.
  rewrite valueFromASTUntyped_object. unfold obj_assign.
  generalize (@nil (string * JSValue)).
  intros obj H. revert obj.
  induction H as [|field w fields ws Hw _ IH]; intros obj; [done|].
  cbn [foldM]. rewrite Hw. cbn. apply IH.
Qed.

(** C2. The untyped decoder, case by case: null for a null literal; the
    number [parseInt] reads from an integer literal's text in radix 10; the
    number [parseFloat] reads from a float literal's text; the raw value of
    a string, enum or boolean literal; for a list literal the decoded
    elements in order; for an object literal an object whose keys are the
    field names in the order first met and whose value at a name is the
    decoded value of the last field of that name. *)
Theorem valueFromASTUntyped_cases :
  decode NullValue = Ok JNull
  ∧ (∀ value, decode (IntValue value) = Ok (JNumber (parseInt value 10)))
  ∧ (∀ value, decode (FloatValue value) = Ok (JNumber (parseFloat value)))
  ∧ (∀ value, decode (StringValue value) = Ok (JString value))
  ∧ (∀ value, decode (EnumValue value) = Ok (JString value))
  ∧ (∀ value, decode (BooleanValue value) = Ok (JBoolean value))
  ∧ (∀ values ws,
       Forall2 (λ v w, decode v = Ok w) values ws →
       decode (ListValue values) = Ok (JArray ws))
  ∧ (∀ fields ws,
       Forall2 (λ field w, decode field.2 = Ok w) fields ws →
       ∃ obj,
         decode (ObjectValue fields) = Ok (JObject obj)
         ∧ obj_keys obj = encounter_order [] fields.*1
         ∧ NoDup (obj_keys obj)
         ∧ ∀ k, obj_get k obj = obj_get k (reverse (zip fields.*1 ws))).
Proof.
  split_and!; try done.
  - intros values ws H. rewrite valueFromASTUntyped_list.
    apply mapM_Forall2 in H. by rewrite H.
  - intros fields ws H.
    exists (obj_assign [] (zip fields.*1 ws)).
    assert (Hlen : length fields.*1 = length ws).
    { rewrite length_fmap. by eapply Forall2_length. }
    assert (Hkeys : obj_keys (obj_assign [] (zip fields.*1 ws))
                    = encounter_order [] fields.*1).
    { rewrite obj_keys_assign. f_equal. apply fst_zip. lia. }
    split_and!.
    + by apply valueFromASTUntyped_fields.
    + done.
    + rewrite Hkeys. apply encounter_order_NoDup, NoDup_nil_2.
    + intros k. rewrite obj_get_assign.
      by destruct (obj_get k (reverse (zip fields.*1 ws))).
Qed.
End DecoderFacts.

(** ** Schema objects (graphql/type)

    Only what the walker reads is kept: names, AST nodes, and the children
    each kind owns.  A union holds its member object types themselves. *)

Record ASTNode : Type := mkASTNode {
  directives : option (list DirectiveNode)
}.

Record GraphQLArgument : Type := mkArgument {
  argument_name : string;
  argument_astNode : option ASTNode
}.

Record GraphQLField : Type := mkField {
  field_name : string;
  field_args : option (list GraphQLArgument);
  field_astNode : option ASTNode
}.

Record GraphQLInputField : Type := mkInputField {
  inputField_name : string;
  inputField_astNode : option ASTNode
}.

Record GraphQLEnumValue : Type := mkEnumValue {
  enumValue_name : string;
  enumValue_astNode : option ASTNode
}.

Record GraphQLObjectType : Type := mkObjectType {
  object_name : string;
  object_fields : list (string * GraphQLField);
  object_astNode : option ASTNode
}.

Record GraphQLInterfaceType : Type := mkInterfaceType {
  interface_name : string;
  interface_fields : list (string * GraphQLField);
  interface_astNode : option ASTNode
}.

Record GraphQLInputObjectType : Type := mkInputObjectType {
  inputObject_name : string;
  inputObject_fields : list (string * GraphQLInputField);
  inputObject_astNode : option ASTNode
}.

Record GraphQLScalarType : Type := mkScalarType {
  scalar_name : string;
  scalar_astNode : option ASTNode
}.

Record GraphQLUnionType : Type := mkUnionType {
  union_name : string;
  union_types : list GraphQLObjectType;
  union_astNode : option ASTNode
}.

Record GraphQLEnumType : Type := mkEnumType {
  enum_name : string;
  enum_values : list GraphQLEnumValue;
  enum_astNode : option ASTNode
}.

Inductive GraphQLNamedType : Type :=
  | ObjectType (type : GraphQLObjectType)
  | InterfaceType (type : GraphQLInterfaceType)
  | InputObjectType (type : GraphQLInputObjectType)
  | ScalarType (type : GraphQLScalarType)
  | UnionType (type : GraphQLUnionType)
  | EnumType (type : GraphQLEnumType).

Inductive DirectiveLocationEnum : Type :=
  | QUERY | MUTATION | SUBSCRIPTION | FIELD | FRAGMENT_DEFINITION
  | FRAGMENT_SPREAD | INLINE_FRAGMENT
  | SCHEMA | SCALAR | OBJECT | FIELD_DEFINITION | ARGUMENT_DEFINITION
  | INTERFACE | UNION | ENUM | ENUM_VALUE | INPUT_OBJECT
  | INPUT_FIELD_DEFINITION.

#[global] Instance DirectiveLocationEnum_eq_dec : EqDecision DirectiveLocationEnum.
Proof. solve_decision. Defined.

(** A declared directive: its name, locations and declared arguments (name
    and default value; the argument's type belongs to the coercer). *)
Record GraphQLDirective : Type := mkDirective {
  decl_name : string;
  decl_locations : list DirectiveLocationEnum;
  decl_args : list (string * option JSValue)
}.

Record GraphQLSchema : Type := mkSchema {
  getTypeMap : list (string * GraphQLNamedType);
  getDirectives : list GraphQLDirective;
  schema_astNode : option ASTNode
}.

Inductive VisitableType : Type :=
  | OfSchema (schema : GraphQLSchema)
  | OfNamedType (type : GraphQLNamedType)
  | OfField (field : GraphQLField)
  | OfInputField (field : GraphQLInputField)
  | OfArgument (arg : GraphQLArgument)
  | OfEnumValue (value : GraphQLEnumValue).

Definition namedType_astNode (type : GraphQLNamedType) : option ASTNode :=
  match type with
  | ObjectType t => object_astNode t
  | InterfaceType t => interface_astNode t
  | InputObjectType t => inputObject_astNode t
  | ScalarType t => scalar_astNode t
  | UnionType t => union_astNode t
  | EnumType t => enum_astNode t
  end.

(** [type.astNode] *)
Definition astNode (type : VisitableType) : option ASTNode :=
  match type with
  | OfSchema schema => schema_astNode schema
  | OfNamedType t => namedType_astNode t
  | OfField field => field_astNode field
  | OfInputField field => inputField_astNode field
  | OfArgument arg => argument_astNode arg
  | OfEnumValue value => enumValue_astNode value
  end.

(** [type.astNode && type.astNode.directives]; [None] is a falsy result. *)
Definition directiveNodes_of (type : VisitableType)
  : option (list DirectiveNode) :=
  match astNode type with
  | Some node => directives node
  | None => None
  end.

(** The second argument a visitor method receives. *)
Inductive Details : Type :=
  | NoDetails
  | FieldDetails (objectType : GraphQLNamedType)
  | ArgumentDetails (field : GraphQLField) (objectType : GraphQLNamedType)
  | EnumValueDetails (enumType : GraphQLEnumType).

(** ** Visitor classes

    The model is that of the classes as TypeScript compiles them to
    ES5: methods are enumerable
    properties of the prototype, a derived prototype also carries an
    enumerable [constructor], and a derived class inherits the static
    properties of its parent through its own prototype chain.  (With
    native class syntax the methods are not enumerable, and the [for in]
    loop of [getLocations] finds none of them.)  A method
    written in a class body is a function of its own: [Method c m] is the
    body of method [m] written in class [c].  The eleven empty methods of
    [SchemaDirectiveVisitor] are the stubs. *)

Inductive FunctionRef : Type :=
  | Stub (methodName : string)
  | Constructor (class : nat)
  | Method (class : nat) (methodName : string).

#[global] Instance FunctionRef_eq_dec : EqDecision FunctionRef.
Proof. solve_decision. Defined.

Inductive VisitorClass : Type :=
  | SchemaDirectiveVisitor
  | Extends (n : nat) (parent : VisitorClass) (methods : list string).

(** The identity of a class object: 0 is [SchemaDirectiveVisitor]. *)
Definition class_id (this : VisitorClass) : nat :=
  match this with
  | SchemaDirectiveVisitor => 0
  | Extends n _ _ => S n
  end.

(** The visitor methods of the base class, in the order of its body. *)
Definition visitorMethods : list string :=
  [ "visitSchema"; "visitScalar"; "visitObject"; "visitFieldDefinition";
    "visitArgumentDefinition"; "visitInterface"; "visitUnion"; "visitEnum";
    "visitEnumValue"; "visitInputObject"; "visitInputFieldDefinition" ].

(** [this.prototype[key]], through the prototype chain; [None] is
    [undefined]. *)
Fixpoint prototype_get (this : VisitorClass) (key : string)
  : option FunctionRef :=
  match this with
  | SchemaDirectiveVisitor =>
      if decide (key = "constructor") then Some (Constructor 0)
      else if decide (key ∈ visitorMethods) then Some (Stub key)
      else None
  | Extends n parent methods =>
      if decide (key = "constructor") then Some (Constructor (S n))
      else if decide (key ∈ methods) then Some (Method (S n) key)
      else prototype_get parent key
  end.

(** The keys [for (let key in this.prototype)] goes through: the own
    enumerable properties first, then the inherited ones that are not
    shadowed. *)
Fixpoint for_in_prototype (this : VisitorClass) : list string :=
  match this with
  | SchemaDirectiveVisitor => visitorMethods
  | Extends n parent methods =>
      let own := encounter_order [] ("constructor" :: methods) in
      own ++ filter (λ key, key ∉ own) (for_in_prototype parent)
  end.

Definition methodToLocationMap : list (string * DirectiveLocationEnum) :=
  [ ("visitSchema", SCHEMA);
    ("visitScalar", SCALAR);
    ("visitObject", OBJECT);
    ("visitFieldDefinition", FIELD_DEFINITION);
    ("visitArgumentDefinition", ARGUMENT_DEFINITION);
    ("visitInterface", INTERFACE);
    ("visitUnion", UNION);
    ("visitEnum", ENUM);
    ("visitEnumValue", ENUM_VALUE);
    ("visitInputObject", INPUT_OBJECT);
    ("visitInputFieldDefinition", INPUT_FIELD_DEFINITION) ].

(** [hasOwn.call(obj, key)] *)
Definition hasOwn {V : Type} (obj : list (string * V)) (key : string) : bool :=
  bool_decide (is_Some (obj_get key obj)).

(** [new Set(Object.keys(methodToLocationMap).map(key =>
    SchemaDirectiveVisitor.prototype[key]))]; the same set under both of
    its names, [visitorMethodStubSet] and [visitMethodStubSet]. *)
Definition visitorMethodStubSet : list FunctionRef :=
  omap (prototype_get SchemaDirectiveVisitor) (obj_keys methodToLocationMap).

(** [visitorMethodStubSet.has(value)] *)
Definition stubSet_has (value : option FunctionRef) : bool :=
  match value with
  | Some f => bool_decide (f ∈ visitorMethodStubSet)
  | None => false
  end.

(** The static property [locations] of the class objects: a class id is
    bound once the class object owns an array; an unbound
    [SchemaDirectiveVisitor] holds its initial [null], an unbound derived
    class has no property of its own. *)
Definition Statics : Type := gmap nat (list DirectiveLocationEnum).

(** [this.locations], read through the chain of class objects; [None] is
    [null]. *)
Fixpoint locations_get (statics : gmap nat (list DirectiveLocationEnum))
    (this : VisitorClass) : option (list DirectiveLocationEnum) :=
  match this with
  | SchemaDirectiveVisitor => statics !! 0
  | Extends n parent _ =>
      match statics !! S n with
      | Some locations => Some locations
      | None => locations_get statics parent
      end
  end.

(** The class overrides visitor method [m]: what it runs for [m] was
    written in a class body and is not a stub of the base class. *)
Definition overrides (this : VisitorClass) (m : string) : bool :=
  bool_decide (m ∈ visitorMethods)
  && match prototype_get this m with
     | Some (Method _ _) => true
     | _ => false
     end.

(** ** Computations with state and exceptions *)

Definition Eff (S A : Type) : Type := S → Result A * S.

#[global] Instance Eff_ret {S : Type} : MRet (Eff S) := λ A a s, (Ok a, s).
#[global] Instance Eff_bind {S : Type} : MBind (Eff S) := λ A B f m s,
  match m s with
  | (Ok a, s') => f a s'
  | (Err e, s') => (Err e, s')
  end.

(** A pure step that may throw. *)
Definition lift {S A : Type} (r : Result A) : Eff S A := λ s, (r, s).

Definition modify {S : Type} (f : S → S) : Eff S unit := λ s, (Ok tt, f s).

(** [array.forEach(callback)] *)
Fixpoint forEach {S A : Type} (l : list A) (callback : A → Eff S unit)
  : Eff S unit :=
  match l with
  | [] => mret tt
  | x :: rest => callback x;; forEach rest callback
  end.

(** A [forEach] whose callback grows a local array. *)
Fixpoint foldE {S A B : Type} (callback : B → A → Eff S B) (acc : B)
    (l : list A) : Eff S B :=
  match l with
  | [] => mret acc
  | x :: rest => acc' ← callback acc x; foldE callback acc' rest
  end.

(** The helper [each]: [Object.keys(obj).forEach(key => callback(obj[key],
    key))].  Every key of [Object.keys(obj)] is bound in [obj]. *)
Definition each {S V : Type} (obj : list (string * V))
    (callback : V → string → Eff S unit) : Eff S unit :=
  forEach (obj_keys obj) (λ key,
    match obj_get key obj with
    | Some value => callback value key
    | None => mret tt
    end).

(** The pairs [each] hands to its callback, in order. *)
Definition entries {V : Type} (obj : list (string * V)) : list (string * V) :=
  omap (λ key, pair key <$> obj_get key obj) (obj_keys obj).

Lemma entries_NoDup {V : Type} (obj : list (string * V)) :
  NoDup (obj_keys obj) → entries obj = obj.
Proof.
  unfold entries, obj_keys.
  assert (H : ∀ (pre l : list (string * V)),
    NoDup (pre ++ l).*1 →
    omap (λ key, pair key <$> obj_get key (pre ++ l)) l.*1 = l).
  { intros pre l. revert pre. induction l as [|[k v] l IH]; intros pre Hnd; [done|].
    assert (Hget : obj_get k (pre ++ (k, v) :: l) = Some v).
    { rewrite fmap_app in Hnd. apply NoDup_app in Hnd as (_ & Hdisj & _).
      clear IH. induction pre as [|[k0 v0] pre IHp]; cbn.
      - by rewrite decide_True.
      - rewrite decide_False.
        + apply IHp. intros x Hx. apply Hdisj. by right.
        + intros ->. apply (Hdisj k0); [by left | by left]. }
    cbn. rewrite Hget. cbn. f_equal.
    specialize (IH (pre ++ [(k, v)])). rewrite <- app_assoc in IH.
    by apply IH. }
  intros Hnd. by apply (H []).
Qed.

Lemma entries_subseteq {V : Type} (obj : list (string * V)) kv :
  kv ∈ entries obj → kv ∈ obj.
Proof.
  unfold entries. rewrite list_elem_of_omap. intros (key & _ & Hkv).
  destruct (obj_get key obj) as [v|] eqn:Hget; [|done].
  injection Hkv as <-. clear -Hget.
  induction obj as [|[k0 v0] obj IH]; [done|].
  cbn in Hget. destruct (decide (key = k0)) as [->|Hne].
  - injection Hget as ->. by left.
  - right. by apply IH.
Qed.

Section Eff_facts.
Context {S : Type}.
Implicit Types s : S.

Lemma forEach_app {A : Type} (l1 l2 : list A) (f : A → Eff S unit) s :
  forEach (l1 ++ l2) f s = (forEach l1 f;; forEach l2 f) s.
Proof.
  revert s. induction l1 as [|x l1 IH]; intros s; [done|].
  cbn [app forEach]. unfold mbind, Eff_bind.
  destruct (f x s) as [[[]|e] s']; [|done].
  apply IH.
Qed.

Lemma forEach_ext {A : Type} (l : list A) (f g : A → Eff S unit) s :
  (∀ x s', x ∈ l → f x s' = g x s') → forEach l f s = forEach l g s.
Proof.
  revert s. induction l as [|x l IH]; intros s H; [done|].
  cbn [forEach]. unfold mbind, Eff_bind.
  rewrite H by (by left).
  destruct (g x s) as [[[]|e] s']; [|done].
  apply IH. intros y s'' Hy. apply H. by right.
Qed.

Lemma forEach_fmap {A B : Type} (g : A → B) (l : list A)
    (f : B → Eff S unit) s :
  forEach (g <$> l) f s = forEach l (λ x, f (g x)) s.
Proof.
  revert s. induction l as [|x l IH]; intros s; [done|].
  cbn [fmap list_fmap forEach]. unfold mbind, Eff_bind.
  destruct (f (g x) s) as [[[]|e] s']; [|done].
  apply IH.
Qed.

Lemma forEach_flat_map {A B : Type} (g : A → list B) (l : list A)
    (f : B → Eff S unit) s :
  forEach (flat_map g l) f s = forEach l (λ x, forEach (g x) f) s.
Proof.
  revert s. induction l as [|x l IH]; intros s; [done|].
  cbn [flat_map forEach]. rewrite forEach_app. unfold mbind, Eff_bind.
  destruct (forEach (g x) f s) as [[[]|e] s']; [|done].
  apply IH.
Qed.

Lemma forEach_filter {A : Type} (p : A → bool) (l : list A)
    (f : A → Eff S unit) s :
  forEach (filter (λ x, p x = true) l) f s
  = forEach l (λ x, if p x then f x else mret tt) s.
Proof.
  revert s. induction l as [|x l IH]; intros s; [done|].
  rewrite filter_cons. cbn [forEach]. unfold mbind, Eff_bind.
  destruct (p x) eqn:Hp.
  - rewrite decide_True by done. cbn [forEach]. unfold mbind, Eff_bind.
    destruct (f x s) as [[[]|e] s']; [|done]. apply IH.
  - rewrite decide_False by done. cbn. apply IH.
Qed.

Lemma each_entries {V : Type} (obj : list (string * V))
    (f : V → string → Eff S unit) s :
  each obj f s = forEach (entries obj) (λ kv, f kv.2 kv.1) s.
Proof.
  unfold each, entries. generalize (obj_keys obj). intros keys. revert s.
  induction keys as [|key keys IH]; intros s; [done|].
  cbn [forEach omap list_omap]. cbv beta.
  destruct (obj_get key obj) as [v|]; cbn [fmap option_fmap option_map forEach].
  - unfold mbind, Eff_bind. cbn [fst snd].
    destruct (f v key s) as [[[]|e] s']; [|done]. apply IH.
  - apply IH.
Qed.

(** An exception ends the loop where it is thrown: the state is the one the
    throwing callback left. *)
Lemma forEach_abort {A : Type} (pre post : list A) x (f : A → Eff S unit)
    s0 s1 s2 e :
  forEach pre f s0 = (Ok tt, s1) →
  f x s1 = (Err e, s2) →
  forEach (pre ++ x :: post) f s0 = (Err e, s2).
Proof.
  intros Hpre Hx. rewrite forEach_app. unfold mbind, Eff_bind.
  rewrite Hpre. cbn [forEach]. unfold mbind, Eff_bind. by rewrite Hx.
Qed.

Lemma forEach_Err {A : Type} (l : list A) (f : A → Eff S unit) s0 s2 e :
  forEach l f s0 = (Err e, s2) →
  ∃ pre x post s1,
    l = pre ++ x :: post
    ∧ forEach pre f s0 = (Ok tt, s1)
    ∧ f x s1 = (Err e, s2).
Proof.
  revert s0. induction l as [|x l IH]; intros s0; [done|].
  cbn [forEach]. unfold mbind, Eff_bind.
  destruct (f x s0) as [[[]|e'] s'] eqn:Hx.
  - intros H. apply IH in H as (pre & y & post & s1 & -> & Hpre & Hy).
    exists (x :: pre), y, post, s1. split_and!; [done| |done].
    cbn [forEach]. unfold mbind, Eff_bind. by rewrite Hx.
  - intros [= -> ->]. by exists [], x, l, s0.
Qed.

(** A loop whose callbacks all return leaves the state they build up, one
    after the other. *)
Lemma forEach_Ok {A : Type} (l : list A) (f : A → Eff S unit)
    (step : A → S → S) s :
  (∀ x s', x ∈ l → f x s' = (Ok tt, step x s')) →
  forEach l f s = (Ok tt, foldl (λ s' x, step x s') s l).
Proof.
  revert s. induction l as [|x l IH]; intros s H; [done|].
  cbn [forEach foldl]. unfold mbind, Eff_bind.
  rewrite H by (by left). apply IH. intros y s' Hy. apply H. by right.
Qed.
End Eff_facts.

(** ** Visitor instances *)

(** What [new visitorClass({ name, args, visitedType, schema })] makes. *)
Record Visitor : Type := mkVisitor {
  visitor_class : VisitorClass;
  visitor_name : string;
  visitor_args : JSObject;
  visitor_visitedType : VisitableType;
  visitor_schema : GraphQLSchema
}.

(** [type.getFields()] of an object or interface type. *)
Definition getFields (type : GraphQLNamedType) : list (string * GraphQLField) :=
  match type with
  | ObjectType t => object_fields t
  | InterfaceType t => interface_fields t
  | _ => []
  end.

(** ** The calls of the walk

    Both variants of [visitSchema] walk the schema in the same way; a
    [Step] is one place where the walk resolves the directives of a node
    and calls a visitor method, and [schemaSteps] lists these places in the
    order the walk reaches them. *)

(** One call [callVisitorMethods(methodName, type, ...additionalArgs)]. *)
Record Step : Type := mkStep {
  step_method : string;
  step_type : VisitableType;
  step_details : Details
}.

Definition fieldSteps (type : GraphQLNamedType) (field : GraphQLField)
  : list Step :=
  mkStep "visitFieldDefinition" (OfField field) (FieldDetails type)
  :: match field_args field with
     | Some args =>
         (λ arg, mkStep "visitArgumentDefinition" (OfArgument arg)
                   (ArgumentDetails field type)) <$> args
     | None => []
     end.

Definition namedTypeSteps (type : GraphQLNamedType) : list Step :=
  match type with
  | ObjectType _ =>
      mkStep "visitObject" (OfNamedType type) NoDetails
      :: flat_map (λ kv, fieldSteps type kv.2) (entries (getFields type))
  | InterfaceType _ =>
      mkStep "visitInterface" (OfNamedType type) NoDetails
      :: flat_map (λ kv, fieldSteps type kv.2) (entries (getFields type))
  | InputObjectType t =>
      mkStep "visitInputObject" (OfNamedType type) NoDetails
      :: ((λ kv, mkStep "visitInputFieldDefinition" (OfInputField kv.2)
                   (FieldDetails type)) <$> entries (inputObject_fields t))
  | ScalarType _ => [mkStep "visitScalar" (OfNamedType type) NoDetails]
  | UnionType _ => [mkStep "visitUnion" (OfNamedType type) NoDetails]
  | EnumType t =>
      mkStep "visitEnum" (OfNamedType type) NoDetails
      :: ((λ value, mkStep "visitEnumValue" (OfEnumValue value)
                      (EnumValueDetails t)) <$> enum_values t)
  end.

(** The named types the walk goes into: those of the type map whose key
    does not start with two underscores. *)
Definition visitedTypes (s : GraphQLSchema) : list GraphQLNamedType :=
  (filter (λ kv, negb (String.prefix "__" kv.1) = true)
          (entries (getTypeMap s))).*2.

Definition schemaSteps (s : GraphQLSchema) : list Step :=
  mkStep "visitSchema" (OfSchema s) NoDetails
  :: flat_map namedTypeSteps (visitedTypes s).

(** The nodes a schema holds. *)
Definition nodes_of_field (field : GraphQLField) : list VisitableType :=
  OfField field
  :: match field_args field with
     | Some args => OfArgument <$> args
     | None => []
     end.

Definition nodes_of_namedType (type : GraphQLNamedType) : list VisitableType :=
  OfNamedType type
  :: match type with
     | ObjectType t => flat_map (λ kv, nodes_of_field kv.2) (object_fields t)
     | InterfaceType t => flat_map (λ kv, nodes_of_field kv.2) (interface_fields t)
     | InputObjectType t => (λ kv, OfInputField kv.2) <$> inputObject_fields t
     | EnumType t => OfEnumValue <$> enum_values t
     | ScalarType _ | UnionType _ => []
     end.

Definition nodes_of_schema (s : GraphQLSchema) : list VisitableType :=
  OfSchema s :: flat_map (λ kv, nodes_of_namedType kv.2) (getTypeMap s).

(** A schema built by calling the constructors of graphql-js carries no
    AST nodes. *)
Definition programmatic (s : GraphQLSchema) : Prop :=
  Forall (λ node, astNode node = None) (nodes_of_schema s).

Lemma elem_of_flat_map {A B : Type} (f : A → list B) (l : list A) (y : B) :
  y ∈ flat_map f l ↔ ∃ x, x ∈ l ∧ y ∈ f x.
Proof.
  rewrite list_elem_of_In, in_flat_map. split.
  - intros (x & Hx & Hy). exists x. by rewrite !list_elem_of_In.
  - intros (x & Hx & Hy). exists x. by rewrite <- !list_elem_of_In.
Qed.

Lemma fieldSteps_nodes type field step :
  step ∈ fieldSteps type field → step_type step ∈ nodes_of_field field.
Proof.
  unfold fieldSteps, nodes_of_field. intros [->|Hin]%elem_of_cons; [by left|].
  right. destruct (field_args field) as [args|]; [|by apply elem_of_nil in Hin].
  apply list_elem_of_fmap in Hin as (arg & -> & Harg).
  apply list_elem_of_fmap. by exists arg.
Qed.

Lemma namedTypeSteps_nodes type step :
  step ∈ namedTypeSteps type → step_type step ∈ nodes_of_namedType type.
Proof.
  assert (Hfields : ∀ fields,
    step ∈ flat_map (λ kv : string * GraphQLField, fieldSteps type kv.2)
                    (entries fields) →
    step_type step ∈ flat_map (λ kv, nodes_of_field kv.2) fields).
  { intros fields (kv & Hkv & Hstep)%elem_of_flat_map.
    apply elem_of_flat_map. exists kv.
    split; [by apply entries_subseteq | by eapply fieldSteps_nodes]. }
  unfold nodes_of_namedType.
  destruct type as [t|t|t|t|t|t]; cbn [namedTypeSteps getFields];
    intros [->|Hin]%elem_of_cons; try (by left); right.
  - by apply Hfields.
  - by apply Hfields.
  - apply list_elem_of_fmap in Hin as (kv & -> & Hkv).
    apply list_elem_of_fmap. exists kv. split; [done | by apply entries_subseteq].
  - by apply elem_of_nil in Hin.
  - by apply elem_of_nil in Hin.
  - apply list_elem_of_fmap in Hin as (value & -> & Hvalue).
    apply list_elem_of_fmap. by exists value.
Qed.

(** Every node the walk resolves is a node of the schema. *)
Lemma schemaSteps_nodes s step :
  step ∈ schemaSteps s → step_type step ∈ nodes_of_schema s.
Proof.
  unfold schemaSteps, nodes_of_schema. intros [->|Hin]%elem_of_cons; [by left|].
  right. apply elem_of_flat_map in Hin as (t & Ht & Hstep).
  unfold visitedTypes in Ht. apply list_elem_of_fmap in Ht as ([k t'] & -> & Hkv).
  apply list_elem_of_filter in Hkv as [_ Hkv]. apply entries_subseteq in Hkv.
  apply elem_of_flat_map. exists (k, t'). split; [done|].
  by apply namedTypeSteps_nodes.
Qed.

Lemma programmatic_directiveNodes s :
  programmatic s →
  Forall (λ node, directiveNodes_of node = None) (nodes_of_schema s).
Proof.
  intros Hs. eapply Forall_impl; [exact Hs|].
  intros node Hnode. unfold directiveNodes_of. by rewrite Hnode.
Qed.

(** * src/src/directives.ts *)

Module Directives.

(** [SchemaDirectiveVisitor.shouldCall], a static method: [this] is the
    class. *)
Definition shouldCall (this : VisitorClass) (methodName : string) : bool :=
  hasOwn methodToLocationMap methodName
  && negb (stubSet_has (prototype_get this methodName)).

(** [SchemaDirectiveVisitor.getLocations], a static method.  The loop
    pushes [methodToLocationMap[key]], which is bound whenever
    [shouldCall(key)] holds. *)
Definition getLocations (this : VisitorClass)
    (statics : gmap nat (list DirectiveLocationEnum))
  : list DirectiveLocationEnum * gmap nat (list DirectiveLocationEnum) :=
  match locations_get statics this with
  | None =>
      let locations :=
        foldl (λ locations key,
                 if shouldCall this key
                 then locations ++ option_list (obj_get key methodToLocationMap)
                 else locations)
              [] (for_in_prototype this) in
      (locations, <[class_id this := locations]> statics)
  | Some locations => (locations, statics)
  end.

(** What the walk leaves behind.  [Resolved] marks an entry into
    [getVisitors], [Constructed] a [new visitorClass(...)], [Called] a
    call [d[methodName](type, ...additionalArgs)].  Visitor methods are
    the caller's code: the model records the call and takes the schema
    as it was.  This is the walk with constructors and methods that
    return and leave alone what the walk reads; module [Live] runs the
    visitors' code. *)
Inductive Event : Type :=
  | Resolved (methodName : string) (type : VisitableType)
  | Constructed (visitor : Visitor)
  | Called (methodName : string) (visitor : Visitor) (type : VisitableType)
      (details : Details).

Record WalkState : Type := mkWalkState {
  createdVisitors : gmap string (list Visitor);
  trace : list Event
}.

Definition log (event : Event) : Eff WalkState unit :=
  modify (λ st, mkWalkState (createdVisitors st) (trace st ++ [event])).

(** [createdVisitors[visitor.name].push(visitor)] *)
Definition push_created (visitor : Visitor) : Eff WalkState unit := λ st,
  match createdVisitors st !! visitor_name visitor with
  | Some visitors =>
      (Ok tt,
       mkWalkState
         (<[visitor_name visitor := visitors ++ [visitor]]> (createdVisitors st))
         (trace st))
  | None => (Err (TypeError "Cannot read property 'push' of undefined"), st)
  end.

Section visitSchema.
Variable parseInt : string → Z → float.
Variable parseFloat : string → float.
Variable getArgumentValues : GraphQLDirective → DirectiveNode → Result JSObject.
Variable schema : GraphQLSchema.
Variable directiveVisitors : gmap string VisitorClass.

Definition declaredDirectives : gmap string GraphQLDirective :=
  foldl (λ declared decl, <[decl_name decl := decl]> declared) ∅
        (getDirectives schema).

(** The untyped branch: [args = Object.create(null)] and one assignment
    per argument node. *)
Definition untypedArgs (directiveNode : DirectiveNode) : Result JSObject :=
  foldM (λ args arg,
           value ← valueFromASTUntyped parseInt parseFloat (arg_value arg);
           Ok (obj_set (arg_name arg) value args))
        [] (arguments directiveNode).

(** The callback of [directiveNodes.forEach] in [getVisitors]; [visitors]
    is the local array it pushes to. *)
Definition getVisitors_node (type : VisitableType) (methodName : string)
    (visitors : list Visitor) (directiveNode : DirectiveNode)
  : Eff WalkState (list Visitor) :=
  let directiveName := directive_name directiveNode in
  match directiveVisitors !! directiveName with
  | None => mret visitors
  | Some visitorClass =>
      if negb (shouldCall visitorClass methodName) then mret visitors
      else
        args ← lift
          match declaredDirectives !! directiveName with
          | Some decl => getArgumentValues decl directiveNode
          | None => untypedArgs directiveNode
          end;
        let visitor := mkVisitor visitorClass directiveName args type schema in
        log (Constructed visitor);;
        mret (visitors ++ [visitor])
  end.

Definition getVisitors (type : VisitableType) (methodName : string)
  : Eff WalkState (list Visitor) :=
  log (Resolved methodName type);;
  match directiveNodes_of type with
  | None => mret []
  | Some directiveNodes =>
      visitors ← foldE (getVisitors_node type methodName) [] directiveNodes;
      (if bool_decide (0 < length visitors)
       then forEach visitors push_created
       else mret tt);;
      mret visitors
  end.

Definition callVisitorMethods (methodName : string) (type : VisitableType)
    (additionalArgs : Details) : Eff WalkState unit :=
  visitors ← getVisitors type methodName;
  forEach visitors (λ d, log (Called methodName d type additionalArgs)).

Definition visitFields (type : GraphQLNamedType) : Eff WalkState unit :=
  each (getFields type) (λ field _,
    callVisitorMethods "visitFieldDefinition" (OfField field) (FieldDetails type);;
    match field_args field with
    | Some args =>
        forEach args (λ arg,
          callVisitorMethods "visitArgumentDefinition" (OfArgument arg)
            (ArgumentDetails field type))
    | None => mret tt
    end).

(** The branches of [visit] for the named types: the [instanceof] chain
    after the first test. *)
Definition visitNamedType (type : GraphQLNamedType) : Eff WalkState unit :=
  match type with
  | ObjectType _ =>
      callVisitorMethods "visitObject" (OfNamedType type) NoDetails;;
      visitFields type
  | InterfaceType _ =>
      callVisitorMethods "visitInterface" (OfNamedType type) NoDetails;;
      visitFields type
  | InputObjectType t =>
      callVisitorMethods "visitInputObject" (OfNamedType type) NoDetails;;
      each (inputObject_fields t) (λ field _,
        callVisitorMethods "visitInputFieldDefinition" (OfInputField field)
          (FieldDetails type))
  | ScalarType _ =>
      callVisitorMethods "visitScalar" (OfNamedType type) NoDetails
  | UnionType _ =>
      callVisitorMethods "visitUnion" (OfNamedType type) NoDetails
  | EnumType t =>
      callVisitorMethods "visitEnum" (OfNamedType type) NoDetails;;
      forEach (enum_values t) (λ value,
        callVisitorMethods "visitEnumValue" (OfEnumValue value)
          (EnumValueDetails t))
  end.

(** [visit]: fields, arguments and enum values are instances of none of
    the tested classes. *)
Definition visit (type : VisitableType) : Eff WalkState unit :=
  match type with
  | OfSchema s =>
      callVisitorMethods "visitSchema" type NoDetails;;
      each (getTypeMap s) (λ namedType typeName,
        if negb (String.prefix "__" typeName)
        then visitNamedType namedType
        else mret tt)
  | OfNamedType namedType => visitNamedType namedType
  | _ => mret tt
  end.

(** [createdVisitors] after [Object.keys(directiveVisitors).forEach(...)]. *)
Definition initialState : WalkState :=
  mkWalkState ((λ _, []) <$> directiveVisitors) [].

(** The body of [visitSchema] up to its [return], with the state it ends
    in. *)
Definition visitSchema_run : Result unit * WalkState :=
  visit (OfSchema schema) initialState.

Definition visitSchema : Result (gmap string (list Visitor)) :=
  match visitSchema_run with
  | (Ok _, st) => Ok (createdVisitors st)
  | (Err e, _) => Err e
  end.


(** *** The walk as a list of resolver calls

    What follows restates the walk in pure terms, to reason about it: what
    one occurrence contributes ([instantiate]), what the resolver collects
    at one node ([collect], [resolve]), the calls of [callVisitorMethods]
    the walk makes in order ([schemaSteps]), and the events they leave
    ([outcome]). *)

Definition instantiate (type : VisitableType) (methodName : string)
    (directiveNode : DirectiveNode) : Result (option Visitor) :=
  let directiveName := directive_name directiveNode in
  match directiveVisitors !! directiveName with
  | None => Ok None
  | Some visitorClass =>
      if negb (shouldCall visitorClass methodName) then Ok None
      else
        match
          match declaredDirectives !! directiveName with
          | Some decl => getArgumentValues decl directiveNode
          | None => untypedArgs directiveNode
          end
        with
        | Ok args =>
            Ok (Some (mkVisitor visitorClass directiveName args type schema))
        | Err e => Err e
        end
  end.

(** The visitors made before the first exception, and that exception. *)
Fixpoint collect (type : VisitableType) (methodName : string)
    (directiveNodes : list DirectiveNode) : list Visitor * option Error :=
  match directiveNodes with
  | [] => ([], None)
  | directiveNode :: rest =>
      match instantiate type methodName directiveNode with
      | Ok None => collect type methodName rest
      | Ok (Some visitor) =>
          let '(visitors, failure) := collect type methodName rest in
          (visitor :: visitors, failure)
      | Err e => ([], Some e)
      end
  end.

Definition resolve (type : VisitableType) (methodName : string)
  : list Visitor * option Error :=
  match directiveNodes_of type with
  | None => ([], None)
  | Some directiveNodes => collect type methodName directiveNodes
  end.

Definition callStep (step : Step) : Eff WalkState unit :=
  callVisitorMethods (step_method step) (step_type step) (step_details step).

(** The events of a step whose resolver returns, and of one whose
    resolver throws. *)
Definition stepEvents (step : Step) : list Event :=
  let '(visitors, failure) := resolve (step_type step) (step_method step) in
  Resolved (step_method step) (step_type step)
  :: (Constructed <$> visitors)
  ++ match failure with
     | None =>
         (λ d, Called (step_method step) d (step_type step) (step_details step))
           <$> visitors
     | Some _ => []
     end.

Definition stepFailure (step : Step) : option Error :=
  (resolve (step_type step) (step_method step)).2.

(** The events of a run of steps, up to and with the first that throws. *)
Fixpoint outcome (steps : list Step) : list Event * option Error :=
  match steps with
  | [] => ([], None)
  | step :: rest =>
      match stepFailure step with
      | None =>
          let '(events, failure) := outcome rest in
          (stepEvents step ++ events, failure)
      | Some e => (stepEvents step, Some e)
      end
  end.

(** The visitors of the [Constructed] events, in order. *)
Definition constructed (events : list Event) : list Visitor :=
  omap (λ event, match event with Constructed v => Some v | _ => None end)
       events.

(** The named types of the [Resolved] events, in order. *)
Definition resolvedTypes (events : list Event) : list GraphQLNamedType :=
  omap (λ event,
          match event with
          | Resolved _ (OfNamedType t) => Some t
          | _ => None
          end) events.

(** [createdVisitors] holds, under every key of [directiveVisitors], the
    visitors of that name made so far, in the order they were made. *)
Definition consistent (st : WalkState) : Prop :=
  ∀ k, createdVisitors st !! k
       = (λ _, filter (λ v, visitor_name v = k) (constructed (trace st)))
           <$> directiveVisitors !! k.

(** The node an event is about. *)
Definition event_type (event : Event) : VisitableType :=
  match event with
  | Resolved _ type => type
  | Constructed visitor => visitor_visitedType visitor
  | Called _ _ type _ => type
  end.

Definition logged (st : WalkState) (events : list Event) : WalkState :=
  mkWalkState (createdVisitors st) (trace st ++ events).

Lemma constructed_app events1 events2 :
  constructed (events1 ++ events2) = constructed events1 ++ constructed events2.
Proof. apply omap_app. Qed.

Lemma constructed_Constructed visitors :
  constructed (Constructed <$> visitors) = visitors.
Proof. induction visitors as [|v vs IH]; [done|]. cbn. by f_equal. Qed.

Lemma constructed_Called m type details visitors :
  constructed ((λ d, Called m d type details) <$> visitors) = [].
Proof. by induction visitors. Qed.

Lemma getVisitors_node_spec type m visitors directiveNode st :
  getVisitors_node type m visitors directiveNode st
  = match instantiate type m directiveNode with
    | Ok None => (Ok visitors, st)
    | Ok (Some visitor) =>
        (Ok (visitors ++ [visitor]), logged st [Constructed visitor])
    | Err e => (Err e, st)
    end.
Proof.
  unfold getVisitors_node, instantiate.
  destruct (directiveVisitors !! directive_name directiveNode) as [cls|]; [|done].
  destruct (shouldCall cls m); cbn [negb]; [|done].
  unfold mbind, Eff_bind, lift.
  by destruct (match declaredDirectives !! directive_name directiveNode with
               | Some decl => getArgumentValues decl directiveNode
               | None => untypedArgs directiveNode
               end).
Qed.

Lemma foldE_collect type m directiveNodes acc st :
  foldE (getVisitors_node type m) acc directiveNodes st
  = (match (collect type m directiveNodes).2 with
     | None => Ok (acc ++ (collect type m directiveNodes).1)
     | Some e => Err e
     end,
     logged st (Constructed <$> (collect type m directiveNodes).1)).
Proof.
  revert acc st.
  induction directiveNodes as [|d ds IH]; intros acc st.
  - cbn. rewrite app_nil_r. unfold logged. rewrite app_nil_r. by destruct st.
  - cbn [foldE collect]. unfold mbind, Eff_bind.
    rewrite getVisitors_node_spec.
    destruct (instantiate type m d) as [[v|]|e].
    + rewrite IH. destruct (collect type m ds) as [vs failure]. cbn.
      unfold logged. cbn. rewrite <- !app_assoc. done.
    + apply IH.
    + cbn. unfold logged. rewrite app_nil_r. by destruct st.
Qed.

Lemma collect_elem_of type m directiveNodes v :
  v ∈ (collect type m directiveNodes).1 →
  ∃ d, d ∈ directiveNodes ∧ instantiate type m d = Ok (Some v).
Proof.
  induction directiveNodes as [|d ds IH]; cbn [collect]; [by intros ?%elem_of_nil|].
  destruct (instantiate type m d) as [[v'|]|e] eqn:Hd.
  - destruct (collect type m ds) as [vs failure]. cbn.
    intros [->|Hin]%elem_of_cons.
    + exists d. split; [by left | done].
    + destruct (IH Hin) as (d' & ? & ?). exists d'. split; [by right | done].
  - intros Hin. destruct (IH Hin) as (d' & ? & ?).
    exists d'. split; [by right | done].
  - by intros ?%elem_of_nil.
Qed.

Lemma instantiate_Some type m d v :
  instantiate type m d = Ok (Some v) →
  ∃ cls,
    directiveVisitors !! directive_name d = Some cls
    ∧ shouldCall cls m = true
    ∧ visitor_class v = cls
    ∧ visitor_name v = directive_name d
    ∧ visitor_visitedType v = type
    ∧ visitor_schema v = schema
    ∧ match declaredDirectives !! directive_name d with
      | Some decl => getArgumentValues decl d
      | None => untypedArgs d
      end = Ok (visitor_args v).
Proof.
  unfold instantiate.
  destruct (directiveVisitors !! directive_name d) as [cls|]; [|done].
  destruct (shouldCall cls m) eqn:Hcall; cbn [negb]; [|done].
  destruct (match declaredDirectives !! directive_name d with
            | Some decl => getArgumentValues decl d
            | None => untypedArgs d
            end) as [args|e]; [|done].
  intros [= <-]. by exists cls.
Qed.

Lemma forEach_push_created visitors created events made :
  (∀ v, v ∈ visitors → is_Some (directiveVisitors !! visitor_name v)) →
  (∀ k, created !! k
        = (λ _, filter (λ v, visitor_name v = k) made)
            <$> directiveVisitors !! k) →
  ∃ created',
    forEach visitors push_created (mkWalkState created events)
    = (Ok tt, mkWalkState created' events)
    ∧ ∀ k, created' !! k
           = (λ _, filter (λ v, visitor_name v = k) (made ++ visitors))
               <$> directiveVisitors !! k.
Proof.
  revert created made.
  induction visitors as [|v vs IH]; intros created made Hnames Hcreated.
  - exists created. split; [done|]. intros k. by rewrite app_nil_r.
  - destruct (Hnames v) as [cls Hcls]; [by left|].
    cbn [forEach]. unfold mbind, Eff_bind, push_created at 1. cbn.
    rewrite Hcreated, Hcls. cbn.
    destruct (IH (<[visitor_name v :=
                     filter (λ v0, visitor_name v0 = visitor_name v) made ++ [v]]>
                  created) (made ++ [v])) as (created' & Hrun & Hlook).
    + intros v' Hv'. apply Hnames. by right.
    + intros k. destruct (decide (visitor_name v = k)) as [<-|Hne].
      * rewrite lookup_insert_eq, Hcls. cbn.
        rewrite filter_app, filter_cons_True, filter_nil; done.
      * rewrite lookup_insert_ne by done. rewrite Hcreated.
        rewrite filter_app, filter_cons_False, filter_nil, app_nil_r; done.
    + exists created'. split; [done|].
      intros k. rewrite Hlook. by rewrite <- app_assoc.
Qed.

Lemma getVisitors_spec type m st :
  consistent st →
  ∃ st',
    getVisitors type m st
    = (match (resolve type m).2 with
       | None => Ok (resolve type m).1
       | Some e => Err e
       end, st')
    ∧ trace st' = trace st ++ Resolved m type :: (Constructed <$> (resolve type m).1)
    ∧ ((resolve type m).2 = None → consistent st').
Proof.
  intros Hst. unfold getVisitors, resolve.
  unfold mbind at 1, Eff_bind at 1. cbn [log modify].
  destruct (directiveNodes_of type) as [ds|].
  2:{ eexists. split; [done|]. cbn. split; [done|].
      intros _ k. cbn. rewrite constructed_app. cbn. rewrite app_nil_r. apply Hst. }
  unfold mbind at 1, Eff_bind at 1. rewrite foldE_collect.
  pose proof (collect_elem_of type m ds) as Helem.
  destruct (collect type m ds) as [vs failure]. cbn [fst snd] in *.
  destruct failure as [e|].
  { eexists. split; [done|]. cbn. rewrite <- app_assoc. done. }
  cbn [app]. unfold mbind at 1, Eff_bind at 1.
  assert (Hmade : ∀ k,
    createdVisitors st !! k
    = (λ _, filter (λ v, visitor_name v = k) (constructed (trace st)))
        <$> directiveVisitors !! k) by apply Hst.
  assert (Hnames : ∀ v, v ∈ vs → is_Some (directiveVisitors !! visitor_name v)).
  { intros v Hv. destruct (Helem v Hv) as (d & _ & Hd).
    apply instantiate_Some in Hd as (cls & Hcls & _ & _ & -> & _). eauto. }
  destruct (forEach_push_created vs (createdVisitors st)
              ((trace st ++ [Resolved m type]) ++ (Constructed <$> vs))
              (constructed (trace st)) Hnames Hmade) as (created' & Hrun & Hlook).
  assert (Hif : (if bool_decide (0 < length vs)
                 then forEach vs push_created else mret tt)
                  (logged (mkWalkState (createdVisitors st)
                             (trace st ++ [Resolved m type]))
                          (Constructed <$> vs))
                = (Ok tt, mkWalkState created'
                            ((trace st ++ [Resolved m type]) ++ (Constructed <$> vs)))).
  { unfold logged. cbn [createdVisitors trace].
    case_bool_decide as Hlen; [done|].
    destruct vs; [|cbn in Hlen; lia].
    cbn in Hrun. by injection Hrun as <-. }
  rewrite Hif. cbn. eexists. split; [done|]. cbn. split.
  - by rewrite <- app_assoc.
  - intros _ k. cbn. rewrite Hlook. rewrite !constructed_app.
    cbn. rewrite app_nil_r, constructed_Constructed. done.
Qed.

Lemma forEach_log_Called m type details visitors st :
  forEach visitors (λ d, log (Called m d type details)) st
  = (Ok tt, logged st ((λ d, Called m d type details) <$> visitors)).
Proof.
  revert st. induction visitors as [|v vs IH]; intros st.
  - cbn. unfold logged. rewrite app_nil_r. by destruct st.
  - cbn [forEach]. unfold mbind, Eff_bind. cbn [log modify].
    rewrite IH. unfold logged. cbn. by rewrite <- app_assoc.
Qed.

Lemma callStep_spec step st :
  consistent st →
  ∃ st',
    callStep step st
    = (match stepFailure step with None => Ok tt | Some e => Err e end, st')
    ∧ trace st' = trace st ++ stepEvents step
    ∧ (stepFailure step = None → consistent st').
Proof.
  intros Hst. unfold callStep, callVisitorMethods, stepFailure, stepEvents.
  destruct (getVisitors_spec (step_type step) (step_method step) st Hst)
    as (st1 & Hrun & Htrace & Hcons).
  unfold mbind, Eff_bind. rewrite Hrun.
  destruct (resolve (step_type step) (step_method step)) as [vs [e|]];
    cbn [fst snd] in *.
  - exists st1. split; [done|]. split; [|done].
    by rewrite Htrace, app_nil_r.
  - rewrite forEach_log_Called. eexists. split; [done|]. cbn. split.
    + rewrite Htrace. by rewrite <- app_assoc.
    + intros _ k. cbn. rewrite constructed_app, constructed_Called, app_nil_r.
      by apply Hcons.
Qed.

Lemma forEach_callStep steps st :
  consistent st →
  ∃ st',
    forEach steps callStep st
    = (match (outcome steps).2 with None => Ok tt | Some e => Err e end, st')
    ∧ trace st' = trace st ++ (outcome steps).1
    ∧ ((outcome steps).2 = None → consistent st').
Proof.
  revert st. induction steps as [|step rest IH]; intros st Hst.
  - exists st. cbn. by rewrite app_nil_r.
  - cbn [forEach outcome]. unfold mbind, Eff_bind.
    destruct (callStep_spec step st Hst) as (st1 & Hrun & Htrace & Hcons).
    rewrite Hrun. destruct (stepFailure step) as [e|].
    + exists st1. cbn. by split.
    + destruct (IH st1 (Hcons eq_refl)) as (st2 & Hrun2 & Htrace2 & Hcons2).
      exists st2. destruct (outcome rest) as [events failure]. cbn in *.
      split; [done|]. split; [|done].
      by rewrite Htrace2, Htrace, <- app_assoc.
Qed.

(** The walk makes the calls of [schemaSteps], in that order. *)
Lemma visitFields_steps type st :
  visitFields type st
  = forEach (flat_map (λ kv, fieldSteps type kv.2) (entries (getFields type)))
            callStep st.
Proof.
  unfold visitFields. rewrite each_entries, forEach_flat_map.
  apply forEach_ext. intros [k field] s' _. cbn [fst snd].
  unfold fieldSteps. cbn [forEach]. unfold mbind, Eff_bind.
  unfold callStep at 1. cbn [step_method step_type step_details].
  destruct (callVisitorMethods "visitFieldDefinition" (OfField field)
              (FieldDetails type) s') as [[[]|e] s'']; [|done].
  destruct (field_args field) as [args|]; [|done].
  by rewrite forEach_fmap.
Qed.

Lemma visitNamedType_steps type st :
  visitNamedType type st = forEach (namedTypeSteps type) callStep st.
Proof.
  destruct type as [t|t|t|t|t|t]; cbn [visitNamedType namedTypeSteps forEach];
    unfold mbind, Eff_bind; unfold callStep at 1;
    cbn [step_method step_type step_details].
  - destruct (callVisitorMethods _ _ _ st) as [[[]|e] s']; [|done].
    apply visitFields_steps.
  - destruct (callVisitorMethods _ _ _ st) as [[[]|e] s']; [|done].
    apply visitFields_steps.
  - destruct (callVisitorMethods _ _ _ st) as [[[]|e] s']; [|done].
    by rewrite each_entries, forEach_fmap.
  - by destruct (callVisitorMethods _ _ _ st) as [[[]|e] s'].
  - by destruct (callVisitorMethods _ _ _ st) as [[[]|e] s'].
  - destruct (callVisitorMethods _ _ _ st) as [[[]|e] s']; [|done].
    by rewrite forEach_fmap.
Qed.

Lemma visit_schemaSteps s st :
  visit (OfSchema s) st = forEach (schemaSteps s) callStep st.
Proof.
  unfold visit, schemaSteps, visitedTypes. cbn [forEach].
  unfold mbind, Eff_bind. unfold callStep at 1.
  cbn [step_method step_type step_details].
  destruct (callVisitorMethods _ _ _ st) as [[[]|e] s']; [|done].
  rewrite each_entries, forEach_flat_map, forEach_fmap.
  rewrite (forEach_filter (λ kv, negb (String.prefix "__" kv.1))).
  apply forEach_ext. intros [k t] s'' _. cbn [fst snd].
  destruct (negb (String.prefix "__" k)); [|done].
  apply visitNamedType_steps.
Qed.

Lemma consistent_initialState : consistent initialState.
Proof. intros k. cbn. by rewrite lookup_fmap. Qed.

(** The whole walk, in terms of [outcome]. *)
Lemma visitSchema_run_outcome :
  visitSchema_run.1
  = match (outcome (schemaSteps schema)).2 with
    | None => Ok tt
    | Some e => Err e
    end
  ∧ trace visitSchema_run.2 = (outcome (schemaSteps schema)).1
  ∧ ((outcome (schemaSteps schema)).2 = None → consistent visitSchema_run.2).
Proof.
  unfold visitSchema_run. rewrite visit_schemaSteps.
  destruct (forEach_callStep (schemaSteps schema) initialState
              consistent_initialState) as (st' & -> & Htrace & Hcons).
  by cbn.
Qed.

Lemma outcome_Ok steps :
  (outcome steps).2 = None →
  (outcome steps).1 = flat_map stepEvents steps
  ∧ Forall (λ step, stepFailure step = None) steps.
Proof.
  induction steps as [|step rest IH]; [done|].
  cbn [outcome flat_map]. destruct (stepFailure step) as [e|] eqn:Hstep; [done|].
  destruct (outcome rest) as [events failure]. cbn in *.
  intros ->. destruct IH as [-> ?]; [done|]. by split; [|constructor].
Qed.

Lemma outcome_Err steps e :
  (outcome steps).2 = Some e ↔
  ∃ pre step post,
    steps = pre ++ step :: post
    ∧ Forall (λ step', stepFailure step' = None) pre
    ∧ stepFailure step = Some e.
Proof.
  induction steps as [|step rest IH].
  - split; [done|]. by intros ([|??] & ? & ? & ? & _).
  - cbn [outcome]. destruct (stepFailure step) as [e'|] eqn:Hstep.
    + cbn. split.
      * intros [= ->]. by exists [], step, rest.
      * intros ([|step' pre] & step0 & post & [= <- ->] & Hpre & Hfail).
        -- congruence.
        -- apply Forall_cons in Hpre as [? _]. congruence.
    + destruct (outcome rest) as [events failure]. cbn in *. rewrite IH. split.
      * intros (pre & step0 & post & -> & Hpre & Hfail).
        exists (step :: pre), step0, post. split_and!; [done| |done].
        by constructor.
      * intros ([|step' pre] & step0 & post & [= <- ->] & Hpre & Hfail).
        -- congruence.
        -- apply Forall_cons in Hpre as [_ Hpre]. by exists pre, step0, post.
Qed.

Lemma outcome_abort pre step post e :
  Forall (λ step', stepFailure step' = None) pre →
  stepFailure step = Some e →
  outcome (pre ++ step :: post)
  = (flat_map stepEvents pre ++ stepEvents step, Some e).
Proof.
  intros Hpre Hstep. induction Hpre as [|step' pre Hstep' _ IH].
  - cbn. by rewrite Hstep.
  - cbn [app outcome flat_map]. rewrite Hstep', IH. by rewrite <- app_assoc.
Qed.

(** *** Where an exception can come from *)

Lemma untypedArgs_Err d e :
  untypedArgs d = Err e → e = UnexpectedValueKind "Variable".
Proof.
  unfold untypedArgs. generalize (@nil (string * JSValue)).
  induction (arguments d) as [|a rest IH]; intros args; [done|].
  cbn [foldM].
  destruct (valueFromASTUntyped parseInt parseFloat (arg_value a))
    as [v|e'] eqn:Hv; cbn.
  - apply IH.
  - intros [= ->]. by eapply valueFromASTUntyped_Err.
Qed.

Lemma untypedArgs_Ok d args :
  untypedArgs d = Ok args →
  ∃ ws,
    Forall2 (λ a w, valueFromASTUntyped parseInt parseFloat (arg_value a) = Ok w)
            (arguments d) ws
    ∧ args = obj_assign [] (zip (arg_name <$> arguments d) ws).
Proof.
  unfold untypedArgs, obj_assign. generalize (@nil (string * JSValue)).
  induction (arguments d) as [|a rest IH]; intros args0.
  - intros [= <-]. by exists [].
  - cbn [foldM].
    destruct (valueFromASTUntyped parseInt parseFloat (arg_value a))
      as [v|e'] eqn:Hv; cbn; [|done].
    intros H. apply IH in H as (ws & Hws & ->).
    exists (v :: ws). split; [by constructor | done].
Qed.

Definition fromCoercer (e : Error) : Prop :=
  ∃ decl d, getArgumentValues decl d = Err e.

Lemma instantiate_Err type m d e :
  instantiate type m d = Err e →
  e = UnexpectedValueKind "Variable" ∨ fromCoercer e.
Proof.
  unfold instantiate.
  destruct (directiveVisitors !! directive_name d) as [cls|]; [|done].
  destruct (shouldCall cls m); cbn [negb]; [|done].
  destruct (declaredDirectives !! directive_name d) as [decl|].
  - destruct (getArgumentValues decl d) as [args|e'] eqn:Hc; [done|].
    intros [= ->]. right. by exists decl, d.
  - destruct (untypedArgs d) as [args|e'] eqn:Hu; [done|].
    intros [= ->]. left. by eapply untypedArgs_Err.
Qed.

Lemma collect_Err type m ds e :
  (collect type m ds).2 = Some e →
  e = UnexpectedValueKind "Variable" ∨ fromCoercer e.
Proof.
  induction ds as [|d ds IH]; [done|]. cbn [collect].
  destruct (instantiate type m d) as [[v|]|e'] eqn:Hd.
  - destruct (collect type m ds) as [vs failure]. apply IH.
  - apply IH.
  - intros [= ->]. by eapply instantiate_Err.
Qed.

Lemma stepFailure_Err step e :
  stepFailure step = Some e →
  e = UnexpectedValueKind "Variable" ∨ fromCoercer e.
Proof.
  unfold stepFailure, resolve.
  destruct (directiveNodes_of (step_type step)); [apply collect_Err | done].
Qed.

Lemma visitSchema_unfold :
  visitSchema
  = match (outcome (schemaSteps schema)).2 with
    | None => Ok (createdVisitors visitSchema_run.2)
    | Some e => Err e
    end.
Proof.
  unfold visitSchema. destruct visitSchema_run_outcome as (Hr & _ & _).
  destruct visitSchema_run as [r st]. cbn [fst snd] in *. subst r.
  by destruct (outcome (schemaSteps schema)).2.
Qed.

Lemma visitSchema_Err e :
  visitSchema = Err e →
  e = UnexpectedValueKind "Variable" ∨ fromCoercer e.
Proof.
  rewrite visitSchema_unfold.
  destruct (outcome (schemaSteps schema)).2 as [e'|] eqn:Hout; [|done].
  intros [= ->]. apply outcome_Err in Hout as (pre & step & post & _ & _ & Hstep).
  by eapply stepFailure_Err.
Qed.

(** An occurrence [d] of the node of a step makes the resolver throw on
    its argument [a]: the occurrences before it go through, [d] is handled
    and undeclared, the arguments before [a] decode, and the literal of
    [a] is of no recognized kind. *)
Definition offending (step : Step) (d : DirectiveNode) (a : ArgumentNode)
  : Prop :=
  ∃ before after made cls args_before args_after ws,
    directiveNodes_of (step_type step) = Some (before ++ d :: after)
    ∧ mapM (instantiate (step_type step) (step_method step)) before = Ok made
    ∧ directiveVisitors !! directive_name d = Some cls
    ∧ shouldCall cls (step_method step) = true
    ∧ declaredDirectives !! directive_name d = None
    ∧ arguments d = args_before ++ a :: args_after
    ∧ mapM (λ a', valueFromASTUntyped parseInt parseFloat (arg_value a'))
           args_before = Ok ws
    ∧ recognized (arg_value a) = false.

Lemma collect_app_Ok type m before made rest :
  mapM (instantiate type m) before = Ok made →
  collect type m (before ++ rest)
  = (omap id made ++ (collect type m rest).1, (collect type m rest).2).
Proof.
  revert made. induction before as [|d ds IH]; intros made; cbn [mapM].
  - intros [= <-]. cbn. by destruct (collect type m rest).
  - destruct (instantiate type m d) as [ov|e] eqn:Hd; [|done].
    destruct (mapM (instantiate type m) ds) as [made'|e]; [|done].
    intros [= <-]. cbn [app collect]. rewrite Hd, (IH made' eq_refl).
    by destruct ov.
Qed.

Lemma offending_stepFailure step d a :
  offending step d a →
  stepFailure step = Some (UnexpectedValueKind (kind (arg_value a))).
Proof.
  intros (before & after & made & cls & args_before & args_after & ws
          & Hds & Hbefore & Hcls & Hcall & Hdecl & Hargs & Hws & Hrec).
  unfold stepFailure, resolve. rewrite Hds.
  rewrite (collect_app_Ok _ _ _ _ _ Hbefore). cbn [snd collect].
  assert (Hd : instantiate (step_type step) (step_method step) d
               = Err (UnexpectedValueKind (kind (arg_value a)))).
  { unfold instantiate. rewrite Hcls, Hcall, Hdecl. cbn [negb].
    unfold untypedArgs. rewrite Hargs. clear -Hws Hrec.
    generalize (@nil (string * JSValue)). revert ws Hws.
    induction args_before as [|a' rest IH]; intros ws Hws args0.
    - cbn. by rewrite (valueFromASTUntyped_unrecognized _ _ _ Hrec).
    - cbn [mapM] in Hws. cbn [app foldM].
      destruct (valueFromASTUntyped parseInt parseFloat (arg_value a'))
        as [w|e]; [|done].
      destruct (mapM _ rest) as [ws'|e] eqn:Hrest; [|done].
      cbn. by eapply IH. }
  by rewrite Hd.
Qed.

(** *** Overriding *)

Lemma hasOwn_methodToLocationMap m :
  hasOwn methodToLocationMap m = bool_decide (m ∈ visitorMethods).
Proof.
  unfold hasOwn. apply bool_decide_ext. split.
  - intros [loc Hloc]. cbn in Hloc.
    repeat (destruct (decide (m = _)) as [->|?] in Hloc;
            [unfold visitorMethods; set_solver|]).
    done.
  - intros Hin. unfold visitorMethods in Hin.
    repeat (apply elem_of_cons in Hin as [->|Hin]; [by eexists|]).
    by apply elem_of_nil in Hin.
Qed.

Lemma prototype_get_visitorMethod this m :
  m ∈ visitorMethods →
  prototype_get this m = Some (Stub m)
  ∨ ∃ c, prototype_get this m = Some (Method c m).
Proof.
  intros Hin.
  assert (Hne : m ≠ "constructor").
  { intros ->. unfold visitorMethods in Hin.
    repeat (apply elem_of_cons in Hin as [Hin|Hin]; [discriminate|]).
    by apply elem_of_nil in Hin. }
  induction this as [|n parent IH methods]; cbn.
  - rewrite decide_False by done. rewrite decide_True by done. by left.
  - rewrite decide_False by done.
    destruct (decide (m ∈ methods)); [right; eauto | done].
Qed.

Lemma stubSet_has_Stub m :
  m ∈ visitorMethods → stubSet_has (Some (Stub m)) = true.
Proof.
  intros Hin. unfold visitorMethods in Hin.
  repeat (apply elem_of_cons in Hin as [->|Hin]; [by vm_compute|]).
  by apply elem_of_nil in Hin.
Qed.

Lemma stubSet_has_Method c m : stubSet_has (Some (Method c m)) = false.
Proof.
  unfold stubSet_has. apply bool_decide_eq_false_2.
  unfold visitorMethodStubSet. rewrite list_elem_of_omap. intros (k & _ & Hk). cbn in Hk.
  destruct (decide (k = "constructor")); [done|].
  by destruct (decide (k ∈ visitorMethods)).
Qed.

(** [shouldCall] holds of the visitor methods the class overrides, and of
    nothing else. *)
Lemma shouldCall_overrides this m : shouldCall this m = overrides this m.
Proof.
  unfold shouldCall, overrides. rewrite hasOwn_methodToLocationMap.
  case_bool_decide as Hin; [|done]. cbn [andb].
  destruct (prototype_get_visitorMethod this m Hin) as [->|[c ->]].
  - by rewrite stubSet_has_Stub.
  - by rewrite stubSet_has_Method.
Qed.

(** An occurrence whose name is a key of [directiveVisitors] gets one
    visitor when the class overrides the method of the node's kind, and
    none when it does not. *)
Lemma instantiate_overrides type m d cls ov :
  directiveVisitors !! directive_name d = Some cls →
  instantiate type m d = Ok ov →
  if overrides cls m
  then ∃ v, ov = Some v ∧ visitor_class v = cls
            ∧ visitor_name v = directive_name d
            ∧ visitor_visitedType v = type
  else ov = None.
Proof.
  unfold instantiate. intros ->. rewrite shouldCall_overrides.
  destruct (overrides cls m); cbn [negb].
  - destruct (match declaredDirectives !! directive_name d with
              | Some decl => getArgumentValues decl d
              | None => untypedArgs d
              end) as [args|e]; [|done].
    intros [= <-]. by eexists.
  - by intros [= <-].
Qed.

Lemma collect_mapM type m ds vs :
  collect type m ds = (vs, None) ↔
  ∃ made, mapM (instantiate type m) ds = Ok made ∧ vs = omap id made.
Proof.
  revert vs. induction ds as [|d ds IH]; intros vs; cbn [collect mapM].
  - split; [intros [= <-]; by exists [] | by intros (? & [= <-] & ->)].
  - destruct (instantiate type m d) as [ov|e].
    2:{ split; [done | by intros (? & ? & _)]. }
    destruct (collect type m ds) as [vs' failure] eqn:Hc.
    destruct (mapM (instantiate type m) ds) as [made'|e] eqn:Hm.
    + assert (Hvs' : failure = None ∧ vs' = omap id made').
      { destruct failure as [e|].
        - destruct (IH (omap id made')) as [_ H].
          discriminate H. by exists made'.
        - destruct (IH vs') as [H _]. destruct H as (made & [= <-] & ->); done. }
      destruct Hvs' as [-> ->]. destruct ov as [v|]; cbn.
      * split; [intros [= <-]; by eexists | by intros (? & [= <-] & ->)].
      * split; [intros [= <-]; by eexists | by intros (? & [= <-] & ->)].
    + assert (Hf : failure ≠ None).
      { intros ->. destruct (IH vs') as [H _].
        by destruct H as (made & ? & _). }
      destruct ov as [v|]; cbn.
      * split; [intros [= <- ->]; done | by intros (? & ? & _)].
      * split; [intros [= <- ->]; done | by intros (? & ? & _)].
Qed.

(** *** Events of a step *)

Lemma stepEvents_event_type step :
  Forall (λ event, event_type event = step_type step) (stepEvents step).
Proof.
  unfold stepEvents, resolve.
  assert (Hvs : ∀ v, v ∈ (match directiveNodes_of (step_type step) with
                          | Some ds => collect (step_type step) (step_method step) ds
                          | None => ([], None)
                          end).1 →
                     visitor_visitedType v = step_type step).
  { destruct (directiveNodes_of (step_type step)) as [ds|];
      [|by intros ? ?%elem_of_nil].
    intros v Hv. apply collect_elem_of in Hv as (d & _ & Hd).
    by apply instantiate_Some in Hd as (? & _ & _ & _ & _ & ? & _). }
  destruct (match directiveNodes_of (step_type step) with
            | Some ds => collect (step_type step) (step_method step) ds
            | None => ([], None)
            end) as [vs failure]. cbn [fst] in Hvs.
  constructor; [done|]. apply Forall_app. split.
  - apply Forall_fmap, Forall_forall. intros v Hv. cbn. by apply Hvs.
  - destruct failure; [constructor|]. apply Forall_fmap, Forall_forall. done.
Qed.

(** The method of a [Resolved] or [Called] event. *)
Definition event_method (event : Event) : option string :=
  match event with
  | Resolved m _ => Some m
  | Constructed _ => None
  | Called m _ _ _ => Some m
  end.

Lemma stepEvents_event_method step :
  Forall (λ event, event_method event = None
                   ∨ event_method event = Some (step_method step))
         (stepEvents step).
Proof.
  unfold stepEvents.
  destruct (resolve (step_type step) (step_method step)) as [vs failure].
  constructor; [by right|]. apply Forall_app. split.
  - apply Forall_fmap, Forall_forall. intros v _. by left.
  - destruct failure; [constructor|].
    apply Forall_fmap, Forall_forall. intros v _. by right.
Qed.

Lemma constructed_stepEvents step :
  constructed (stepEvents step)
  = (resolve (step_type step) (step_method step)).1.
Proof.
  unfold stepEvents.
  destruct (resolve (step_type step) (step_method step)) as [vs failure].
  change (constructed (?e :: ?l)) with (constructed ([e] ++ l)).
  rewrite !constructed_app, constructed_Constructed. cbn [fst].
  destruct failure; cbn; [by rewrite app_nil_r|].
  by rewrite constructed_Called, app_nil_r.
Qed.

Lemma constructed_outcome steps v :
  v ∈ constructed (outcome steps).1 →
  ∃ step, step ∈ steps ∧ v ∈ (resolve (step_type step) (step_method step)).1.
Proof.
  induction steps as [|step rest IH]; cbn [outcome].
  - by intros ?%elem_of_nil.
  - destruct (stepFailure step).
    + cbn [fst]. rewrite constructed_stepEvents. intros Hv.
      exists step. split; [by left | done].
    + destruct (outcome rest) as [events failure]. cbn [fst] in *.
      rewrite constructed_app, constructed_stepEvents.
      intros [Hv|Hv]%elem_of_app.
      * exists step. split; [by left | done].
      * destruct (IH Hv) as (step' & ? & ?).
        exists step'. split; [by right | done].
Qed.

Lemma flat_map_flat_map {A B C : Type} (f : A → list B) (g : B → list C) l :
  flat_map g (flat_map f l) = flat_map (λ x, flat_map g (f x)) l.
Proof.
  induction l as [|x l IH]; [done|].
  cbn [flat_map]. by rewrite flat_map_app, IH.
Qed.

(** C8. Visiting a union is one call of [callVisitorMethods], for
    [visitUnion] on the union itself: every event it leaves is about the
    union node and, when it names a method, names [visitUnion]; no event
    is about a member type. *)
Theorem union_members_not_visited (u : GraphQLUnionType) st :
  consistent st →
  let type := UnionType u in
  let step := mkStep "visitUnion" (OfNamedType type) NoDetails in
  visitNamedType type st
  = callVisitorMethods "visitUnion" (OfNamedType type) NoDetails st
  ∧ namedTypeSteps type = [step]
  ∧ trace (visitNamedType type st).2 = trace st ++ stepEvents step
  ∧ Forall (λ event,
              event_type event = OfNamedType type
              ∧ (event_method event = None
                 ∨ event_method event = Some "visitUnion"))
           (stepEvents step)
  ∧ ∀ member, member ∈ union_types u →
      Forall (λ event, event_type event ≠ OfNamedType (ObjectType member))
             (stepEvents step).
Proof.
  intros Hst type step. split_and!; [done|done| | |].
  - destruct (callStep_spec step st Hst) as (st' & Hrun & Htrace & _).
    change (visitNamedType type st) with (callStep step st).
    by rewrite Hrun.
  - pose proof (stepEvents_event_type step) as Htype.
    pose proof (stepEvents_event_method step) as Hmethod.
    rewrite Forall_forall in Htype, Hmethod. apply Forall_forall.
    intros event Hevent. split; [by apply Htype | by apply Hmethod].
  - intros member _.
    pose proof (stepEvents_event_type step) as Htype.
    rewrite Forall_forall in Htype. apply Forall_forall.
    intros event Hevent. by rewrite (Htype event Hevent).
Qed.

Lemma visitSchema_created created :
  visitSchema = Ok created →
  ∀ k, created !! k
       = (λ _, filter (λ v, visitor_name v = k)
                      (constructed (trace visitSchema_run.2)))
           <$> directiveVisitors !! k.
Proof.
  rewrite visitSchema_unfold.
  destruct visitSchema_run_outcome as (_ & _ & Hcons).
  destruct (outcome (schemaSteps schema)).2; [done|].
  intros [= <-]. by apply Hcons.
Qed.

(** C9. At a node, the visitors are made in the order of the occurrences
    and then called in that same order; and the list the returned index
    holds under a name is the visitors of that name in the order they
    were made during the walk. *)
Theorem dispatch_in_source_order :
  (∀ type m details ds st st',
     consistent st →
     directiveNodes_of type = Some ds →
     callVisitorMethods m type details st = (Ok tt, st') →
     ∃ made,
       mapM (instantiate type m) ds = Ok made
       ∧ trace st'
         = trace st
           ++ Resolved m type
              :: (Constructed <$> omap id made)
              ++ ((λ d, Called m d type details) <$> omap id made))
  ∧ (∀ created k cls,
       visitSchema = Ok created →
       directiveVisitors !! k = Some cls →
       created !! k
       = Some (filter (λ v, visitor_name v = k)
                      (constructed (trace visitSchema_run.2)))).
Proof.
  split.
  - intros type m details ds st st' Hst Hds Hrun.
    destruct (callStep_spec (mkStep m type details) st Hst)
      as (st1 & Hrun1 & Htrace & _).
    unfold callStep in Hrun1. cbn [step_method step_type step_details] in Hrun1.
    rewrite Hrun in Hrun1. unfold stepFailure, stepEvents, resolve in *.
    cbn [step_method step_type step_details] in *. rewrite Hds in *.
    destruct (collect type m ds) as [vs failure] eqn:Hc. cbn [snd] in Hrun1.
    destruct failure as [e|]; [done|]. injection Hrun1 as <-.
    apply collect_mapM in Hc as (made & Hmade & ->).
    by exists made.
  - intros created k cls Hok Hk.
    by rewrite (visitSchema_created created Hok k), Hk.
Qed.

(** C4, as the code has it. When the resolver meets a literal of no
    recognized kind, the exception [visitSchema] ends with is the
    decoder's own: its message is the fixed prefix followed by the kind of
    the literal, which is always the same text, and says nothing of the
    occurrence or the node. *)
Theorem decode_error_names_kind_only pre step post d a :
  schemaSteps schema = pre ++ step :: post →
  Forall (λ step', stepFailure step' = None) pre →
  offending step d a →
  ∃ e, visitSchema = Err e
       ∧ e = UnexpectedValueKind (kind (arg_value a))
       ∧ error_message e = "Unexpected value kind: Variable".
Proof.
  intros Hsteps Hpre Hoff.
  apply offending_stepFailure in Hoff as Hfail.
  pose proof (outcome_abort pre step post _ Hpre Hfail) as Hout.
  rewrite <- Hsteps in Hout.
  eexists. rewrite visitSchema_unfold, Hout. cbn [snd].
  split_and!; [done..|].
  destruct Hoff as (_ & _ & _ & _ & _ & _ & _ & _ & _ & _ & _ & _ & _ & _ & Hrec).
  by destruct (arg_value a).
Qed.

(** *** Nodes without directive nodes *)

Lemma getVisitors_no_directiveNodes type m st :
  directiveNodes_of type = None →
  getVisitors type m st = (Ok [], logged st [Resolved m type]).
Proof. intros Hnone. unfold getVisitors. by rewrite Hnone. Qed.

Lemma outcome_no_directiveNodes steps :
  Forall (λ step, directiveNodes_of (step_type step) = None) steps →
  outcome steps
  = ((λ step, Resolved (step_method step) (step_type step)) <$> steps, None).
Proof.
  induction 1 as [|step steps Hstep _ IH]; [done|].
  cbn [outcome]. unfold stepFailure, stepEvents, resolve.
  rewrite Hstep, IH. done.
Qed.

Lemma visitSchema_no_directiveNodes :
  Forall (λ node, directiveNodes_of node = None) (nodes_of_schema schema) →
  visitSchema = Ok ((λ _, []) <$> directiveVisitors)
  ∧ constructed (trace visitSchema_run.2) = [].
Proof.
  intros Hnodes.
  assert (Hsteps : Forall (λ step, directiveNodes_of (step_type step) = None)
                          (schemaSteps schema)).
  { rewrite Forall_forall in Hnodes. apply Forall_forall.
    intros step Hstep. by apply Hnodes, schemaSteps_nodes. }
  apply outcome_no_directiveNodes in Hsteps.
  destruct visitSchema_run_outcome as (_ & Htrace & Hcons).
  rewrite visitSchema_unfold, Hsteps in *. cbn [fst snd] in *.
  assert (Hmade : constructed (trace visitSchema_run.2) = []).
  { rewrite Htrace. clear.
    induction (schemaSteps schema) as [|step steps IH]; [done | by cbn]. }
  split; [|done]. f_equal. apply map_eq. intros k.
  rewrite (Hcons eq_refl k), Hmade, lookup_fmap. done.
Qed.

End visitSchema.
End Directives.

(** * src/unnamed/part_000

    The earlier variant of the same file: the resolver [getDirectives]
    takes no method name and does not ask whether the class overrides
    anything, [visitSchema] returns nothing, and [getLocations] tests the
    prototype property itself. *)

Module Part000.

(** [typeof method === 'function'] *)
Definition is_function (method : option FunctionRef) : bool :=
  match method with
  | Some _ => true
  | None => false
  end.

Definition getLocations (this : VisitorClass)
    (statics : gmap nat (list DirectiveLocationEnum))
  : list DirectiveLocationEnum * gmap nat (list DirectiveLocationEnum) :=
  match locations_get statics this with
  | None =>
      let locations :=
        foldl (λ locations key,
                 if hasOwn methodToLocationMap key then
                   let method := prototype_get this key in
                   if is_function method && negb (stubSet_has method)
                   then locations ++ option_list (obj_get key methodToLocationMap)
                   else locations
                 else locations)
              [] (for_in_prototype this) in
      (locations, <[class_id this := locations]> statics)
  | Some locations => (locations, statics)
  end.

(** [Collected] marks an entry into [getDirectives]. *)
Inductive Event : Type :=
  | Collected (type : VisitableType)
  | Constructed (visitor : Visitor)
  | Called (methodName : string) (visitor : Visitor) (type : VisitableType)
      (details : Details).

Definition log (event : Event) : Eff (list Event) unit :=
  modify (λ events, events ++ [event]).

Definition constructed (events : list Event) : list Visitor :=
  omap (λ event, match event with Constructed v => Some v | _ => None end)
       events.

Section visitSchema.
Variable parseInt : string → Z → float.
Variable parseFloat : string → float.
Variable getArgumentValues : GraphQLDirective → DirectiveNode → Result JSObject.
Variable schema : GraphQLSchema.
Variable directiveVisitors : gmap string VisitorClass.

Definition declaredDirectives : gmap string GraphQLDirective :=
  foldl (λ declared decl, <[decl_name decl := decl]> declared) ∅
        (getDirectives schema).

Definition untypedArgs (directiveNode : DirectiveNode) : Result JSObject :=
  foldM (λ args arg,
           value ← valueFromASTUntyped parseInt parseFloat (arg_value arg);
           Ok (obj_set (arg_name arg) value args))
        [] (arguments directiveNode).

(** The callback of [directiveNodes.forEach] in [getDirectives]. *)
Definition getDirectives_node (type : VisitableType)
    (directiveInstances : list Visitor) (directiveNode : DirectiveNode)
  : Eff (list Event) (list Visitor) :=
  let name := directive_name directiveNode in
  match directiveVisitors !! name with
  | None => mret directiveInstances
  | Some directiveClass =>
      args ← lift
        match declaredDirectives !! name with
        | Some decl => getArgumentValues decl directiveNode
        | None => untypedArgs directiveNode
        end;
      let instance := mkVisitor directiveClass name args type schema in
      log (Constructed instance);;
      mret (directiveInstances ++ [instance])
  end.

Definition getDirectives (type : VisitableType)
  : Eff (list Event) (list Visitor) :=
  log (Collected type);;
  match directiveNodes_of type with
  | None => mret []
  | Some directiveNodes => foldE (getDirectives_node type) [] directiveNodes
  end.

(** [getDirectives(type).forEach(d => d[methodName](type, details))], the
    shape of every dispatch of this variant. *)
Definition forEachDirective (methodName : string) (type : VisitableType)
    (details : Details) : Eff (list Event) unit :=
  instances ← getDirectives type;
  forEach instances (λ d, log (Called methodName d type details)).

Definition visitFields (type : GraphQLNamedType) : Eff (list Event) unit :=
  each (getFields type) (λ field _,
    forEachDirective "visitFieldDefinition" (OfField field) (FieldDetails type);;
    match field_args field with
    | Some args =>
        forEach args (λ arg,
          forEachDirective "visitArgumentDefinition" (OfArgument arg)
            (ArgumentDetails field type))
    | None => mret tt
    end).

Definition visitNamedType (type : GraphQLNamedType) : Eff (list Event) unit :=
  match type with
  | ObjectType _ =>
      forEachDirective "visitObject" (OfNamedType type) NoDetails;;
      visitFields type
  | InterfaceType _ =>
      forEachDirective "visitInterface" (OfNamedType type) NoDetails;;
      visitFields type
  | InputObjectType t =>
      forEachDirective "visitInputObject" (OfNamedType type) NoDetails;;
      each (inputObject_fields t) (λ field _,
        forEachDirective "visitInputFieldDefinition" (OfInputField field)
          (FieldDetails type))
  | ScalarType _ =>
      forEachDirective "visitScalar" (OfNamedType type) NoDetails
  | UnionType _ =>
      forEachDirective "visitUnion" (OfNamedType type) NoDetails
  | EnumType t =>
      forEachDirective "visitEnum" (OfNamedType type) NoDetails;;
      forEach (enum_values t) (λ value,
        forEachDirective "visitEnumValue" (OfEnumValue value)
          (EnumValueDetails t))
  end.

Definition visit (type : VisitableType) : Eff (list Event) unit :=
  match type with
  | OfSchema s =>
      forEachDirective "visitSchema" type NoDetails;;
      each (getTypeMap s) (λ namedType typeName,
        if negb (String.prefix "__" typeName)
        then visitNamedType namedType
        else mret tt)
  | OfNamedType namedType => visitNamedType namedType
  | _ => mret tt
  end.

(** [visitSchema] returns nothing; the events are kept to speak of what it
    did. *)
Definition visitSchema : Result unit * list Event :=
  visit (OfSchema schema) [].

Definition runStep (step : Step) : Eff (list Event) unit :=
  forEachDirective (step_method step) (step_type step) (step_details step).

Lemma visitFields_runSteps type st :
  visitFields type st
  = forEach (flat_map (λ kv, fieldSteps type kv.2) (entries (getFields type)))
            runStep st.
Proof.
  unfold visitFields. rewrite each_entries, forEach_flat_map.
  apply forEach_ext. intros [k field] s' _. cbn [fst snd].
  unfold fieldSteps. cbn [forEach]. unfold mbind, Eff_bind.
  unfold runStep at 1. cbn [step_method step_type step_details].
  destruct (forEachDirective "visitFieldDefinition" (OfField field)
              (FieldDetails type) s') as [[[]|e] s'']; [|done].
  destruct (field_args field) as [args|]; [|done].
  by rewrite forEach_fmap.
Qed.

Lemma visitNamedType_runSteps type st :
  visitNamedType type st = forEach (namedTypeSteps type) runStep st.
Proof.
  destruct type as [t|t|t|t|t|t]; cbn [visitNamedType namedTypeSteps forEach];
    unfold mbind, Eff_bind; unfold runStep at 1;
    cbn [step_method step_type step_details].
  - destruct (forEachDirective _ _ _ st) as [[[]|e] s']; [|done].
    apply visitFields_runSteps.
  - destruct (forEachDirective _ _ _ st) as [[[]|e] s']; [|done].
    apply visitFields_runSteps.
  - destruct (forEachDirective _ _ _ st) as [[[]|e] s']; [|done].
    by rewrite each_entries, forEach_fmap.
  - by destruct (forEachDirective _ _ _ st) as [[[]|e] s'].
  - by destruct (forEachDirective _ _ _ st) as [[[]|e] s'].
  - destruct (forEachDirective _ _ _ st) as [[[]|e] s']; [|done].
    by rewrite forEach_fmap.
Qed.

Lemma visit_runSteps s st :
  visit (OfSchema s) st = forEach (schemaSteps s) runStep st.
Proof.
  unfold visit, schemaSteps, visitedTypes. cbn [forEach].
  unfold mbind, Eff_bind. unfold runStep at 1.
  cbn [step_method step_type step_details].
  destruct (forEachDirective _ _ _ st) as [[[]|e] s']; [|done].
  rewrite each_entries, forEach_flat_map, forEach_fmap.
  rewrite (forEach_filter (λ kv, negb (String.prefix "__" kv.1))).
  apply forEach_ext. intros [k t] s'' _. cbn [fst snd].
  destruct (negb (String.prefix "__" k)); [|done].
  apply visitNamedType_runSteps.
Qed.

Lemma getDirectives_no_directiveNodes type events :
  directiveNodes_of type = None →
  getDirectives type events = (Ok [], events ++ [Collected type]).
Proof. intros Hnone. unfold getDirectives. by rewrite Hnone. Qed.

Lemma visitSchema_without_directiveNodes :
  Forall (λ node, directiveNodes_of node = None) (nodes_of_schema schema) →
  visitSchema
  = (Ok tt, (λ step, Collected (step_type step)) <$> schemaSteps schema).
Proof.
  intros Hnodes. unfold visitSchema. rewrite visit_runSteps.
  assert (H : ∀ (steps : list Step) events,
    foldl (λ s' x, s' ++ [Collected (step_type x)]) events steps
    = events ++ ((λ step, Collected (step_type step)) <$> steps)).
  { induction steps as [|step steps IH]; intros events; cbn.
    - by rewrite app_nil_r.
    - by rewrite IH, <- app_assoc. }
  rewrite (forEach_Ok _ _ (λ step events, events ++ [Collected (step_type step)])).
  - cbv beta. by rewrite H.
  - intros step events Hstep. unfold runStep, forEachDirective.
    unfold mbind, Eff_bind. rewrite getDirectives_no_directiveNodes; [done|].
    rewrite Forall_forall in Hnodes. by apply Hnodes, schemaSteps_nodes.
Qed.

End visitSchema.
End Part000.

(** * The locations of a class *)

Section Locations.
Implicit Types (this : VisitorClass) (statics : gmap nat (list DirectiveLocationEnum)).

(** The array the loop of [getLocations] builds. *)
Definition computeLocations this : list DirectiveLocationEnum :=
  foldl (λ locations key,
           if Directives.shouldCall this key
           then locations ++ option_list (obj_get key methodToLocationMap)
           else locations)
        [] (for_in_prototype this).

Lemma getLocations_unfold this statics :
  Directives.getLocations this statics
  = match locations_get statics this with
    | None => (computeLocations this,
               <[class_id this := computeLocations this]> statics)
    | Some locations => (locations, statics)
    end.
Proof. done. Qed.

(** Both variants of [getLocations] compute the same. *)
Lemma getLocations_variants this statics :
  Part000.getLocations this statics = Directives.getLocations this statics.
Proof.
  unfold Part000.getLocations, Directives.getLocations.
  destruct (locations_get statics this); [done|].
  assert (H : ∀ keys acc,
    foldl (λ locations key,
             if hasOwn methodToLocationMap key then
               let method := prototype_get this key in
               if Part000.is_function method && negb (stubSet_has method)
               then locations ++ option_list (obj_get key methodToLocationMap)
               else locations
             else locations) acc keys
    = foldl (λ locations key,
               if Directives.shouldCall this key
               then locations ++ option_list (obj_get key methodToLocationMap)
               else locations) acc keys).
  { induction keys as [|key keys IH]; intros acc; [done|].
    cbn [foldl]. rewrite <- IH. f_equal. unfold Directives.shouldCall.
    destruct (hasOwn methodToLocationMap key) eqn:Hown; [|done].
    rewrite Directives.hasOwn_methodToLocationMap in Hown.
    apply bool_decide_eq_true_1 in Hown.
    by destruct (Directives.prototype_get_visitorMethod this key Hown)
      as [->|[c ->]]. }
  by rewrite H.
Qed.

Lemma elem_of_computeLocations this loc :
  loc ∈ computeLocations this ↔
  ∃ key, key ∈ for_in_prototype this
         ∧ Directives.shouldCall this key = true
         ∧ obj_get key methodToLocationMap = Some loc.
Proof.
  unfold computeLocations.
  assert (H : ∀ keys acc,
    loc ∈ foldl (λ locations key,
                   if Directives.shouldCall this key
                   then locations ++ option_list (obj_get key methodToLocationMap)
                   else locations) acc keys
    ↔ loc ∈ acc
      ∨ ∃ key, key ∈ keys ∧ Directives.shouldCall this key = true
               ∧ obj_get key methodToLocationMap = Some loc).
  { induction keys as [|key keys IH]; intros acc; cbn [foldl].
    - split; [by left|]. intros [?|(? & ?%elem_of_nil & _)]; done.
    - rewrite IH. destruct (Directives.shouldCall this key) eqn:Hcall.
      + rewrite elem_of_app. split.
        * intros [[?|Hin]|(key' & ? & ? & ?)].
          -- by left.
          -- right. exists key. split; [by left|]. split; [done|].
             destruct (obj_get key methodToLocationMap); cbn in Hin;
               [by apply list_elem_of_singleton in Hin as -> | by apply elem_of_nil in Hin].
          -- right. exists key'. split; [by right | done].
        * intros [?|(key' & [->|?]%elem_of_cons & ? & Hloc)].
          -- by left; left.
          -- left; right. rewrite Hloc. by left.
          -- right. by exists key'.
      + split.
        * intros [?|(key' & ? & ? & ?)]; [by left|].
          right. exists key'. split; [by right | done].
        * intros [?|(key' & [->|?]%elem_of_cons & ? & ?)]; [by left|congruence|].
          right. by exists key'. }
  rewrite H, elem_of_nil. split; [by intros [[]|?] | by right].
Qed.

Lemma for_in_prototype_Method this m c :
  prototype_get this m = Some (Method c m) → m ∈ for_in_prototype this.
Proof.
  induction this as [|n parent IH methods]; cbn.
  - destruct (decide (m = "constructor")); [done|].
    by destruct (decide (m ∈ visitorMethods)).
  - destruct (decide (m = "constructor")) as [->|Hne]; [done|].
    destruct (decide (m ∈ methods)) as [Hin|Hnin].
    + intros _. apply elem_of_app. left.
      apply (encounter_order_elem_of [] ("constructor" :: methods)).
      right. by right.
    + intros Hparent. apply elem_of_app. right.
      apply list_elem_of_filter. split; [|by apply IH].
      intros Hown.
      apply (encounter_order_elem_of [] ("constructor" :: methods)) in Hown
        as [?%elem_of_nil|[?|?]%elem_of_cons]; done.
Qed.

(** A class for which no class object on its chain holds an array yet gets
    the locations of the methods it overrides, and holds them from then
    on. *)
Lemma getLocations_first_call this statics :
  locations_get statics this = None →
  ∃ locations,
    Directives.getLocations this statics
    = (locations, <[class_id this := locations]> statics)
    ∧ ∀ loc, loc ∈ locations ↔
             ∃ m, obj_get m methodToLocationMap = Some loc
                  ∧ overrides this m = true.
Proof.
  intros Hnull. exists (computeLocations this).
  rewrite getLocations_unfold, Hnull. split; [done|].
  intros loc. rewrite elem_of_computeLocations. split.
  - intros (key & _ & Hcall & Hloc). exists key.
    by rewrite <- Directives.shouldCall_overrides.
  - intros (m & Hloc & Hover). exists m.
    rewrite Directives.shouldCall_overrides. split; [|done].
    unfold overrides in Hover. apply andb_prop in Hover as [_ Hover].
    destruct (prototype_get this m) as [[| |c m']|] eqn:Hget; try done.
    assert (m' = m) as ->.
    { clear -Hget. induction this as [|n parent IH methods]; cbn in Hget.
      - destruct (decide (m = "constructor")); [done|].
        by destruct (decide (m ∈ visitorMethods)).
      - destruct (decide (m = "constructor")); [done|].
        destruct (decide (m ∈ methods)); [by injection Hget | by apply IH]. }
    by eapply for_in_prototype_Method.
Qed.

(** A second call returns what the first returned and changes nothing. *)
Lemma getLocations_memoized this statics locations statics' :
  Directives.getLocations this statics = (locations, statics') →
  Directives.getLocations this statics' = (locations, statics').
Proof.
  rewrite !getLocations_unfold.
  destruct (locations_get statics this) as [l|] eqn:Hget.
  - intros [= <- <-]. by rewrite Hget.
  - intros [= <- <-].
    assert (Hnow : locations_get
                     (<[class_id this := computeLocations this]> statics) this
                   = Some (computeLocations this)).
    { destruct this as [|n parent methods]; cbn; by rewrite lookup_insert_eq. }
    by rewrite Hnow.
Qed.

(** A class whose ancestor already holds an array is handed that array,
    whatever it overrides itself. *)
Lemma getLocations_inherited n parent methods statics locations :
  statics !! S n = None →
  locations_get statics parent = Some locations →
  Directives.getLocations (Extends n parent methods) statics
  = (locations, statics).
Proof.
  intros Hown Hparent. rewrite getLocations_unfold. cbn.
  by rewrite Hown, Hparent.
Qed.
End Locations.

(** * Both variants on nodes without directives, and where they differ *)

(** C10. A node whose AST node is absent, or whose AST node has no list of
    directives, gives the resolver of either variant an empty array and
    no exception; so on a schema none of whose nodes has such a list, and
    in particular on a schema built without AST nodes, the walk of either
    variant returns and makes no visitor: the index of [directives.ts]
    holds the empty array under every key of [directiveVisitors]. *)
Theorem no_directiveNodes_no_visitors
    (parseInt : string → Z → float) (parseFloat : string → float)
    (getArgumentValues : GraphQLDirective → DirectiveNode → Result JSObject)
    (schema : GraphQLSchema) (directiveVisitors : gmap string VisitorClass) :
  (∀ type methodName st,
     directiveNodes_of type = None →
     Directives.getVisitors parseInt parseFloat getArgumentValues schema
       directiveVisitors type methodName st
     = (Ok [], Directives.logged st [Directives.Resolved methodName type]))
  ∧ (∀ type events,
       directiveNodes_of type = None →
       Part000.getDirectives parseInt parseFloat getArgumentValues schema
         directiveVisitors type events
       = (Ok [], events ++ [Part000.Collected type]))
  ∧ (Forall (λ node, directiveNodes_of node = None) (nodes_of_schema schema) →
       Directives.visitSchema parseInt parseFloat getArgumentValues schema
         directiveVisitors
       = Ok ((λ _, []) <$> directiveVisitors)
       ∧ Directives.constructed
           (Directives.trace
              (Directives.visitSchema_run parseInt parseFloat getArgumentValues
                 schema directiveVisitors).2) = []
       ∧ (Part000.visitSchema parseInt parseFloat getArgumentValues schema
            directiveVisitors).1 = Ok tt
       ∧ Part000.constructed
           (Part000.visitSchema parseInt parseFloat getArgumentValues schema
              directiveVisitors).2 = [])
  ∧ (programmatic schema →
       Forall (λ node, directiveNodes_of node = None) (nodes_of_schema schema)).
Proof.
  split_and!.
  - intros. by apply Directives.getVisitors_no_directiveNodes.
  - intros. by apply Part000.getDirectives_no_directiveNodes.
  - intros Hnodes.
    destruct (Directives.visitSchema_no_directiveNodes parseInt parseFloat
                getArgumentValues schema directiveVisitors Hnodes) as [-> ->].
    rewrite (Part000.visitSchema_without_directiveNodes parseInt parseFloat
               getArgumentValues schema directiveVisitors Hnodes).
    split_and!; [done..|]. cbn [snd].
    induction (schemaSteps schema) as [|step steps IH]; [done | by cbn].
  - apply programmatic_directiveNodes.
Qed.

(** * graphql/execution/values

    [directives.ts] imports [getArgumentValues] from graphql-js; its text
    is not part of the repository.  The definition below follows that
    function as graphql 0.13 has it, called the way [getVisitors] calls
    it: without variable values.  What belongs to the declared types
    stays a parameter: whether the type of a declared argument is
    non-null, and [valueFromAST] at that type, whose [None] is
    [undefined], the invalid value.  The messages leave out the printed
    type and the printed literal. *)

Module Values.

(** [isInvalid(value)]: [undefined] or NaN. *)
Definition isInvalid (value : option JSValue) : bool :=
  match value with
  | None => true
  | Some (JNumber n) => PrimFloat.is_nan n
  | Some _ => false
  end.

Definition quoted (text : string) : string :=
  String (Ascii.ascii_of_nat 34) (text +:+ String (Ascii.ascii_of_nat 34) "").

Section getArgumentValues.
Variable isNonNullType : GraphQLDirective → string → bool.
Variable valueFromAST : GraphQLDirective → string → ValueNode → option JSValue.

(** [keyMap(argNodes, arg => arg.name.value)[name]]: the last argument
    node of that name. *)
Definition argNodeMap (node : DirectiveNode) (name : string)
  : option ArgumentNode :=
  find (λ arg, bool_decide (arg_name arg = name)) (reverse (arguments node)).

(** The body of the loop over [def.args]: what it assigns to
    [coercedValues[name]], if anything.  [Ok None] is a turn that assigns
    nothing.  A variable reference has no runtime value here, since no
    variable values are passed. *)
Definition coerceArgument (def : GraphQLDirective) (node : DirectiveNode)
    (argDef : string * option JSValue) : Result (option JSValue) :=
  let name := argDef.1 in
  let defaultValue := argDef.2 in
  let unprovided (message : string) :=
    if negb (isInvalid defaultValue) then Ok defaultValue
    else if isNonNullType def name then Err (CoercionError message)
    else Ok None in
  match argNodeMap node name with
  | None =>
      unprovided ("Argument " +:+ quoted name
                  +:+ " of required type was not provided.")
  | Some argumentNode =>
      match arg_value argumentNode with
      | VariableNode variableName =>
          unprovided ("Argument " +:+ quoted name
                      +:+ " of required type was provided the variable "
                      +:+ quoted ("$" +:+ variableName)
                      +:+ " which was not provided a runtime value.")
      | valueNode =>
          let coercedValue := valueFromAST def name valueNode in
          if isInvalid coercedValue
          then Err (CoercionError
                      ("Argument " +:+ quoted name +:+ " has invalid value."))
          else Ok coercedValue
      end
  end.

Definition getArgumentValues (def : GraphQLDirective) (node : DirectiveNode)
  : Result JSObject :=
  foldM (λ coercedValues argDef,
           value ← coerceArgument def node argDef;
           Ok match value with
              | Some value => obj_set argDef.1 value coercedValues
              | None => coercedValues
              end)
        [] (decl_args def).

(** The occurrence supplies [name] with a literal that is not a variable
    reference. *)
Definition supplied (node : DirectiveNode) (name : string) : Prop :=
  ∃ arg, argNodeMap node name = Some arg ∧ recognized (arg_value arg) = true.

Lemma isInvalid_false value :
  isInvalid value = false → ∃ v, value = Some v.
Proof. destruct value; [by eexists | done]. Qed.

Lemma coerceArgument_Ok def node name defaultValue value :
  coerceArgument def node (name, defaultValue) = Ok value →
  (is_Some value ↔ supplied node name ∨ isInvalid defaultValue = false)
  ∧ (¬ supplied node name → value = None ∨ (value = defaultValue
                                             ∧ isInvalid defaultValue = false))
  ∧ (∀ arg, argNodeMap node name = Some arg →
            recognized (arg_value arg) = true →
            value = valueFromAST def name (arg_value arg)).
Proof.
  unfold coerceArgument, supplied. cbn [fst snd].
  assert (Hun : ∀ message,
    (if negb (isInvalid defaultValue) then Ok defaultValue
     else if isNonNullType def name then Err (CoercionError message)
     else Ok None) = Ok value →
    (is_Some value ↔ isInvalid defaultValue = false)
    ∧ (value = None ∨ (value = defaultValue ∧ isInvalid defaultValue = false))).
  { intros message. destruct (isInvalid defaultValue) eqn:Hd; cbn [negb].
    - destruct (isNonNullType def name); [done|]. intros [= <-].
      split; [|by left]. split; [by intros [? ?] | done].
    - intros [= <-]. split; [|by right].
      split; [done|]. intros _. by apply isInvalid_false in Hd as [v ->]. }
  destruct (argNodeMap node name) as [arg|] eqn:Harg.
  - destruct (arg_value arg) eqn:Hvalue;
      try (destruct (isInvalid (valueFromAST def name _)) eqn:Hc; [done|];
           intros [= <-]; apply isInvalid_false in Hc as [v Hv];
           split_and!;
           [ split; [intros _; left; exists arg; by rewrite Hvalue
                    | intros _; rewrite Hv; by eexists]
           | intros []; exists arg; by rewrite Hvalue
           | intros arg' [= <-] _; by rewrite Hvalue ]).
    intros H. apply Hun in H as [Hsome Hvalue']. split_and!.
    + rewrite Hsome. split; [by right|]. intros [(arg' & [= <-] & Hrec)|?]; [|done].
      by rewrite Hvalue in Hrec.
    + done.
    + intros arg' [= <-] Hrec. by rewrite Hvalue in Hrec.
  - intros H. apply Hun in H as [Hsome Hvalue']. split_and!.
    + rewrite Hsome. split; [by right|]. by intros [(arg' & ? & _)|?].
    + done.
    + done.
Qed.

(** What [getArgumentValues] returns: the declared names the occurrence
    supplies with a literal or that have a default, and no other; under a
    name that is not supplied, a declared default of that name; under a
    supplied name, what [valueFromAST] makes of the literal. *)
Lemma getArgumentValues_Ok def node args :
  getArgumentValues def node = Ok args →
  (∀ k, k ∈ obj_keys args ↔
        ∃ defaultValue,
          (k, defaultValue) ∈ decl_args def
          ∧ (supplied node k ∨ isInvalid defaultValue = false))
  ∧ (∀ k value,
       ¬ supplied node k → obj_get k args = Some value →
       (k, Some value) ∈ decl_args def)
  ∧ (∀ k arg,
       k ∈ (decl_args def).*1 →
       argNodeMap node k = Some arg → recognized (arg_value arg) = true →
       obj_get k args = valueFromAST def k (arg_value arg)).
Proof.
  unfold getArgumentValues.
  assert (H : ∀ argDefs acc,
    foldM (λ coercedValues argDef,
             value ← coerceArgument def node argDef;
             Ok match value with
                | Some value => obj_set argDef.1 value coercedValues
                | None => coercedValues
                end) acc argDefs = Ok args →
    (∀ k, k ∈ obj_keys args ↔
          k ∈ obj_keys acc
          ∨ ∃ defaultValue,
              (k, defaultValue) ∈ argDefs
              ∧ (supplied node k ∨ isInvalid defaultValue = false))
    ∧ (∀ k value,
         ¬ supplied node k → obj_get k args = Some value →
         obj_get k acc = Some value ∨ (k, Some value) ∈ argDefs)
    ∧ (∀ k arg,
         argNodeMap node k = Some arg → recognized (arg_value arg) = true →
         (k ∈ argDefs.*1 ∨ obj_get k acc = valueFromAST def k (arg_value arg)) →
         obj_get k args = valueFromAST def k (arg_value arg))).
  { induction argDefs as [|[name defaultValue] argDefs IH]; intros acc.
    - intros [= <-]. split_and!.
      + intros k. split; [by left|]. intros [?|(? & ?%elem_of_nil & _)]; done.
      + intros k value _ ?. by left.
      + intros k arg _ _ [?%elem_of_nil|?]; done.
    - cbn [foldM].
      destruct (coerceArgument def node (name, defaultValue)) as [value|e] eqn:Hc;
        cbn; [|done].
      apply coerceArgument_Ok in Hc as (Hsome & Hdefault & Hsupplied).
      intros Hrest. apply IH in Hrest as (Hkeys & Hvalues & Hliterals).
      split_and!.
      + intros k. rewrite Hkeys. clear Hkeys Hvalues Hliterals IH. split.
        * intros [Hin|(d & Hd & Hor)].
          -- destruct value as [v|]; [|by left].
             rewrite obj_keys_set in Hin.
             destruct (decide (name ∈ obj_keys acc)); [by left|].
             apply elem_of_app in Hin as [?|Hin]; [by left|].
             apply list_elem_of_singleton in Hin as ->.
             right. exists defaultValue. split; [by left|].
             apply Hsome. by eexists.
          -- right. exists d. split; [by right | done].
        * intros [Hin|(d & Hd & Hor)].
          -- left. destruct value as [v|]; [|done].
             rewrite obj_keys_set. destruct (decide (name ∈ obj_keys acc)); [done|].
             apply elem_of_app. by left.
          -- apply elem_of_cons in Hd as [Heq|Hd]; [|right; by exists d].
             injection Heq as -> ->.
             left. apply Hsome in Hor as [v ->].
             rewrite obj_keys_set. destruct (decide (name ∈ obj_keys acc)); [done|].
             apply elem_of_app. right. by apply list_elem_of_singleton.
      + intros k v Hns Hget. destruct (Hvalues k v Hns Hget) as [Hacc|Hin];
          [|right; by right].
        destruct value as [v'|]; [|by left].
        destruct (decide (name = k)) as [->|Hne].
        * rewrite obj_get_set_eq in Hacc. injection Hacc as ->.
          destruct (Hdefault Hns) as [?|[<- _]]; [done|]. right. by left.
        * rewrite obj_get_set_ne in Hacc by done. by left.
      + intros k arg Harg Hrec Hor. apply (Hliterals k arg Harg Hrec).
        destruct (decide (name = k)) as [->|Hne].
        * right. rewrite (Hsupplied arg Harg Hrec) in *.
          assert (Hs : is_Some (valueFromAST def k (arg_value arg))).
          { apply Hsome. left. by exists arg. }
          destruct Hs as [v Hv]. rewrite Hv. by rewrite obj_get_set_eq.
        * destruct Hor as [[Heq|Hin]%elem_of_cons|Hacc].
          -- cbn in Heq. congruence.
          -- by left.
          -- right. destruct value; [by rewrite obj_get_set_ne|done]. }
  intros Hrun. apply H in Hrun as (Hkeys & Hvalues & Hliterals). split_and!.
  - intros k. rewrite Hkeys. cbn. rewrite elem_of_nil. tauto.
  - intros k value Hns Hget. by destruct (Hvalues k value Hns Hget).
  - intros k arg Hk. intros Harg Hrec. apply (Hliterals k arg Harg Hrec). by left.
Qed.

End getArgumentValues.
End Values.

(** ** The arguments of a visitor, with graphql-js as the coercer *)

Section CoercedArguments.
Variable parseInt : string → Z → float.
Variable parseFloat : string → float.
Variable isNonNullType : GraphQLDirective → string → bool.
Variable valueFromAST : GraphQLDirective → string → ValueNode → option JSValue.
Variable schema : GraphQLSchema.
Variable directiveVisitors : gmap string VisitorClass.

Local Abbreviation getArgumentValues :=
  (Values.getArgumentValues isNonNullType valueFromAST).
Local Abbreviation visitSchema_run :=
  (Directives.visitSchema_run parseInt parseFloat getArgumentValues schema
     directiveVisitors).

(** C6, as the code has it.  Every visitor made during a walk was made
    for an occurrence of its node.  When a directive of its name is
    declared, its [args] is what [getArgumentValues] returned for the
    declaration and the occurrence, untouched: its keys are the declared
    names that the occurrence supplies with a literal or that have a
    declared default, so a declared name with neither is left out; a
    name the occurrence does not supply holds a declared default, a
    supplied one what the declared type makes of the literal.  When none
    is declared, its [args] is the object the assignments of the decoded
    literals build: its keys are the names the occurrence supplies, and
    no other. *)
Theorem visitor_args_as_coerced v :
  v ∈ Directives.constructed (Directives.trace visitSchema_run.2) →
  ∃ ds d,
    directiveNodes_of (visitor_visitedType v) = Some ds
    ∧ d ∈ ds
    ∧ directive_name d = visitor_name v
    ∧ match Directives.declaredDirectives schema !! visitor_name v with
      | Some decl =>
          getArgumentValues decl d = Ok (visitor_args v)
          ∧ (∀ k, k ∈ obj_keys (visitor_args v) ↔
                  ∃ defaultValue,
                    (k, defaultValue) ∈ decl_args decl
                    ∧ (Values.supplied d k
                       ∨ Values.isInvalid defaultValue = false))
          ∧ (∀ k value,
               ¬ Values.supplied d k →
               obj_get k (visitor_args v) = Some value →
               (k, Some value) ∈ decl_args decl)
          ∧ (∀ k arg,
               k ∈ (decl_args decl).*1 →
               Values.argNodeMap d k = Some arg →
               recognized (arg_value arg) = true →
               obj_get k (visitor_args v)
               = valueFromAST decl k (arg_value arg))
      | None =>
          (∃ ws,
             Forall2 (λ a w, valueFromASTUntyped parseInt parseFloat
                               (arg_value a) = Ok w)
                     (arguments d) ws
             ∧ visitor_args v
               = obj_assign [] (zip (arg_name <$> arguments d) ws))
          ∧ obj_keys (visitor_args v)
            = encounter_order [] (arg_name <$> arguments d)
          ∧ ∀ k, k ∈ obj_keys (visitor_args v)
                 ↔ k ∈ arg_name <$> arguments d
      end.
Proof.
  intros Hv.
  destruct (Directives.visitSchema_run_outcome parseInt parseFloat
              getArgumentValues schema directiveVisitors) as (_ & Htrace & _).
  rewrite Htrace in Hv.
  apply Directives.constructed_outcome in Hv as (step & _ & Hv).
  unfold Directives.resolve in Hv.
  destruct (directiveNodes_of (step_type step)) as [ds|] eqn:Hds;
    [|by apply elem_of_nil in Hv].
  apply Directives.collect_elem_of in Hv as (d & Hd & Hinst).
  apply Directives.instantiate_Some in Hinst
    as (cls & _ & _ & _ & Hname & Htype & _ & Hargs).
  exists ds, d. rewrite Htype, Hname. split_and!; [done..|].
  destruct (Directives.declaredDirectives schema !! directive_name d) as [decl|].
  - split; [done|].
    by apply (Values.getArgumentValues_Ok isNonNullType valueFromAST).
  - apply Directives.untypedArgs_Ok in Hargs as (ws & Hws & Hassign).
    assert (Hkeys : obj_keys (visitor_args v)
                    = encounter_order [] (arg_name <$> arguments d)).
    { rewrite Hassign, obj_keys_assign. f_equal. apply fst_zip.
      rewrite length_fmap. apply Forall2_length in Hws. lia. }
    split_and!; [by exists ws | done |].
    intros k. rewrite Hkeys, encounter_order_elem_of, elem_of_nil. tauto.
Qed.

End CoercedArguments.

(** ** Instances for the examples

    The examples need some [parseInt], [parseFloat] and types for the
    declared arguments.  The two readers below follow the built-ins on
    text of bytes: leading white space, a sign, and the longest prefix
    that is a decimal number, rounded to the nearest binary64, ties to
    even; [exampleParseInt] is for radix 10, the radix the decoder
    passes, and is NaN for any other. *)

Definition digit (c : Ascii.ascii) : option Z :=
  let n := Z.of_nat (Ascii.nat_of_ascii c) in
  if bool_decide (48 ≤ n ≤ 57)%Z then Some (n - 48)%Z else None.

(** TAB, LF, VT, FF, CR and SP. *)
Definition whitespace (c : Ascii.ascii) : bool :=
  let n := Ascii.nat_of_ascii c in
  bool_decide (n = 32 ∨ 9 ≤ n ≤ 13).

Fixpoint trimStart (text : string) : string :=
  match text with
  | String c rest => if whitespace c then trimStart rest else text
  | EmptyString => EmptyString
  end.

(** A leading sign: whether it is a minus, and the text after it. *)
Definition signed (text : string) : bool * string :=
  match text with
  | String c rest =>
      if bool_decide (Ascii.nat_of_ascii c = 45) then (true, rest)
      else if bool_decide (Ascii.nat_of_ascii c = 43) then (false, rest)
      else (false, text)
  | EmptyString => (false, EmptyString)
  end.

(** The longest prefix of decimal digits, read on top of [acc]: the
    number, how many digits were read, and the text after them. *)
Fixpoint decimalDigits (acc : Z) (count : nat) (text : string)
  : Z * nat * string :=
  match text with
  | String c rest =>
      match digit c with
      | Some d => decimalDigits (10 * acc + d)%Z (S count) rest
      | None => (acc, count, text)
      end
  | EmptyString => (acc, count, EmptyString)
  end.

Definition float_of_Z (z : Z) : float :=
  SF2Prim (binary_normalize prec emax z 0 false).

(** [m × 10 ^ e10] for [m] not negative, rounded once: below the last bit
    kept there are more than two bits of the quotient, and one that says
    whether the division left a remainder. *)
Definition float_of_decimal (m e10 : Z) : float :=
  if bool_decide (0 ≤ e10)%Z then float_of_Z (m * 10 ^ e10)
  else
    let d := (10 ^ (- e10))%Z in
    let s := (Z.log2 d + 64)%Z in
    let q := (m * 2 ^ s / d)%Z in
    let sticky := if bool_decide ((m * 2 ^ s) mod d = 0)%Z then 0%Z else 1%Z in
    SF2Prim (binary_normalize prec emax (2 * q + sticky) (- (s + 1)) false).

Definition exampleParseInt (text : string) (radix : Z) : float :=
  let '(negative, rest) := signed (trimStart text) in
  let '(value, count, _) := decimalDigits 0 0 rest in
  if bool_decide (radix = 10%Z ∧ 0 < count)
  then if negative then (- float_of_Z value)%float else float_of_Z value
  else nan.

Definition exampleParseFloat (text : string) : float :=
  let '(negative, rest) := signed (trimStart text) in
  let magnitude :=
    if String.prefix "Infinity" rest then Some infinity
    else
      let '(whole, wholeCount, rest1) := decimalDigits 0 0 rest in
      let '(mantissa, fractionCount, rest2) :=
        match rest1 with
        | String c rest' =>
            if bool_decide (Ascii.nat_of_ascii c = 46)
            then decimalDigits whole 0 rest'
            else (whole, 0, rest1)
        | EmptyString => (whole, 0, rest1)
        end in
      let exponent :=
        match rest2 with
        | String c rest' =>
            if bool_decide (Ascii.nat_of_ascii c = 101
                            ∨ Ascii.nat_of_ascii c = 69)
            then
              let '(minus, rest'') := signed rest' in
              let '(e, count, _) := decimalDigits 0 0 rest'' in
              if bool_decide (count = 0) then 0%Z
              else if minus then (- e)%Z else e
            else 0%Z
        | EmptyString => 0%Z
        end in
      if bool_decide (wholeCount + fractionCount = 0) then None
      else Some (float_of_decimal mantissa (exponent - Z.of_nat fractionCount))
  in
  match magnitude with
  | Some x => if negative then (- x)%float else x
  | None => nan
  end.

Example exampleParseInt_reads :
  exampleParseInt "50" 10 = 50%float
  ∧ exampleParseInt "-0" 10 = (-0)%float
  ∧ exampleParseInt "-12" 10 = (-12)%float
  ∧ exampleParseInt " 7up" 10 = 7%float
  ∧ exampleParseInt "9007199254740993" 10 = 9007199254740992%float.
Proof. split_and!; vm_compute; reflexivity. Qed.

Example exampleParseFloat_reads :
  exampleParseFloat "1.5" = 1.5%float
  ∧ exampleParseFloat "-0.0" = (-0)%float
  ∧ exampleParseFloat "1e3" = 1000%float
  ∧ exampleParseFloat "0.1" = 0x1.999999999999ap-4%float
  ∧ exampleParseFloat "6.02e23" = 0x1.fde9f10a8d361p+78%float
  ∧ exampleParseFloat "5e-324" = 0x1p-1074%float
  ∧ exampleParseFloat "1e400" = infinity.
Proof. split_and!; vm_compute; reflexivity. Qed.

(** The declared arguments of the examples are of the enum type [Role] of
    the documentation, whose values are their names; the argument [level]
    is of type [Role!]. *)
Definition roles : list string := ["ADMIN"; "REVIEWER"; "USER"; "UNKNOWN"].

Definition exampleIsNonNullType (def : GraphQLDirective) (name : string)
  : bool :=
  bool_decide (name = "level").

Definition exampleValueFromAST (def : GraphQLDirective) (name : string)
    (valueNode : ValueNode) : option JSValue :=
  match valueNode with
  | NullValue => if exampleIsNonNullType def name then None else Some JNull
  | EnumValue value =>
      if bool_decide (value ∈ roles) then Some (JString value) else None
  | _ => None
  end.

Definition exampleCoercer : GraphQLDirective → DirectiveNode → Result JSObject :=
  Values.getArgumentValues exampleIsNonNullType exampleValueFromAST.

(** ** Example classes and schemas *)

Definition withDirectives (nodes : list DirectiveNode) : option ASTNode :=
  Some (mkASTNode (Some nodes)).

(** [class ObjectVisitor extends SchemaDirectiveVisitor { visitObject() {…} }] *)
Definition ObjectVisitor : VisitorClass :=
  Extends 0 SchemaDirectiveVisitor ["visitObject"].

(** [class UnionVisitor extends ObjectVisitor { visitUnion() {…} }] *)
Definition UnionVisitor : VisitorClass :=
  Extends 1 ObjectVisitor ["visitUnion"].

(** [class FieldVisitor extends SchemaDirectiveVisitor {
      visitFieldDefinition() {…} }] *)
Definition FieldVisitor : VisitorClass :=
  Extends 2 SchemaDirectiveVisitor ["visitFieldDefinition"].

Definition exampleVisitors : gmap string VisitorClass :=
  {[ "length" := FieldVisitor; "upper" := FieldVisitor;
     "tag" := UnionVisitor; "auth" := ObjectVisitor ]}.

(** [title: String @length(max: 50) @upper] *)
Definition titleField : GraphQLField :=
  mkField "title" (Some [mkArgument "locale" None])
    (withDirectives
       [ mkDirectiveNode "length" [mkArgumentNode "max" (IntValue "50")];
         mkDirectiveNode "upper" [] ]).

(** [type Book @length { title: … }] *)
Definition Book : GraphQLObjectType :=
  mkObjectType "Book" [("title", titleField)]
    (withDirectives [mkDirectiveNode "length" []]).

(** [body: String @length(max: $limit)], a literal the decoder does not
    know. *)
Definition bodyField : GraphQLField :=
  mkField "body" None
    (withDirectives
       [ mkDirectiveNode "upper" [];
         mkDirectiveNode "length"
           [mkArgumentNode "max" (VariableNode "limit")] ]).

Definition Review : GraphQLObjectType :=
  mkObjectType "Review" [("body", bodyField)] None.

(** [union Media @tag = Book | Review] *)
Definition Media : GraphQLUnionType :=
  mkUnionType "Media" [Book; Review] (withDirectives [mkDirectiveNode "tag" []]).

Definition introspectionType : GraphQLObjectType :=
  mkObjectType "__Type" [] (withDirectives [mkDirectiveNode "auth" []]).

Definition exampleSchema : GraphQLSchema :=
  mkSchema
    [ ("Book", ObjectType Book);
      ("__Type", ObjectType introspectionType);
      ("Media", UnionType Media) ]
    [] None.

Definition failingSchema : GraphQLSchema :=
  mkSchema
    [ ("Book", ObjectType Book);
      ("Review", ObjectType Review);
      ("Media", UnionType Media) ]
    [] None.

(** [type Mutation @auth(role: $r)] with [directive @auth(requires: Role =
    ADMIN)] declared in the second schema. *)
Definition Mutation : GraphQLObjectType :=
  mkObjectType "Mutation" []
    (withDirectives
       [mkDirectiveNode "auth" [mkArgumentNode "role" (VariableNode "r")]]).

Definition secondFailingSchema : GraphQLSchema :=
  mkSchema [("Mutation", ObjectType Mutation)] [] None.

(** [type Account @auth @auth(requires: USER)
      @auth(requires: $role, note: REVIEWER)] *)
Definition Account : GraphQLObjectType :=
  mkObjectType "Account" []
    (withDirectives
       [ mkDirectiveNode "auth" [];
         mkDirectiveNode "auth" [mkArgumentNode "requires" (EnumValue "USER")];
         mkDirectiveNode "auth"
           [ mkArgumentNode "requires" (VariableNode "role");
             mkArgumentNode "note" (EnumValue "REVIEWER") ] ]).

(** [directive @auth(requires: Role = ADMIN, note: Role) on OBJECT] *)
Definition declaredSchema : GraphQLSchema :=
  mkSchema
    [ ("Account", ObjectType Account); ("Book", ObjectType Book) ]
    [ mkDirective "auth" [OBJECT]
        [("requires", Some (JString "ADMIN")); ("note", None)] ]
    None.

(** [directive @tag(level: Role!) on UNION], and [union Media @tag]
    without the argument. *)
Definition requiringSchema : GraphQLSchema :=
  mkSchema
    [ ("Book", ObjectType Book); ("Media", UnionType Media) ]
    [ mkDirective "tag" [UNION] [("level", None)] ]
    None.

(** The name a node goes by. *)
Definition node_name (type : VisitableType) : string :=
  match type with
  | OfSchema _ => "schema"
  | OfNamedType (ObjectType t) => object_name t
  | OfNamedType (InterfaceType t) => interface_name t
  | OfNamedType (InputObjectType t) => inputObject_name t
  | OfNamedType (ScalarType t) => scalar_name t
  | OfNamedType (UnionType t) => union_name t
  | OfNamedType (EnumType t) => enum_name t
  | OfField field => field_name field
  | OfInputField field => inputField_name field
  | OfArgument arg => argument_name arg
  | OfEnumValue value => enumValue_name value
  end.

Example decode_list_and_duplicate_field :
  valueFromASTUntyped exampleParseInt exampleParseFloat
    (ListValue [IntValue "1"; IntValue "2"; IntValue "3"])
  = Ok (JArray [JNumber 1; JNumber 2; JNumber 3])
  ∧ valueFromASTUntyped exampleParseInt exampleParseFloat
      (ObjectValue [("a", IntValue "1"); ("b", StringValue "x"); ("a", IntValue "2")])
    = Ok (JObject [("a", JNumber 2); ("b", JString "x")]).
Proof. split; vm_compute; reflexivity. Qed.

Example walk_of_exampleSchema :
  Directives.resolvedTypes
    (Directives.trace
       (Directives.visitSchema_run exampleParseInt exampleParseFloat
          exampleCoercer exampleSchema exampleVisitors).2)
  = [ObjectType Book; UnionType Media]
  ∧ visitor_name
      <$> Directives.constructed
            (Directives.trace
               (Directives.visitSchema_run exampleParseInt exampleParseFloat
                  exampleCoercer exampleSchema exampleVisitors).2)
    = ["length"; "upper"; "tag"].
Proof. split; vm_compute; reflexivity. Qed.

(** * Where the code departs from what is said of it *)

(** C1, at the input where the earlier variant departs.  [Book] carries
    [@length], and the class registered for [length] overrides
    [visitFieldDefinition] only.  The resolver of [directives.ts] makes no
    visitor for the object type; [getDirectives] of the earlier variant
    makes one, and the walk calls [visitObject], the inherited stub, on
    it. *)
Theorem getDirectives_ignores_overrides
    (parseInt : string → Z → float) (parseFloat : string → float)
    (getArgumentValues : GraphQLDirective → DirectiveNode → Result JSObject) :
  let type := OfNamedType (ObjectType Book) in
  let visitor := mkVisitor FieldVisitor "length" [] type exampleSchema in
  exampleVisitors !! "length" = Some FieldVisitor
  ∧ overrides FieldVisitor "visitObject" = false
  ∧ Directives.shouldCall FieldVisitor "visitObject" = false
  ∧ (Directives.getVisitors parseInt parseFloat getArgumentValues exampleSchema
       exampleVisitors type "visitObject"
       (Directives.initialState exampleVisitors)).1 = Ok []
  ∧ Part000.getDirectives parseInt parseFloat getArgumentValues exampleSchema
      exampleVisitors type []
    = (Ok [visitor], [Part000.Collected type; Part000.Constructed visitor])
  ∧ Part000.forEachDirective parseInt parseFloat getArgumentValues
      exampleSchema exampleVisitors "visitObject" type NoDetails []
    = (Ok tt, [ Part000.Collected type; Part000.Constructed visitor;
                Part000.Called "visitObject" visitor type NoDetails ]).
Proof. intros type visitor. split_and!; vm_compute; reflexivity. Qed.

(** C5, at the input where [getLocations] departs.  [UnionVisitor]
    extends [ObjectVisitor] and overrides [visitUnion].  Asked first, it
    answers with both locations.  Asked after its parent class, it finds
    the parent's array through the chain of class objects and returns it:
    the location of the method it overrides itself is missing.  Both
    variants of [getLocations] do so. *)
Theorem getLocations_after_parent_class :
  overrides UnionVisitor "visitUnion" = true
  ∧ (Directives.getLocations UnionVisitor ∅).1 = [UNION; OBJECT]
  ∧ (Directives.getLocations ObjectVisitor ∅).1 = [OBJECT]
  ∧ (Directives.getLocations UnionVisitor
       (Directives.getLocations ObjectVisitor ∅).2).1 = [OBJECT]
  ∧ (Part000.getLocations UnionVisitor
       (Part000.getLocations ObjectVisitor ∅).2).1 = [OBJECT]
  ∧ (Directives.getLocations ObjectVisitor
       (Directives.getLocations SchemaDirectiveVisitor ∅).2).1 = [].
Proof. split_and!; vm_compute; reflexivity. Qed.

(** C4, as stated, fails: two walks that throw at occurrences of
    different names on nodes of different names end with the same
    exception, so nothing computed from the exception tells the
    occurrence or the node. *)
Lemma decode_error_lacks_context :
  ¬ ∃ locate : Error → string * string,
      ∀ schema directiveVisitors pre step post d a e,
        schemaSteps schema = pre ++ step :: post →
        Forall (λ step',
                  Directives.stepFailure exampleParseInt exampleParseFloat
                    exampleCoercer schema directiveVisitors step' = None) pre →
        Directives.offending exampleParseInt exampleParseFloat exampleCoercer
          schema directiveVisitors step d a →
        Directives.visitSchema exampleParseInt exampleParseFloat exampleCoercer
          schema directiveVisitors = Err e →
        locate e = (directive_name d, node_name (step_type step)).
Proof.
  intros [locate Hlocate].
  pose (e := UnexpectedValueKind "Variable").
  assert (H1 : locate e = ("length", "body")).
  { apply (Hlocate failingSchema exampleVisitors
             [ mkStep "visitSchema" (OfSchema failingSchema) NoDetails;
               mkStep "visitObject" (OfNamedType (ObjectType Book)) NoDetails;
               mkStep "visitFieldDefinition" (OfField titleField)
                 (FieldDetails (ObjectType Book));
               mkStep "visitArgumentDefinition"
                 (OfArgument (mkArgument "locale" None))
                 (ArgumentDetails titleField (ObjectType Book));
               mkStep "visitObject" (OfNamedType (ObjectType Review)) NoDetails ]
             (mkStep "visitFieldDefinition" (OfField bodyField)
                (FieldDetails (ObjectType Review)))
             [mkStep "visitUnion" (OfNamedType (UnionType Media)) NoDetails]
             (mkDirectiveNode "length"
                [mkArgumentNode "max" (VariableNode "limit")])
             (mkArgumentNode "max" (VariableNode "limit"))).
    - reflexivity.
    - repeat constructor.
    - exists [mkDirectiveNode "upper" []], []. eexists.
      exists FieldVisitor, [], [], [].
      split_and!; reflexivity.
    - vm_compute. reflexivity. }
  assert (H2 : locate e = ("auth", "Mutation")).
  { apply (Hlocate secondFailingSchema exampleVisitors
             [mkStep "visitSchema" (OfSchema secondFailingSchema) NoDetails]
             (mkStep "visitObject" (OfNamedType (ObjectType Mutation)) NoDetails)
             []
             (mkDirectiveNode "auth"
                [mkArgumentNode "role" (VariableNode "r")])
             (mkArgumentNode "role" (VariableNode "r"))).
    - reflexivity.
    - repeat constructor.
    - exists [], [], [], ObjectVisitor, [], [], []. split_and!; reflexivity.
    - vm_compute. reflexivity. }
  rewrite H1 in H2. discriminate H2.
Qed.

(** * The theorems at the example schemas *)

(** The walk of [failingSchema] up to the field whose occurrence cannot be
    decoded, that field's step, and what the walk would have done next. *)
Definition stepsBeforeFailure : list Step :=
  [ mkStep "visitSchema" (OfSchema failingSchema) NoDetails;
    mkStep "visitObject" (OfNamedType (ObjectType Book)) NoDetails;
    mkStep "visitFieldDefinition" (OfField titleField)
      (FieldDetails (ObjectType Book));
    mkStep "visitArgumentDefinition" (OfArgument (mkArgument "locale" None))
      (ArgumentDetails titleField (ObjectType Book));
    mkStep "visitObject" (OfNamedType (ObjectType Review)) NoDetails ].

Definition stepOfFailure : Step :=
  mkStep "visitFieldDefinition" (OfField bodyField)
    (FieldDetails (ObjectType Review)).

Definition stepsAfterFailure : list Step :=
  [mkStep "visitUnion" (OfNamedType (UnionType Media)) NoDetails].

Definition argumentOfFailure : ArgumentNode :=
  mkArgumentNode "max" (VariableNode "limit").

Definition occurrenceOfFailure : DirectiveNode :=
  mkDirectiveNode "length" [argumentOfFailure].

Lemma decode_error_names_kind_only_witness :
  ∃ e,
    Directives.visitSchema exampleParseInt exampleParseFloat exampleCoercer
      failingSchema exampleVisitors = Err e
    ∧ e = UnexpectedValueKind "Variable"
    ∧ error_message e = "Unexpected value kind: Variable".
Proof.
  refine (Directives.decode_error_names_kind_only
            exampleParseInt exampleParseFloat exampleCoercer
            failingSchema exampleVisitors
            stepsBeforeFailure stepOfFailure stepsAfterFailure
            occurrenceOfFailure argumentOfFailure _ _ _).
  - reflexivity.
  - repeat constructor.
  - exists [mkDirectiveNode "upper" []], []. eexists.
    exists FieldVisitor, [], [], []. split_and!; reflexivity.
Defined.

Lemma union_members_not_visited_witness :
  let type := UnionType Media in
  let step := mkStep "visitUnion" (OfNamedType type) NoDetails in
  Forall (λ event,
            Directives.event_type event = OfNamedType type
            ∧ (Directives.event_method event = None
               ∨ Directives.event_method event = Some "visitUnion"))
         (Directives.stepEvents exampleParseInt exampleParseFloat exampleCoercer
            exampleSchema exampleVisitors step)
  ∧ ∀ member, member ∈ [Book; Review] →
      Forall (λ event,
                Directives.event_type event ≠ OfNamedType (ObjectType member))
             (Directives.stepEvents exampleParseInt exampleParseFloat
                exampleCoercer exampleSchema exampleVisitors step).
Proof.
  intros type step.
  exact (proj2 (proj2 (proj2
           (Directives.union_members_not_visited
              exampleParseInt exampleParseFloat exampleCoercer
              exampleSchema exampleVisitors Media
              (Directives.initialState exampleVisitors)
              (Directives.consistent_initialState exampleVisitors))))).
Defined.

Lemma dispatch_in_source_order_witness :
  ∃ length upper,
    visitor_name length = "length"
    ∧ visitor_name upper = "upper"
    ∧ Directives.trace
        (Directives.callVisitorMethods exampleParseInt exampleParseFloat
           exampleCoercer exampleSchema exampleVisitors
           "visitFieldDefinition" (OfField titleField)
           (FieldDetails (ObjectType Book))
           (Directives.initialState exampleVisitors)).2
      = [ Directives.Resolved "visitFieldDefinition" (OfField titleField);
          Directives.Constructed length;
          Directives.Constructed upper;
          Directives.Called "visitFieldDefinition" length (OfField titleField)
            (FieldDetails (ObjectType Book));
          Directives.Called "visitFieldDefinition" upper (OfField titleField)
            (FieldDetails (ObjectType Book)) ].
Proof.
  destruct (proj1 (Directives.dispatch_in_source_order
                     exampleParseInt exampleParseFloat exampleCoercer
                     exampleSchema exampleVisitors)
              (OfField titleField) "visitFieldDefinition"
              (FieldDetails (ObjectType Book))
              [ mkDirectiveNode "length" [mkArgumentNode "max" (IntValue "50")];
                mkDirectiveNode "upper" [] ]
              (Directives.initialState exampleVisitors)
              (Directives.callVisitorMethods exampleParseInt exampleParseFloat
                 exampleCoercer exampleSchema exampleVisitors
                 "visitFieldDefinition" (OfField titleField)
                 (FieldDetails (ObjectType Book))
                 (Directives.initialState exampleVisitors)).2
              (Directives.consistent_initialState exampleVisitors)
              eq_refl)
    as (made & Hmade & Htrace).
  - vm_compute. reflexivity.
  - vm_compute in Hmade. injection Hmade as <-.
    eexists _, _. split_and!; [| |exact Htrace]; reflexivity.
Defined.

(** C6, as stated, fails.  [@auth] is declared with the arguments
    [requires], which has a default, and [note], which has none; the
    visitor made for the occurrence [@auth] on [Account] holds [requires]
    and not [note]. *)
Lemma declared_name_left_out :
  ∃ v decl,
    v ∈ Directives.constructed
          (Directives.trace
             (Directives.visitSchema_run exampleParseInt exampleParseFloat
                exampleCoercer declaredSchema exampleVisitors).2)
    ∧ Directives.declaredDirectives declaredSchema !! visitor_name v = Some decl
    ∧ "note" ∈ obj_keys (decl_args decl)
    ∧ "note" ∉ obj_keys (visitor_args v).
Proof.
  exists (mkVisitor ObjectVisitor "auth" [("requires", JString "ADMIN")]
            (OfNamedType (ObjectType Account)) declaredSchema).
  exists (mkDirective "auth" [OBJECT]
            [("requires", Some (JString "ADMIN")); ("note", None)]).
  split_and!.
  - assert (H : Directives.constructed
                  (Directives.trace
                     (Directives.visitSchema_run exampleParseInt
                        exampleParseFloat exampleCoercer declaredSchema
                        exampleVisitors).2)
                = [ mkVisitor ObjectVisitor "auth" [("requires", JString "ADMIN")]
                      (OfNamedType (ObjectType Account)) declaredSchema;
                    mkVisitor ObjectVisitor "auth" [("requires", JString "USER")]
                      (OfNamedType (ObjectType Account)) declaredSchema;
                    mkVisitor ObjectVisitor "auth"
                      [("requires", JString "ADMIN"); ("note", JString "REVIEWER")]
                      (OfNamedType (ObjectType Account)) declaredSchema;
                    mkVisitor FieldVisitor "length" [("max", JNumber 50)]
                      (OfField titleField) declaredSchema;
                    mkVisitor FieldVisitor "upper" []
                      (OfField titleField) declaredSchema ])
      by (vm_compute; reflexivity).
    rewrite H. by left.
  - vm_compute. reflexivity.
  - cbn. set_solver.
  - cbn. set_solver.
Qed.

Lemma visitor_args_as_coerced_witness :
  (visitor_args
     <$> Directives.constructed
           (Directives.trace
              (Directives.visitSchema_run exampleParseInt exampleParseFloat
                 exampleCoercer declaredSchema exampleVisitors).2))
  = [ [("requires", JString "ADMIN")]; [("requires", JString "USER")];
      [("requires", JString "ADMIN"); ("note", JString "REVIEWER")];
      [("max", JNumber 50)]; [] ]
  ∧ Forall
      (λ v,
         ∃ ds d,
           directiveNodes_of (visitor_visitedType v) = Some ds
           ∧ d ∈ ds
           ∧ directive_name d = visitor_name v
           ∧ match Directives.declaredDirectives declaredSchema
                     !! visitor_name v with
             | Some decl =>
                 exampleCoercer decl d = Ok (visitor_args v)
                 ∧ (∀ k, k ∈ obj_keys (visitor_args v) ↔
                         ∃ defaultValue,
                           (k, defaultValue) ∈ decl_args decl
                           ∧ (Values.supplied d k
                              ∨ Values.isInvalid defaultValue = false))
                 ∧ (∀ k value,
                      ¬ Values.supplied d k →
                      obj_get k (visitor_args v) = Some value →
                      (k, Some value) ∈ decl_args decl)
                 ∧ (∀ k arg,
                      k ∈ (decl_args decl).*1 →
                      Values.argNodeMap d k = Some arg →
                      recognized (arg_value arg) = true →
                      obj_get k (visitor_args v)
                      = exampleValueFromAST decl k (arg_value arg))
             | None =>
                 (∃ ws,
                    Forall2
                      (λ a w, valueFromASTUntyped exampleParseInt
                                exampleParseFloat (arg_value a) = Ok w)
                      (arguments d) ws
                    ∧ visitor_args v
                      = obj_assign [] (zip (arg_name <$> arguments d) ws))
                 ∧ obj_keys (visitor_args v)
                   = encounter_order [] (arg_name <$> arguments d)
                 ∧ ∀ k, k ∈ obj_keys (visitor_args v)
                        ↔ k ∈ arg_name <$> arguments d
             end)
      (Directives.constructed
         (Directives.trace
            (Directives.visitSchema_run exampleParseInt exampleParseFloat
               exampleCoercer declaredSchema exampleVisitors).2)).
Proof.
  split; [vm_compute; reflexivity|].
  apply Forall_forall. intros v Hv.
  exact (visitor_args_as_coerced exampleParseInt exampleParseFloat
           exampleIsNonNullType exampleValueFromAST
           declaredSchema exampleVisitors v Hv).
Defined.

(** A schema built without AST nodes. *)
Definition programmaticSchema : GraphQLSchema :=
  mkSchema
    [ ("Query",
       ObjectType
         (mkObjectType "Query"
            [("book", mkField "book" (Some [mkArgument "id" None]) None)] None));
      ("Genre",
       EnumType (mkEnumType "Genre" [mkEnumValue "FICTION" None] None)) ]
    [] None.

Lemma no_directiveNodes_no_visitors_witness :
  Directives.visitSchema exampleParseInt exampleParseFloat exampleCoercer
    programmaticSchema exampleVisitors
  = Ok ((λ _, []) <$> exampleVisitors)
  ∧ Directives.constructed
      (Directives.trace
         (Directives.visitSchema_run exampleParseInt exampleParseFloat
            exampleCoercer programmaticSchema exampleVisitors).2) = []
  ∧ (Part000.visitSchema exampleParseInt exampleParseFloat exampleCoercer
       programmaticSchema exampleVisitors).1 = Ok tt
  ∧ Part000.constructed
      (Part000.visitSchema exampleParseInt exampleParseFloat exampleCoercer
         programmaticSchema exampleVisitors).2 = [].
Proof.
  refine (proj1 (proj2 (proj2 (no_directiveNodes_no_visitors
                                 exampleParseInt exampleParseFloat
                                 exampleCoercer programmaticSchema
                                 exampleVisitors))) _).
  repeat constructor.
Defined.

Lemma valueFromASTUntyped_cases_witness :
  ∃ obj,
    valueFromASTUntyped exampleParseInt exampleParseFloat
      (ObjectValue [("a", IntValue "1"); ("a", IntValue "2")])
    = Ok (JObject obj)
    ∧ obj_keys obj = ["a"]
    ∧ NoDup (obj_keys obj)
    ∧ ∀ k, obj_get k obj = obj_get k [("a", JNumber 2); ("a", JNumber 1)].
Proof.
  refine (proj2 (proj2 (proj2 (proj2 (proj2 (proj2 (proj2
            (valueFromASTUntyped_cases exampleParseInt exampleParseFloat)))))))
            [("a", IntValue "1"); ("a", IntValue "2")]
            [JNumber 1; JNumber 2] _).
  repeat constructor.
Defined.

(** * Further properties of the code *)

(** ** The decoder and the untyped arguments *)

(** A literal holds a variable reference, at whatever depth. *)
Fixpoint containsVariable (valueNode : ValueNode) : bool :=
  match valueNode with
  | VariableNode _ => true
  | ListValue values =>
      (fix any (l : list ValueNode) : bool :=
         match l with
         | [] => false
         | x :: rest => containsVariable x || any rest
         end) values
  | ObjectValue fields =>
      (fix any (l : list (string * ValueNode)) : bool :=
         match l with
         | [] => false
         | field :: rest => containsVariable field.2 || any rest
         end) fields
  | _ => false
  end.

Lemma containsVariable_list values :
  containsVariable (ListValue values) = existsb containsVariable values.
Proof. cbn. induction values as [|x rest IH]; [done|]. cbn. by rewrite IH. Qed.

Lemma containsVariable_object fields :
  containsVariable (ObjectValue fields)
  = existsb (λ field, containsVariable field.2) fields.
Proof. cbn. induction fields as [|x rest IH]; [done|]. cbn. by rewrite IH. Qed.

Lemma mapM_is_Ok {A B : Type} (f : A → Result B) l :
  Forall (λ x, ∃ y, f x = Ok y) l ↔ ∃ ys, mapM f l = Ok ys.
Proof.
  induction l as [|x l IH]; cbn [mapM].
  - split; [by exists [] | constructor].
  - rewrite Forall_cons, IH. split.
    + intros [[y ->] [ys ->]]. by eexists.
    + destruct (f x) as [y|e]; [|by intros [? ?]].
      destruct (mapM f l) as [ys|e]; [|by intros [? ?]].
      intros _. split; by eexists.
Qed.

Section DecoderCharacterisation.
Variable parseInt : string → Z → float.
Variable parseFloat : string → float.
Local Abbreviation decode := (valueFromASTUntyped parseInt parseFloat).

Lemma valueFromASTUntyped_is_Ok valueNode :
  containsVariable valueNode = false ↔ ∃ w, decode valueNode = Ok w.
Proof.
  induction valueNode as [name| | | | | | |values IH|fields IH]
    using ValueNode_nested_ind;
    try (split; [by eexists | done]).
  - split; [done | by intros [w ?]].
  - rewrite containsVariable_list, valueFromASTUntyped_list.
    rewrite <- not_true_iff_false, existsb_exists.
    transitivity (Forall (λ x, ∃ y, decode x = Ok y) values).
    + rewrite Forall_forall. rewrite Forall_forall in IH. split.
      * intros Hnone x Hx. apply IH; [done|].
        apply not_true_iff_false. intros Htrue. apply Hnone.
        exists x. by rewrite <- list_elem_of_In.
      * intros Hall (x & Hx%list_elem_of_In & Htrue).
        apply (IH x Hx) in Hall; [congruence | done].
    + rewrite mapM_is_Ok. split.
      * intros [ys ->]. by eexists.
      * destruct (mapM decode values) as [ys|e]; [by eexists | by intros [? ?]].
  - rewrite containsVariable_object.
    rewrite <- not_true_iff_false, existsb_exists.
    transitivity (Forall (λ field, ∃ y, decode field.2 = Ok y) fields).
    + rewrite Forall_forall. rewrite Forall_forall in IH. split.
      * intros Hnone x Hx. apply IH; [done|].
        apply not_true_iff_false. intros Htrue. apply Hnone.
        exists x. by rewrite <- list_elem_of_In.
      * intros Hall (x & Hx%list_elem_of_In & Htrue).
        apply (IH x Hx) in Hall; [congruence | done].
    + split.
      * intros Hall.
        assert (∃ ws, Forall2 (λ field w, decode field.2 = Ok w) fields ws)
          as [ws Hws].
        { clear IH. induction Hall as [|field rest [w Hw] _ [ws Hws]].
          - by exists [].
          - exists (w :: ws). by constructor. }
        rewrite (valueFromASTUntyped_fields _ _ _ _ Hws). by eexists.
      * rewrite valueFromASTUntyped_object.
        generalize (@nil (string * JSValue)). clear IH.
        induction fields as [|field rest IHrest]; intros obj; [constructor|].
        cbn [foldM]. destruct (decode field.2) as [v|e] eqn:Hv; cbn.
        -- intros H. constructor; [by eexists | by eapply IHrest].
        -- by intros [? ?].
Qed.

(** X1. The decoder returns for every literal that holds no variable
    reference, and throws, naming the kind Variable, for every literal
    that holds one, however deep inside lists and objects it sits. *)
Theorem valueFromASTUntyped_throws_iff_variable valueNode :
  if containsVariable valueNode
  then decode valueNode = Err (UnexpectedValueKind "Variable")
  else ∃ w, decode valueNode = Ok w.
Proof.
  destruct (containsVariable valueNode) eqn:Hvar.
  - destruct (decode valueNode) as [w|e] eqn:Hdecode.
    + assert (containsVariable valueNode = false); [|congruence].
      apply valueFromASTUntyped_is_Ok. by exists w.
    + f_equal. by eapply valueFromASTUntyped_Err.
  - by apply valueFromASTUntyped_is_Ok.
Qed.
End DecoderCharacterisation.

Lemma obj_get_app {V : Type} k (l1 l2 : list (string * V)) :
  obj_get k (l1 ++ l2)
  = match obj_get k l1 with Some v => Some v | None => obj_get k l2 end.
Proof.
  induction l1 as [|[k0 v0] l1 IH]; [done|].
  cbn. destruct (decide (k = k0)); [done | apply IH].
Qed.

Lemma find_app_first {A : Type} (p : A → bool) (l1 l2 : list A) :
  find p (l1 ++ l2)
  = match find p l1 with Some x => Some x | None => find p l2 end.
Proof.
  induction l1 as [|x l1 IH]; [done|]. cbn. destruct (p x); [done | apply IH].
Qed.

Section UntypedArguments.
Variable parseInt : string → Z → float.
Variable parseFloat : string → float.
Local Abbreviation decode := (valueFromASTUntyped parseInt parseFloat).
Local Abbreviation untypedArgs := (Directives.untypedArgs parseInt parseFloat).

Lemma untypedArgs_Forall2 d ws :
  Forall2 (λ a w, decode (arg_value a) = Ok w) (arguments d) ws →
  untypedArgs d = Ok (obj_assign [] (zip (arg_name <$> arguments d) ws)).
Proof.
  unfold Directives.untypedArgs, obj_assign.
  generalize (@nil (string * JSValue)). intros args H. revert args.
  induction H as [|a w rest ws Hw _ IH]; intros args; [done|].
  cbn [foldM]. rewrite Hw. cbn. apply IH.
Qed.

Lemma obj_get_reverse_zip k (l : list ArgumentNode) ws :
  Forall2 (λ a w, decode (arg_value a) = Ok w) l ws →
  obj_get k (reverse (zip (arg_name <$> l) ws))
  = match find (λ a, bool_decide (arg_name a = k)) (reverse l) with
    | Some a => match decode (arg_value a) with Ok w => Some w | Err _ => None end
    | None => None
    end.
Proof.
  induction 1 as [|a w rest ws Hw Hrest IH]; [done|].
  cbn [fmap list_fmap zip zip_with]. rewrite !reverse_cons.
  rewrite obj_get_app, find_app_first, IH.
  destruct (find _ (reverse rest)) as [a'|] eqn:Hfind.
  - apply find_some in Hfind as [Hin _].
    apply list_elem_of_In in Hin. rewrite elem_of_reverse in Hin.
    assert (∃ w', decode (arg_value a') = Ok w') as [w' ->]; [|done].
    clear -Hrest Hin. induction Hrest as [|x y l l' Hxy _ IHl].
    + by apply elem_of_nil in Hin.
    + apply elem_of_cons in Hin as [->|Hin]; [by eexists | by apply IHl].
  - cbn. destruct (decide (k = arg_name a)) as [->|Hne].
    + rewrite bool_decide_eq_true_2 by done. by rewrite Hw.
    + rewrite bool_decide_eq_false_2 by done. done.
Qed.

(** X2. The arguments of an undeclared directive: if a literal among them
    holds a variable reference the conversion throws; otherwise it returns
    an object in which a name reads as the decoded literal of the last
    argument of that name, and a name no argument has reads as
    undefined. *)
Theorem untypedArgs_last_argument_wins (d : DirectiveNode) :
  if existsb (λ a, containsVariable (arg_value a)) (arguments d)
  then untypedArgs d = Err (UnexpectedValueKind "Variable")
  else ∃ args,
    untypedArgs d = Ok args
    ∧ ∀ k, obj_get k args
           = match find (λ a, bool_decide (arg_name a = k))
                        (reverse (arguments d)) with
             | Some a =>
                 match decode (arg_value a) with
                 | Ok w => Some w
                 | Err _ => None
                 end
             | None => None
             end.
Proof.
  assert (Hall : existsb (λ a, containsVariable (arg_value a)) (arguments d)
                 = false
                 ↔ ∃ ws, Forall2 (λ a w, decode (arg_value a) = Ok w)
                                 (arguments d) ws).
  { rewrite <- not_true_iff_false, existsb_exists.
    transitivity (Forall (λ a, ∃ w, decode (arg_value a) = Ok w) (arguments d)).
    2:{ rewrite (mapM_is_Ok (λ a, decode (arg_value a))).
        split; intros [ws Hws]; exists ws; by apply mapM_Forall2. }
    rewrite Forall_forall. split.
    - intros Hnone a Ha. apply valueFromASTUntyped_is_Ok.
      apply not_true_iff_false. intros Htrue. apply Hnone.
      exists a. by rewrite <- list_elem_of_In.
    - intros Hok (a & Ha%list_elem_of_In & Htrue).
      apply Hok, valueFromASTUntyped_is_Ok in Ha. congruence. }
  destruct (existsb _ (arguments d)) eqn:Hvar.
  - destruct (untypedArgs d) as [args|e] eqn:Hargs.
    + apply Directives.untypedArgs_Ok in Hargs as (ws & Hws & _).
      assert (true = false); [|done]. apply Hall. by exists ws.
    + f_equal. by eapply Directives.untypedArgs_Err.
  - destruct (proj1 Hall eq_refl) as [ws Hws].
    eexists. split; [by apply untypedArgs_Forall2|].
    intros k. rewrite obj_get_assign, (obj_get_reverse_zip _ _ _ Hws).
    destruct (find _ (reverse (arguments d))) as [a|]; [|done].
    by destruct (decode (arg_value a)).
Qed.
End UntypedArguments.

(** ** Declared directives *)

Lemma foldl_insert_lookup_last (decls : list GraphQLDirective)
    (declared : gmap string GraphQLDirective) k :
  foldl (λ declared decl, <[decl_name decl := decl]> declared) declared decls !! k
  = match find (λ decl, bool_decide (decl_name decl = k)) (reverse decls) with
    | Some decl => Some decl
    | None => declared !! k
    end.
Proof.
  revert declared. induction decls as [|decl decls IH]; intros declared; [done|].
  cbn [foldl]. rewrite IH, reverse_cons, find_app_first.
  destruct (find _ (reverse decls)); [done|]. cbn.
  case_bool_decide as Hname.
  - by rewrite Hname, lookup_insert_eq.
  - by rewrite lookup_insert_ne.
Qed.

(** X3. The table of declared directives, in both variants: a name reads
    as the last declaration of that name in [schema.getDirectives()], and
    as undefined when no declaration has that name. *)
Theorem declaredDirectives_last_declaration (schema : GraphQLSchema) k :
  Directives.declaredDirectives schema !! k
  = find (λ decl, bool_decide (decl_name decl = k)) (reverse (getDirectives schema))
  ∧ Part000.declaredDirectives schema !! k
    = find (λ decl, bool_decide (decl_name decl = k))
           (reverse (getDirectives schema)).
Proof.
  unfold Directives.declaredDirectives, Part000.declaredDirectives.
  rewrite foldl_insert_lookup_last, lookup_empty.
  by destruct (find _ (reverse (getDirectives schema))).
Qed.

(** ** [shouldCall] and [getLocations] *)

(** X4. [shouldCall] answers false for every name that is not one of the
    eleven visitor methods, and for every name on the base class itself;
    on a derived class it answers true for a visitor method the class
    body defines, and otherwise what it answers on the parent class: an
    override made by an ancestor counts. *)
Theorem shouldCall_inheritance :
  (∀ this m, m ∉ visitorMethods → Directives.shouldCall this m = false)
  ∧ (∀ m, Directives.shouldCall SchemaDirectiveVisitor m = false)
  ∧ (∀ n parent methods m,
       m ∈ visitorMethods →
       Directives.shouldCall (Extends n parent methods) m
       = bool_decide (m ∈ methods) || Directives.shouldCall parent m).
Proof.
  split_and!.
  - intros this m Hm. rewrite Directives.shouldCall_overrides.
    unfold overrides. by rewrite bool_decide_eq_false_2.
  - intros m. rewrite Directives.shouldCall_overrides. unfold overrides.
    cbn. destruct (decide (m = "constructor")); [by rewrite andb_false_r|].
    destruct (decide (m ∈ visitorMethods)); by rewrite andb_false_r.
  - intros n parent methods m Hm.
    rewrite !Directives.shouldCall_overrides. unfold overrides.
    rewrite bool_decide_eq_true_2 by done. cbn [andb prototype_get].
    destruct (decide (m = "constructor")) as [->|_].
    { exfalso. unfold visitorMethods in Hm.
      repeat (apply elem_of_cons in Hm as [Hm|Hm]; [discriminate|]).
      by apply elem_of_nil in Hm. }
    destruct (decide (m ∈ methods)).
    + by rewrite bool_decide_eq_true_2.
    + by rewrite bool_decide_eq_false_2.
Qed.

Lemma getLocations_then_held this
    (statics : gmap nat (list DirectiveLocationEnum)) :
  locations_get (Directives.getLocations this statics).2 this
  = Some (Directives.getLocations this statics).1.
Proof.
  rewrite getLocations_unfold.
  destruct (locations_get statics this) as [l|] eqn:Hget; [done|].
  cbn [fst snd]. destruct this as [|n parent methods]; cbn;
    by rewrite lookup_insert_eq.
Qed.

Lemma getLocations_frame this
    (statics : gmap nat (list DirectiveLocationEnum)) j :
  j ≠ class_id this →
  (Directives.getLocations this statics).2 !! j = statics !! j.
Proof.
  intros Hj. rewrite getLocations_unfold.
  destruct (locations_get statics this); [done|].
  cbn [snd]. by rewrite lookup_insert_ne.
Qed.

(** X6. [getLocations] is memoized: asked again, a class answers what it
    answered before and nothing changes; and a call touches the static
    property of no class object but that of the class asked. *)
Theorem getLocations_memo_and_frame this
    (statics : gmap nat (list DirectiveLocationEnum)) :
  Directives.getLocations this (Directives.getLocations this statics).2
  = Directives.getLocations this statics
  ∧ ∀ j, j ≠ class_id this →
         (Directives.getLocations this statics).2 !! j = statics !! j.
Proof.
  split.
  - destruct (Directives.getLocations this statics) as [l s'] eqn:Hrun.
    exact (getLocations_memoized _ _ _ _ Hrun).
  - intros j Hj. by apply getLocations_frame.
Qed.

(** X7. A derived class asked after its parent: when the derived class
    object holds no array of its own, it answers with the parent's array
    and stores nothing, whatever methods it overrides itself. *)
Theorem getLocations_derived_after_parent n parent methods
    (statics : gmap nat (list DirectiveLocationEnum)) :
  statics !! S n = None →
  class_id parent ≠ S n →
  Directives.getLocations (Extends n parent methods)
    (Directives.getLocations parent statics).2
  = Directives.getLocations parent statics.
Proof.
  intros Hown Hid.
  pose proof (getLocations_then_held parent statics) as Hheld.
  pose proof (getLocations_frame parent statics (S n)) as H.
  destruct (Directives.getLocations parent statics) as [l s'].
  cbn [fst snd] in *. apply getLocations_inherited; [|done].
  rewrite H; [done | congruence].
Qed.

(** X8. The two variants of [getLocations] return the same array and
    leave the same static properties, for every class and every state of
    the class objects: the test of the earlier variant on the prototype
    property and [shouldCall] of the later one decide alike. *)
Theorem getLocations_variants_agree this
    (statics : gmap nat (list DirectiveLocationEnum)) :
  Part000.getLocations this statics = Directives.getLocations this statics.
Proof. apply getLocations_variants. Qed.

(** ** The walk of [directives.ts] *)

(** The visitors of the [Called] events, in order. *)
Definition calledVisitors (events : list Directives.Event) : list Visitor :=
  omap (λ event,
          match event with
          | Directives.Called _ v _ _ => Some v
          | _ => None
          end) events.

Section WalkProperties.
Variable parseInt : string → Z → float.
Variable parseFloat : string → float.
Variable getArgumentValues : GraphQLDirective → DirectiveNode → Result JSObject.
Variable schema : GraphQLSchema.
Variable directiveVisitors : gmap string VisitorClass.

Local Abbreviation getVisitors :=
  (Directives.getVisitors parseInt parseFloat getArgumentValues schema
     directiveVisitors).
Local Abbreviation instantiate :=
  (Directives.instantiate parseInt parseFloat getArgumentValues schema
     directiveVisitors).
Local Abbreviation collect :=
  (Directives.collect parseInt parseFloat getArgumentValues schema
     directiveVisitors).
Local Abbreviation resolve :=
  (Directives.resolve parseInt parseFloat getArgumentValues schema
     directiveVisitors).
Local Abbreviation stepEvents :=
  (Directives.stepEvents parseInt parseFloat getArgumentValues schema
     directiveVisitors).
Local Abbreviation stepFailure :=
  (Directives.stepFailure parseInt parseFloat getArgumentValues schema
     directiveVisitors).
Local Abbreviation outcome :=
  (Directives.outcome parseInt parseFloat getArgumentValues schema
     directiveVisitors).
Local Abbreviation visitSchema :=
  (Directives.visitSchema parseInt parseFloat getArgumentValues schema
     directiveVisitors).
Local Abbreviation visitSchema_run :=
  (Directives.visitSchema_run parseInt parseFloat getArgumentValues schema
     directiveVisitors).

(** X9. Occurrences the resolver passes over are never decoded.  At a
    node all of whose occurrences either have a name that is no key of
    [directiveVisitors] or have a class that does not override the method
    asked for, [getVisitors] returns the empty array and throws nothing,
    whatever literals those occurrences carry. *)
Theorem getVisitors_skips_without_decoding type m st ds :
  directiveNodes_of type = Some ds →
  Forall (λ d, match directiveVisitors !! directive_name d with
               | Some cls => Directives.shouldCall cls m = false
               | None => True
               end) ds →
  getVisitors type m st
  = (Ok [], Directives.logged st [Directives.Resolved m type]).
Proof.
  intros Hds Hskip. unfold Directives.getVisitors. rewrite Hds.
  unfold mbind at 1, Eff_bind at 1. cbn [Directives.log modify].
  unfold mbind at 1, Eff_bind at 1. rewrite Directives.foldE_collect.
  assert (Hcollect : collect type m ds = ([], None)).
  { clear Hds. induction Hskip as [|d rest Hd _ IH]; [done|].
    cbn [Directives.collect]. unfold Directives.instantiate at 1.
    destruct (directiveVisitors !! directive_name d) as [cls|]; [|exact IH].
    rewrite Hd. exact IH. }
  rewrite Hcollect. cbn. unfold Directives.logged. cbn.
  by rewrite app_nil_r.
Qed.

(** X10. The index [visitSchema] returns has exactly the keys of
    [directiveVisitors]: a registered name no occurrence used reads as
    an array, and no other name is bound. *)
Theorem visitSchema_index_keys created :
  visitSchema = Ok created →
  dom created = dom directiveVisitors
  ∧ ∀ k, (is_Some (created !! k) ↔ is_Some (directiveVisitors !! k)).
Proof.
  intros Hok.
  pose proof (Directives.visitSchema_created _ _ _ _ _ created Hok) as Hlook.
  assert (Hiff : ∀ k, is_Some (created !! k) ↔ is_Some (directiveVisitors !! k)).
  { intros k. rewrite Hlook. apply fmap_is_Some. }
  split; [|done]. apply set_eq. intros k. by rewrite !elem_of_dom.
Qed.

(** X11. Every visitor made during a walk is an instance of the class
    registered under its name, holds the schema being walked, was made
    for a node of that schema, and its class overrides the method of the
    step at which it was made. *)
Theorem constructed_visitor_provenance v :
  v ∈ Directives.constructed (Directives.trace visitSchema_run.2) →
  directiveVisitors !! visitor_name v = Some (visitor_class v)
  ∧ visitor_schema v = schema
  ∧ visitor_visitedType v ∈ nodes_of_schema schema
  ∧ ∃ step,
      step ∈ schemaSteps schema
      ∧ step_type step = visitor_visitedType v
      ∧ overrides (visitor_class v) (step_method step) = true.
Proof.
  intros Hv.
  destruct (Directives.visitSchema_run_outcome parseInt parseFloat
              getArgumentValues schema directiveVisitors) as (_ & Htrace & _).
  rewrite Htrace in Hv.
  apply Directives.constructed_outcome in Hv as (step & Hstep & Hv).
  unfold Directives.resolve in Hv.
  destruct (directiveNodes_of (step_type step)) as [ds|];
    [|by apply elem_of_nil in Hv].
  apply Directives.collect_elem_of in Hv as (d & _ & Hinst).
  apply Directives.instantiate_Some in Hinst
    as (cls & Hcls & Hcall & <- & Hname & Htype & Hschema & _).
  rewrite Hname, Htype. split_and!; [done..| |].
  - by apply schemaSteps_nodes.
  - exists step. by rewrite <- Directives.shouldCall_overrides.
Qed.

Lemma calledVisitors_app events1 events2 :
  calledVisitors (events1 ++ events2)
  = calledVisitors events1 ++ calledVisitors events2.
Proof. apply omap_app. Qed.

Lemma calledVisitors_stepEvents step :
  stepFailure step = None →
  calledVisitors (stepEvents step) = (resolve (step_type step) (step_method step)).1.
Proof.
  unfold Directives.stepFailure, Directives.stepEvents.
  destruct (resolve (step_type step) (step_method step)) as [vs failure].
  cbn [fst snd]. intros ->.
  change (calledVisitors (?e :: ?l)) with (calledVisitors ([e] ++ l)).
  rewrite !calledVisitors_app. cbn [calledVisitors omap list_omap app].
  assert (H1 : calledVisitors (Directives.Constructed <$> vs) = []).
  { induction vs as [|v vs IH]; [done | by cbn]. }
  rewrite H1. cbn [app].
  induction vs as [|v vs IH]; [done|]. cbn. f_equal. apply IH.
  induction vs as [|v' vs' IH']; [done | by cbn].
Qed.

Lemma stepEvents_Called step event :
  event ∈ stepEvents step →
  match event with
  | Directives.Called m v type _ =>
      m = step_method step
      ∧ type = visitor_visitedType v
      ∧ Directives.shouldCall (visitor_class v) m = true
  | _ => True
  end.
Proof.
  unfold Directives.stepEvents, Directives.resolve.
  assert (Hvs : ∀ v, v ∈ (match directiveNodes_of (step_type step) with
                          | Some ds => collect (step_type step) (step_method step) ds
                          | None => ([], None)
                          end).1 →
                     visitor_visitedType v = step_type step
                     ∧ Directives.shouldCall (visitor_class v) (step_method step)
                       = true).
  { destruct (directiveNodes_of (step_type step)) as [ds|];
      [|by intros ? ?%elem_of_nil].
    intros v Hv. apply Directives.collect_elem_of in Hv as (d & _ & Hd).
    by apply Directives.instantiate_Some in Hd
      as (cls & _ & Hcall & <- & _ & Htype & _). }
  destruct (match directiveNodes_of (step_type step) with
            | Some ds => collect (step_type step) (step_method step) ds
            | None => ([], None)
            end) as [vs failure]. cbn [fst] in Hvs.
  intros [->|[Hin|Hin]%elem_of_app]%elem_of_cons; [done| |].
  - by apply list_elem_of_fmap in Hin as (v & -> & _).
  - destruct failure; [by apply elem_of_nil in Hin|].
    apply list_elem_of_fmap in Hin as (v & -> & Hv).
    destruct (Hvs v Hv) as [-> ?]. done.
Qed.

(** X12. In a walk that returns, every visitor that was made is handed to
    a visitor method exactly once, in the order the visitors were made;
    the method is called with the node the visitor was made for, and the
    visitor's class overrides it. *)
Theorem every_visitor_called_once :
  visitSchema_run.1 = Ok tt →
  calledVisitors (Directives.trace visitSchema_run.2)
  = Directives.constructed (Directives.trace visitSchema_run.2)
  ∧ Forall (λ event,
              match event with
              | Directives.Called m v type _ =>
                  type = visitor_visitedType v
                  ∧ Directives.shouldCall (visitor_class v) m = true
              | _ => True
              end)
           (Directives.trace visitSchema_run.2).
Proof.
  intros Hok.
  destruct (Directives.visitSchema_run_outcome parseInt parseFloat
              getArgumentValues schema directiveVisitors) as (Hr & Htrace & _).
  rewrite Hok in Hr.
  destruct (outcome (schemaSteps schema)).2 as [e|] eqn:Hout; [done|].
  apply Directives.outcome_Ok in Hout as [Hevents Hsteps].
  rewrite Htrace, Hevents. clear Hr Htrace Hevents Hok. split.
  - induction Hsteps as [|step steps Hstep _ IH]; [done|].
    cbn [flat_map].
    rewrite calledVisitors_app, Directives.constructed_app, IH.
    by rewrite calledVisitors_stepEvents, Directives.constructed_stepEvents.
  - apply Forall_forall. intros event (step & _ & Hin)%elem_of_flat_map.
    apply stepEvents_Called in Hin. destruct event; try done. tauto.
Qed.

End WalkProperties.

(** ** The resolver of the earlier variant, and the two resolvers side by
    side *)

Section Resolvers.
Variable parseInt : string → Z → float.
Variable parseFloat : string → float.
Variable getArgumentValues : GraphQLDirective → DirectiveNode → Result JSObject.
Variable schema : GraphQLSchema.
Variable directiveVisitors : gmap string VisitorClass.

Local Abbreviation getDirectives :=
  (Part000.getDirectives parseInt parseFloat getArgumentValues schema
     directiveVisitors).
Local Abbreviation getDirectives_node :=
  (Part000.getDirectives_node parseInt parseFloat getArgumentValues schema
     directiveVisitors).
Local Abbreviation getVisitors :=
  (Directives.getVisitors parseInt parseFloat getArgumentValues schema
     directiveVisitors).
Local Abbreviation collect :=
  (Directives.collect parseInt parseFloat getArgumentValues schema
     directiveVisitors).

Lemma getDirectives_loop type m ds acc events vs events' :
  foldE (getDirectives_node type) acc ds events = (Ok vs, events') →
  ∃ new,
    vs = acc ++ new
    ∧ events' = events ++ (Part000.Constructed <$> new)
    ∧ visitor_name <$> new
      = filter (λ n, is_Some (directiveVisitors !! n)) (directive_name <$> ds)
    ∧ Forall (λ v, directiveVisitors !! visitor_name v = Some (visitor_class v)
                   ∧ visitor_visitedType v = type
                   ∧ visitor_schema v = schema) new
    ∧ collect type m ds
      = (filter (λ v, Directives.shouldCall (visitor_class v) m = true) new, None).
Proof.
  revert acc events.
  induction ds as [|d ds IH]; intros acc events.
  - intros [= <- <-]. exists []. by rewrite !app_nil_r.
  - cbn [foldE]. unfold mbind at 1, Eff_bind at 1.
    unfold Part000.getDirectives_node at 1.
    cbn [fmap list_fmap Directives.collect].
    unfold Directives.instantiate at 1.
    destruct (directiveVisitors !! directive_name d) as [cls|] eqn:Hcls.
    2:{ intros H. apply IH in H as (new & -> & -> & Hnames & Hall & Hcollect).
        exists new. split_and!; [done..| |done|done].
        rewrite filter_cons_False; [done|]. rewrite Hcls. by intros [? ?]. }
    unfold mbind at 1, Eff_bind at 1, lift.
    change (Part000.declaredDirectives schema)
      with (Directives.declaredDirectives schema).
    change (Part000.untypedArgs parseInt parseFloat d)
      with (Directives.untypedArgs parseInt parseFloat d).
    destruct (match Directives.declaredDirectives schema !! directive_name d with
              | Some decl => getArgumentValues decl d
              | None => Directives.untypedArgs parseInt parseFloat d
              end) as [args|e]; [|done].
    unfold mbind at 1, Eff_bind at 1. cbn [Part000.log modify mret Eff_ret].
    intros H. apply IH in H as (new & -> & -> & Hnames & Hall & Hcollect).
    exists (mkVisitor cls (directive_name d) args type schema :: new).
    split_and!.
    + by rewrite <- app_assoc.
    + by rewrite <- app_assoc.
    + rewrite filter_cons_True; [|by rewrite Hcls]. cbn. by f_equal.
    + by constructor.
    + rewrite Hcollect. destruct (Directives.shouldCall cls m) eqn:Hcall; cbn [negb].
      * by rewrite filter_cons_True.
      * rewrite filter_cons_False; [done|]. cbn. by rewrite Hcall.
Qed.

(** X15. [getDirectives] of the earlier variant, when it returns: it has
    made one visitor for every occurrence of the node whose name is a key
    of [directiveVisitors], in the order of the occurrences and whatever
    the class overrides, each an instance of the class registered under
    its name; occurrences of other names leave nothing. *)
Theorem getDirectives_one_per_registered_occurrence type ds events vs events' :
  directiveNodes_of type = Some ds →
  getDirectives type events = (Ok vs, events') →
  visitor_name <$> vs
  = filter (λ n, is_Some (directiveVisitors !! n)) (directive_name <$> ds)
  ∧ events' = events ++ Part000.Collected type :: (Part000.Constructed <$> vs)
  ∧ Forall (λ v, directiveVisitors !! visitor_name v = Some (visitor_class v)
                 ∧ visitor_visitedType v = type
                 ∧ visitor_schema v = schema) vs.
Proof.
  intros Hds. unfold Part000.getDirectives. rewrite Hds.
  unfold mbind at 1, Eff_bind at 1. cbn [Part000.log modify].
  intros H. apply (getDirectives_loop type "") in H
    as (new & -> & -> & Hnames & Hall & _).
  cbn [app]. split_and!; [done| |done]. by rewrite <- app_assoc.
Qed.

(** X16. The two resolvers on the same node: whenever [getDirectives] of
    the earlier variant returns, [getVisitors] of the later one returns
    too, with those of the same visitors whose class overrides the method
    asked for, in the same order. *)
Theorem getVisitors_filters_getDirectives type m events vs events' st :
  Directives.consistent directiveVisitors st →
  getDirectives type events = (Ok vs, events') →
  (getVisitors type m st).1
  = Ok (filter (λ v, Directives.shouldCall (visitor_class v) m = true) vs).
Proof.
  intros Hst Hrun.
  destruct (Directives.getVisitors_spec parseInt parseFloat getArgumentValues
              schema directiveVisitors type m st Hst) as (st' & -> & _).
  cbn [fst]. unfold Directives.resolve.
  unfold Part000.getDirectives in Hrun.
  unfold mbind at 1, Eff_bind at 1 in Hrun. cbn [Part000.log modify] in Hrun.
  destruct (directiveNodes_of type) as [ds|].
  - apply (getDirectives_loop type m) in Hrun as (new & -> & _ & _ & _ & ->).
    done.
  - by injection Hrun as <- _.
Qed.
End Resolvers.

(** ** The helper [each] *)

(** X17. [each] on an object, whose keys are distinct: the callback runs
    once for every entry, in the order of the keys, with the value bound
    to the key and the key; and when the callback throws at an entry,
    [each] ends with that exception in the state the callback left, the
    entries after it untouched. *)
Theorem each_runs_callback_per_entry {S V : Type} (obj : list (string * V))
    (callback : V → string → Eff S unit) (s : S) :
  NoDup (obj_keys obj) →
  each obj callback s = forEach obj (λ kv, callback kv.2 kv.1) s
  ∧ ∀ pre kv post s1 s2 e,
      obj = pre ++ kv :: post →
      forEach pre (λ kv, callback kv.2 kv.1) s = (Ok tt, s1) →
      callback kv.2 kv.1 s1 = (Err e, s2) →
      each obj callback s = (Err e, s2).
Proof.
  intros Hnd.
  assert (Heach : each obj callback s
                  = forEach obj (λ kv, callback kv.2 kv.1) s).
  { by rewrite each_entries, (entries_NoDup _ Hnd). }
  split; [done|].
  intros pre kv post s1 s2 e -> Hpre Hkv. rewrite Heach.
  by apply (forEach_abort pre post kv (λ kv, callback kv.2 kv.1) s s1 s2 e).
Qed.

(** ** What a visitor method is called with *)

(** The visitor method of the kind of a node. *)
Definition methodOfNode (type : VisitableType) : string :=
  match type with
  | OfSchema _ => "visitSchema"
  | OfNamedType (ObjectType _) => "visitObject"
  | OfNamedType (InterfaceType _) => "visitInterface"
  | OfNamedType (InputObjectType _) => "visitInputObject"
  | OfNamedType (ScalarType _) => "visitScalar"
  | OfNamedType (UnionType _) => "visitUnion"
  | OfNamedType (EnumType _) => "visitEnum"
  | OfField _ => "visitFieldDefinition"
  | OfInputField _ => "visitInputFieldDefinition"
  | OfArgument _ => "visitArgumentDefinition"
  | OfEnumValue _ => "visitEnumValue"
  end.

(** The second argument of a visitor method names the owners of the
    node: none for the schema and the named types; the type that owns
    the field; the field that owns the argument and the type that owns
    that field; the enum that owns the value. *)
Definition detailsOf (type : VisitableType) (details : Details) : Prop :=
  match type with
  | OfSchema _ | OfNamedType _ => details = NoDetails
  | OfField field =>
      ∃ objectType k,
        details = FieldDetails objectType
        ∧ (k, field) ∈ getFields objectType
  | OfInputField field =>
      ∃ t k,
        details = FieldDetails (InputObjectType t)
        ∧ (k, field) ∈ inputObject_fields t
  | OfArgument arg =>
      ∃ field objectType k args,
        details = ArgumentDetails field objectType
        ∧ (k, field) ∈ getFields objectType
        ∧ field_args field = Some args
        ∧ arg ∈ args
  | OfEnumValue value =>
      ∃ enumType,
        details = EnumValueDetails enumType ∧ value ∈ enum_values enumType
  end.

Lemma fieldSteps_fit type k field step :
  (k, field) ∈ getFields type →
  step ∈ fieldSteps type field →
  step_method step = methodOfNode (step_type step)
  ∧ detailsOf (step_type step) (step_details step).
Proof.
  intros Hfield. unfold fieldSteps. intros [->|Hin]%elem_of_cons.
  - split; [done|]. by exists type, k.
  - destruct (field_args field) as [args|] eqn:Hargs;
      [|by apply elem_of_nil in Hin].
    apply list_elem_of_fmap in Hin as (arg & -> & Harg).
    split; [done|]. by exists field, type, k, args.
Qed.

Lemma namedTypeSteps_fit type step :
  step ∈ namedTypeSteps type →
  step_method step = methodOfNode (step_type step)
  ∧ detailsOf (step_type step) (step_details step).
Proof.
  assert (Hfields :
    step ∈ flat_map (λ kv : string * GraphQLField, fieldSteps type kv.2)
                    (entries (getFields type)) →
    step_method step = methodOfNode (step_type step)
    ∧ detailsOf (step_type step) (step_details step)).
  { intros ([k field] & Hkv & Hstep)%elem_of_flat_map.
    apply entries_subseteq in Hkv. by eapply fieldSteps_fit. }
  destruct type as [t|t|t|t|t|t]; cbn [namedTypeSteps];
    intros [->|Hin]%elem_of_cons; try done.
  - by apply Hfields.
  - by apply Hfields.
  - apply list_elem_of_fmap in Hin as ([k field] & -> & Hkv).
    apply entries_subseteq in Hkv. split; [done|]. by exists t, k.
  - by apply elem_of_nil in Hin.
  - by apply elem_of_nil in Hin.
  - apply list_elem_of_fmap in Hin as (value & -> & Hvalue).
    split; [done|]. by exists t.
Qed.

Lemma schemaSteps_fit s step :
  step ∈ schemaSteps s →
  step_method step = methodOfNode (step_type step)
  ∧ detailsOf (step_type step) (step_details step).
Proof.
  unfold schemaSteps. intros [->|Hin]%elem_of_cons; [done|].
  apply elem_of_flat_map in Hin as (t & _ & Hstep).
  by apply (namedTypeSteps_fit t).
Qed.

Section Dispatch.
Variable parseInt : string → Z → float.
Variable parseFloat : string → float.
Variable getArgumentValues : GraphQLDirective → DirectiveNode → Result JSObject.
Variable schema : GraphQLSchema.
Variable directiveVisitors : gmap string VisitorClass.

Local Abbreviation stepEvents :=
  (Directives.stepEvents parseInt parseFloat getArgumentValues schema
     directiveVisitors).
Local Abbreviation outcome :=
  (Directives.outcome parseInt parseFloat getArgumentValues schema
     directiveVisitors).
Local Abbreviation resolve :=
  (Directives.resolve parseInt parseFloat getArgumentValues schema
     directiveVisitors).
Local Abbreviation stepFailure :=
  (Directives.stepFailure parseInt parseFloat getArgumentValues schema
     directiveVisitors).

Lemma outcome_events steps event :
  event ∈ (outcome steps).1 → ∃ step, step ∈ steps ∧ event ∈ stepEvents step.
Proof.
  induction steps as [|step steps IH]; cbn [Directives.outcome].
  - by intros ?%elem_of_nil.
  - destruct (stepFailure step).
    + cbn [fst]. intros Hin. exists step. split; [by left | done].
    + destruct (outcome steps) as [events failure]. cbn [fst] in *.
      intros [Hin|Hin]%elem_of_app.
      * exists step. split; [by left | done].
      * destruct (IH Hin) as (step' & ? & ?).
        exists step'. split; [by right | done].
Qed.

(** X18. Whatever a walk does, every call of a visitor method it makes
    is a call of the method of the kind of the node passed, on a node of
    the schema, with the owners of that node as second argument: a field
    comes with the type whose field map holds it, an argument with its
    field and that field's type, an enum value with its enum. *)
Theorem calls_fit_the_node m v type details :
  Directives.Called m v type details
    ∈ Directives.trace
        (Directives.visitSchema_run parseInt parseFloat getArgumentValues
           schema directiveVisitors).2 →
  m = methodOfNode type
  ∧ type ∈ nodes_of_schema schema
  ∧ detailsOf type details.
Proof.
  destruct (Directives.visitSchema_run_outcome parseInt parseFloat
              getArgumentValues schema directiveVisitors) as (_ & -> & _).
  intros (step & Hstep & Hin)%outcome_events.
  pose proof (schemaSteps_fit _ _ Hstep) as [Hm Hd].
  pose proof (schemaSteps_nodes _ _ Hstep) as Hnode.
  unfold Directives.stepEvents in Hin.
  destruct (resolve (step_type step) (step_method step)) as [vs failure].
  apply elem_of_cons in Hin as [?|[Hin|Hin]%elem_of_app]; [done| |].
  - by apply list_elem_of_fmap in Hin as (? & ? & _).
  - destruct failure; [by apply elem_of_nil in Hin|].
    apply list_elem_of_fmap in Hin as (v' & [= -> -> -> ->] & _). done.
Qed.

Local Abbreviation runStep :=
  (Part000.runStep parseInt parseFloat getArgumentValues schema
     directiveVisitors).

Lemma constructed_Constructed_000 (vs : list Visitor) :
  Part000.constructed (Part000.Constructed <$> vs) = vs.
Proof. induction vs as [|v vs IH]; [done|]. cbn. by f_equal. Qed.

Lemma runStep_Ok step events events' :
  runStep step events = (Ok tt, events') →
  ∃ vs,
    Part000.constructed events' = Part000.constructed events ++ vs
    ∧ Forall (λ v, visitor_visitedType v = step_type step) vs
    ∧ resolve (step_type step) (step_method step)
      = (filter (λ v, Directives.shouldCall (visitor_class v)
                        (step_method step) = true) vs, None).
Proof.
  unfold Part000.runStep, Part000.forEachDirective.
  unfold mbind at 1, Eff_bind at 1.
  destruct (Part000.getDirectives _ _ _ _ _ (step_type step) events)
    as [[vs|e] events1] eqn:Hget; [|done].
  intros Hcalls.
  assert (Hevents' : Part000.constructed events'
                     = Part000.constructed events1).
  { clear Hget. revert events1 Hcalls.
    induction vs as [|v vs IH]; intros events1.
    - by intros [= <-].
    - cbn [forEach]. unfold mbind at 1, Eff_bind at 1.
      cbn [Part000.log modify]. intros H%IH. rewrite H.
      unfold Part000.constructed. rewrite omap_app. cbn. by rewrite app_nil_r. }
  rewrite Hevents'. unfold Part000.getDirectives in Hget.
  unfold mbind at 1, Eff_bind at 1 in Hget. cbn [Part000.log modify] in Hget.
  unfold Directives.resolve.
  destruct (directiveNodes_of (step_type step)) as [ds|].
  - apply (getDirectives_loop _ _ _ _ _ _ (step_method step)) in Hget
      as (new & -> & -> & _ & Hall & Hcollect).
    exists new. split_and!; [|by eapply Forall_impl; [exact Hall|]; intros ? (_ & ? & _)|done].
    unfold Part000.constructed. rewrite !omap_app. cbn.
    rewrite app_nil_r. f_equal. apply constructed_Constructed_000.
  - injection Hget as <- <-. exists []. split_and!; [|done..].
    unfold Part000.constructed. rewrite omap_app. cbn. by rewrite !app_nil_r.
Qed.

Lemma forEach_runStep_Ok steps events events' :
  Forall (λ step, step_method step = methodOfNode (step_type step)) steps →
  forEach steps runStep events = (Ok tt, events') →
  ∃ vs,
    Part000.constructed events' = Part000.constructed events ++ vs
    ∧ Forall (λ step, stepFailure step = None) steps
    ∧ flat_map (λ step, (resolve (step_type step) (step_method step)).1) steps
      = filter (λ v, Directives.shouldCall (visitor_class v)
                       (methodOfNode (visitor_visitedType v)) = true) vs.
Proof.
  intros Hfit. revert events.
  induction Hfit as [|step steps Hstep _ IH]; intros events.
  - intros [= <-]. exists []. by rewrite app_nil_r.
  - cbn [forEach]. unfold mbind at 1, Eff_bind at 1.
    destruct (runStep step events) as [[[]|e] events1] eqn:Hrun; [|done].
    intros (vs2 & Hc2 & Hok2 & Hflat2)%IH.
    apply runStep_Ok in Hrun as (vs1 & Hc1 & Htypes & Hres).
    exists (vs1 ++ vs2). split_and!.
    + by rewrite Hc2, Hc1, <- app_assoc.
    + constructor; [|done]. unfold Directives.stepFailure. by rewrite Hres.
    + cbn [flat_map]. rewrite Hflat2, Hres, filter_app. cbn [fst]. f_equal.
      clear -Htypes Hstep. induction Htypes as [|v vs Hv _ IHvs]; [done|].
      rewrite !filter_cons, Hv, <- Hstep, IHvs. done.
Qed.

(** X19. The two walks side by side.  Whenever the walk of the earlier
    variant returns, the walk of [directives.ts] returns too, and the
    visitors it makes are, in the same order, those of the earlier walk
    whose class overrides the method of the kind of their node: the later
    variant leaves out the visitors that would only have run an inherited
    stub. *)
Theorem later_walk_filters_earlier_walk :
  (Part000.visitSchema parseInt parseFloat getArgumentValues schema
     directiveVisitors).1 = Ok tt →
  (Directives.visitSchema_run parseInt parseFloat getArgumentValues schema
     directiveVisitors).1 = Ok tt
  ∧ Directives.constructed
      (Directives.trace
         (Directives.visitSchema_run parseInt parseFloat getArgumentValues
            schema directiveVisitors).2)
    = filter (λ v, Directives.shouldCall (visitor_class v)
                     (methodOfNode (visitor_visitedType v)) = true)
             (Part000.constructed
                (Part000.visitSchema parseInt parseFloat getArgumentValues
                   schema directiveVisitors).2).
Proof.
  unfold Part000.visitSchema. rewrite Part000.visit_runSteps.
  destruct (forEach (schemaSteps schema) runStep []) as [[[]|e] events'] eqn:Hrun;
    [|done].
  intros _. cbn [snd].
  apply forEach_runStep_Ok in Hrun as (vs & Hc & Hok & Hflat).
  2:{ apply Forall_forall. intros step Hstep.
      by destruct (schemaSteps_fit _ _ Hstep). }
  cbn [app Part000.constructed omap list_omap] in Hc.
  destruct (Directives.visitSchema_run_outcome parseInt parseFloat
              getArgumentValues schema directiveVisitors) as (Hr & Htrace & _).
  assert (Hout : outcome (schemaSteps schema)
                 = (flat_map stepEvents (schemaSteps schema), None)).
  { clear -Hok. induction Hok as [|step steps Hstep _ IH]; [done|].
    cbn [Directives.outcome flat_map]. by rewrite Hstep, IH. }
  rewrite Hr, Htrace, Hout. cbn [fst snd]. split; [done|].
  rewrite Hc, <- Hflat. clear.
  induction (schemaSteps schema) as [|step steps IH]; [done|].
  cbn [flat_map].
  by rewrite Directives.constructed_app, Directives.constructed_stepEvents, IH.
Qed.
End Dispatch.

(** ** The further properties at the example schemas *)

(** [scalar Date @deprecated(reason: $why) @length(max: $n)]: no class
    is registered for [deprecated], and the class registered for [length]
    does not override [visitScalar]. *)
Definition DateScalar : GraphQLScalarType :=
  mkScalarType "Date"
    (withDirectives
       [ mkDirectiveNode "deprecated"
           [mkArgumentNode "reason" (VariableNode "why")];
         mkDirectiveNode "length" [mkArgumentNode "max" (VariableNode "n")] ]).

Lemma getLocations_derived_after_parent_witness :
  Directives.getLocations UnionVisitor (Directives.getLocations ObjectVisitor ∅).2
  = Directives.getLocations ObjectVisitor ∅.
Proof.
  refine (getLocations_derived_after_parent 1 ObjectVisitor ["visitUnion"] ∅ _ _).
  - reflexivity.
  - cbn. lia.
Defined.

Lemma getVisitors_skips_without_decoding_witness :
  Directives.getVisitors exampleParseInt exampleParseFloat exampleCoercer
    exampleSchema exampleVisitors (OfNamedType (ScalarType DateScalar))
    "visitScalar" (Directives.initialState exampleVisitors)
  = (Ok [],
     Directives.logged (Directives.initialState exampleVisitors)
       [Directives.Resolved "visitScalar" (OfNamedType (ScalarType DateScalar))]).
Proof.
  refine (getVisitors_skips_without_decoding exampleParseInt exampleParseFloat
            exampleCoercer exampleSchema exampleVisitors
            (OfNamedType (ScalarType DateScalar)) "visitScalar"
            (Directives.initialState exampleVisitors)
            [ mkDirectiveNode "deprecated"
                [mkArgumentNode "reason" (VariableNode "why")];
              mkDirectiveNode "length"
                [mkArgumentNode "max" (VariableNode "n")] ] _ _).
  - reflexivity.
  - repeat constructor.
Defined.

Lemma visitSchema_index_keys_witness :
  ∃ created,
    Directives.visitSchema exampleParseInt exampleParseFloat exampleCoercer
      exampleSchema exampleVisitors = Ok created
    ∧ dom created = dom exampleVisitors
    ∧ ∀ k, (is_Some (created !! k) ↔ is_Some (exampleVisitors !! k)).
Proof.
  pose (created :=
          match Directives.visitSchema exampleParseInt exampleParseFloat
                  exampleCoercer exampleSchema exampleVisitors with
          | Ok created => created
          | Err _ => ∅
          end).
  assert (Hrun : Directives.visitSchema exampleParseInt exampleParseFloat
                   exampleCoercer exampleSchema exampleVisitors = Ok created).
  { vm_compute. reflexivity. }
  exists created. split; [exact Hrun|].
  exact (visitSchema_index_keys exampleParseInt exampleParseFloat exampleCoercer
           exampleSchema exampleVisitors created Hrun).
Defined.

Lemma constructed_visitor_provenance_witness :
  length (Directives.constructed
            (Directives.trace
               (Directives.visitSchema_run exampleParseInt exampleParseFloat
                  exampleCoercer exampleSchema exampleVisitors).2)) = 3
  ∧ Forall
      (λ v,
         exampleVisitors !! visitor_name v = Some (visitor_class v)
         ∧ visitor_schema v = exampleSchema
         ∧ visitor_visitedType v ∈ nodes_of_schema exampleSchema
         ∧ ∃ step,
             step ∈ schemaSteps exampleSchema
             ∧ step_type step = visitor_visitedType v
             ∧ overrides (visitor_class v) (step_method step) = true)
      (Directives.constructed
         (Directives.trace
            (Directives.visitSchema_run exampleParseInt exampleParseFloat
               exampleCoercer exampleSchema exampleVisitors).2)).
Proof.
  split; [vm_compute; reflexivity|].
  apply Forall_forall. intros v Hv.
  exact (constructed_visitor_provenance exampleParseInt exampleParseFloat
           exampleCoercer exampleSchema exampleVisitors v Hv).
Defined.

Lemma every_visitor_called_once_witness :
  calledVisitors
    (Directives.trace
       (Directives.visitSchema_run exampleParseInt exampleParseFloat
          exampleCoercer exampleSchema exampleVisitors).2)
  = Directives.constructed
      (Directives.trace
         (Directives.visitSchema_run exampleParseInt exampleParseFloat
            exampleCoercer exampleSchema exampleVisitors).2).
Proof.
  refine (proj1 (every_visitor_called_once exampleParseInt exampleParseFloat
                   exampleCoercer exampleSchema exampleVisitors _)).
  vm_compute. reflexivity.
Defined.

Lemma getDirectives_one_per_registered_occurrence_witness :
  ∃ vs events',
    Part000.getDirectives exampleParseInt exampleParseFloat exampleCoercer
      exampleSchema exampleVisitors (OfField titleField) []
    = (Ok vs, events')
    ∧ visitor_name <$> vs
      = filter (λ n, is_Some (exampleVisitors !! n)) ["length"; "upper"]
    ∧ events'
      = [] ++ Part000.Collected (OfField titleField)
           :: (Part000.Constructed <$> vs)
    ∧ Forall (λ v, exampleVisitors !! visitor_name v = Some (visitor_class v)
                   ∧ visitor_visitedType v = OfField titleField
                   ∧ visitor_schema v = exampleSchema) vs.
Proof.
  pose (run := Part000.getDirectives exampleParseInt exampleParseFloat
                 exampleCoercer exampleSchema exampleVisitors
                 (OfField titleField) []).
  pose (vs := match run.1 with Ok vs => vs | Err _ => [] end).
  assert (Hrun : run = (Ok vs, run.2)) by (vm_compute; reflexivity).
  exists vs, run.2. split; [exact Hrun|].
  exact (getDirectives_one_per_registered_occurrence exampleParseInt
           exampleParseFloat exampleCoercer exampleSchema exampleVisitors
           (OfField titleField)
           [ mkDirectiveNode "length" [mkArgumentNode "max" (IntValue "50")];
             mkDirectiveNode "upper" [] ]
           [] vs run.2 eq_refl Hrun).
Defined.

Lemma getVisitors_filters_getDirectives_witness :
  (Directives.getVisitors exampleParseInt exampleParseFloat exampleCoercer
     exampleSchema exampleVisitors (OfNamedType (ObjectType Book))
     "visitObject" (Directives.initialState exampleVisitors)).1
  = Ok (filter (λ v, Directives.shouldCall (visitor_class v) "visitObject" = true)
               [mkVisitor FieldVisitor "length" []
                  (OfNamedType (ObjectType Book)) exampleSchema]).
Proof.
  refine (getVisitors_filters_getDirectives exampleParseInt exampleParseFloat
            exampleCoercer exampleSchema exampleVisitors
            (OfNamedType (ObjectType Book)) "visitObject" []
            [mkVisitor FieldVisitor "length" []
               (OfNamedType (ObjectType Book)) exampleSchema]
            [ Part000.Collected (OfNamedType (ObjectType Book));
              Part000.Constructed
                (mkVisitor FieldVisitor "length" []
                   (OfNamedType (ObjectType Book)) exampleSchema) ]
            (Directives.initialState exampleVisitors) _ _).
  - apply Directives.consistent_initialState.
  - vm_compute. reflexivity.
Defined.

(** A callback that notes the key it was called with. *)
Definition noteKey (value : nat) (key : string) : Eff (list string) unit :=
  modify (λ keys, keys ++ [key]).

Lemma each_runs_callback_per_entry_witness :
  each [("a", 1); ("b", 2)] noteKey []
  = forEach [("a", 1); ("b", 2)] (λ kv, noteKey kv.2 kv.1) [].
Proof.
  refine (proj1 (each_runs_callback_per_entry [("a", 1); ("b", 2)] noteKey [] _)).
  apply (bool_decide_unpack _). vm_compute. exact I.
Defined.

Lemma calls_fit_the_node_witness :
  Forall (λ event,
            match event with
            | Directives.Called m v type details =>
                m = methodOfNode type
                ∧ type ∈ nodes_of_schema exampleSchema
                ∧ detailsOf type details
            | _ => True
            end)
         (Directives.trace
            (Directives.visitSchema_run exampleParseInt exampleParseFloat
               exampleCoercer exampleSchema exampleVisitors).2)
  ∧ length (calledVisitors
              (Directives.trace
                 (Directives.visitSchema_run exampleParseInt exampleParseFloat
                    exampleCoercer exampleSchema exampleVisitors).2)) = 3.
Proof.
  split; [|vm_compute; reflexivity].
  apply Forall_forall. intros event Hin.
  destruct event as [| |m v type details]; [exact I | exact I |].
  exact (calls_fit_the_node exampleParseInt exampleParseFloat exampleCoercer
           exampleSchema exampleVisitors m v type details Hin).
Defined.

Lemma later_walk_filters_earlier_walk_witness :
  (Directives.visitSchema_run exampleParseInt exampleParseFloat exampleCoercer
     exampleSchema exampleVisitors).1 = Ok tt
  ∧ Directives.constructed
      (Directives.trace
         (Directives.visitSchema_run exampleParseInt exampleParseFloat
            exampleCoercer exampleSchema exampleVisitors).2)
    = filter (λ v, Directives.shouldCall (visitor_class v)
                     (methodOfNode (visitor_visitedType v)) = true)
             (Part000.constructed
                (Part000.visitSchema exampleParseInt exampleParseFloat
                   exampleCoercer exampleSchema exampleVisitors).2).
Proof.
  refine (later_walk_filters_earlier_walk exampleParseInt exampleParseFloat
            exampleCoercer exampleSchema exampleVisitors _).
  vm_compute. reflexivity.
Defined.

Example earlier_walk_makes_more_visitors :
  length (Part000.constructed
            (Part000.visitSchema exampleParseInt exampleParseFloat
               exampleCoercer exampleSchema exampleVisitors).2) = 4
  ∧ length (Directives.constructed
              (Directives.trace
                 (Directives.visitSchema_run exampleParseInt exampleParseFloat
                    exampleCoercer exampleSchema exampleVisitors).2)) = 3.
Proof. split; vm_compute; reflexivity. Qed.

(** * The walk over the live schema

    [Directives] above records the call of a visitor method and goes on
    with the schema as it was.  Here the visitors' code runs.  The schema
    objects are objects of graphql-js, held by reference: what the walk
    reads from them it reads when the code reads it, from the objects as
    the visitors have left them.  A visitor's constructor or method may
    change any object and may throw. *)

Module Live.

Local Ltac in_list := repeat first [by left | right].

(** The classes [visit] tests with [instanceof]; an object is of one
    class for life. *)
Inductive Class : Type :=
  | SchemaClass
  | ObjectTypeClass
  | InterfaceTypeClass
  | InputObjectTypeClass
  | ScalarTypeClass
  | UnionTypeClass
  | EnumTypeClass
  | OtherClass.

(** [GraphQLNamedType], as far as [visit] tells the named types apart. *)
Definition namedType (class : Class) : bool :=
  match class with
  | SchemaClass | OtherClass => false
  | _ => true
  end.

(** The visitor methods for the named types. *)
Definition typeMethods : list string :=
  [ "visitObject"; "visitInterface"; "visitInputObject"; "visitScalar";
    "visitUnion"; "visitEnum" ].

Definition failure {A : Type} (result : Result A) : option Error :=
  match result with
  | Ok _ => None
  | Err e => Some e
  end.

Section Objects.
(** References to objects, and the state of all objects. *)
Variable Ref : Type.
Variable World : Type.

(** [new visitorClass({ name, args, visitedType, schema })] *)
Record Visitor : Type := mkVisitor {
  visitor_class : VisitorClass;
  visitor_name : string;
  visitor_args : JSObject;
  visitor_visitedType : Ref;
  visitor_schema : Ref
}.

(** The second argument a visitor method receives. *)
Inductive Details : Type :=
  | NoDetails
  | FieldDetails (objectType : Ref)
  | ArgumentDetails (field : Ref) (objectType : Ref)
  | EnumValueDetails (enumType : Ref).

(** What the walk leaves behind.  [Resolved] marks an entry into
    [getVisitors] and holds what [type.astNode && type.astNode.directives]
    was then; [Constructed] follows a [new visitorClass(...)] that
    returned; [Called] marks a call [d[methodName](type,
    ...additionalArgs)]. *)
Inductive Event : Type :=
  | Resolved (methodName : string) (type : Ref)
      (directiveNodes : option (list DirectiveNode))
  | Constructed (visitor : Visitor)
  | Called (methodName : string) (visitor : Visitor) (type : Ref)
      (details : Details).

Record WalkState : Type := mkWalkState {
  world : World;
  createdVisitors : gmap string (list Visitor);
  trace : list Event
}.

(** *** What the walk reads

    The accessors of graphql-js and the property reads of the walk, each
    on the objects as they are in a world.  [None] is [undefined], or any
    falsy value where the code only tests the value. *)

(** [type instanceof ...] *)
Variable class_of : Ref → Class.
(** [schema.getDirectives()] *)
Variable getDirectives : World → Ref → list GraphQLDirective.
(** [schema.getTypeMap()], [type.getFields()], [type.getValues()]: the
    object or array the accessor returns. *)
Variable getTypeMap : World → Ref → Ref.
Variable getFields : World → Ref → Ref.
Variable getValues : World → Ref → Ref.
(** [field.args] *)
Variable field_args : World → Ref → option Ref.
(** [type.astNode && type.astNode.directives] *)
Variable directiveNodes : World → Ref → option (list DirectiveNode).
(** [Object.keys(obj)] and [obj[key]] *)
Variable keys : World → Ref → list string.
Variable get : World → Ref → string → option Ref.
(** [array.length] and [array[k]]; the outer [None] is an index that is
    not in the array. *)
Variable array_length : World → Ref → nat.
Variable array_get : World → Ref → nat → option (option Ref).

(** *** The caller's code

    The constructor of the visitor's class, run on the object that holds
    the four properties, and [d[methodName](type, ...additionalArgs)]. *)
Variable construct : Visitor → World → Result unit * World.
Variable method : Visitor → string → Ref → Details → World → Result unit * World.

Variable parseInt : string → Z → float.
Variable parseFloat : string → float.
Variable getArgumentValues : GraphQLDirective → DirectiveNode → Result JSObject.
Variable schema : Ref.
Variable directiveVisitors : gmap string VisitorClass.

Definition log (event : Event) : Eff WalkState unit :=
  modify (λ st, mkWalkState (world st) (createdVisitors st) (trace st ++ [event])).

(** The caller's code runs on the objects. *)
Definition run (code : World → Result unit * World) : Eff WalkState unit :=
  λ st, ((code (world st)).1,
         mkWalkState (code (world st)).2 (createdVisitors st) (trace st)).

(** A read of the objects as they are now. *)
Definition withWorld {A : Type} (f : World → Eff WalkState A)
  : Eff WalkState A :=
  λ st, f (world st) st.

(** [createdVisitors[visitor.name].push(visitor)] *)
Definition push_created (visitor : Visitor) : Eff WalkState unit := λ st,
  match createdVisitors st !! visitor_name visitor with
  | Some visitors =>
      (Ok tt,
       mkWalkState (world st)
         (<[visitor_name visitor := visitors ++ [visitor]]> (createdVisitors st))
         (trace st))
  | None => (Err (TypeError "Cannot read property 'push' of undefined"), st)
  end.

(** The helper [each]: the keys are taken once, each value is read when
    its turn comes. *)
Definition each (obj : Ref) (callback : option Ref → string → Eff WalkState unit)
  : Eff WalkState unit :=
  withWorld (λ w,
    forEach (keys w obj) (λ key,
      withWorld (λ w', callback (get w' obj key) key))).

(** [array.forEach(callback)]: the length is taken once, each element is
    read when its turn comes, an index that is no longer in the array is
    passed over. *)
Definition forEachArray (array : Ref) (callback : option Ref → Eff WalkState unit)
  : Eff WalkState unit :=
  withWorld (λ w,
    forEach (seq 0 (array_length w array)) (λ k,
      withWorld (λ w',
        match array_get w' array k with
        | Some value => callback value
        | None => mret tt
        end))).

Section visit.
(** [declaredDirectives], filled before the walk starts. *)
Variable declaredDirectives : gmap string GraphQLDirective.

(** The callback of [directiveNodes.forEach] in [getVisitors]. *)
Definition getVisitors_node (type : Ref) (methodName : string)
    (visitors : list Visitor) (directiveNode : DirectiveNode)
  : Eff WalkState (list Visitor) :=
  let directiveName := directive_name directiveNode in
  match directiveVisitors !! directiveName with
  | None => mret visitors
  | Some visitorClass =>
      if negb (Directives.shouldCall visitorClass methodName) then mret visitors
      else
        args ← lift
          match declaredDirectives !! directiveName with
          | Some decl => getArgumentValues decl directiveNode
          | None => Directives.untypedArgs parseInt parseFloat directiveNode
          end;
        let visitor := mkVisitor visitorClass directiveName args type schema in
        run (construct visitor);;
        log (Constructed visitor);;
        mret (visitors ++ [visitor])
  end.

(** [getVisitors(type, methodName)]; reading [astNode] of [undefined]
    throws. *)
Definition getVisitors (type : option Ref) (methodName : string)
  : Eff WalkState (list Visitor) :=
  match type with
  | None => lift (Err (TypeError "Cannot read property 'astNode' of undefined"))
  | Some type =>
      withWorld (λ w,
        let directiveNodes := directiveNodes w type in
        log (Resolved methodName type directiveNodes);;
        match directiveNodes with
        | None => mret []
        | Some directiveNodes =>
            visitors ← foldE (getVisitors_node type methodName) [] directiveNodes;
            (if bool_decide (0 < length visitors)
             then forEach visitors push_created
             else mret tt);;
            mret visitors
        end)
  end.

(** [callVisitorMethods]: when the loop runs, [getVisitors] has returned
    and [type] is an object. *)
Definition callVisitorMethods (methodName : string) (type : option Ref)
    (additionalArgs : Details) : Eff WalkState unit :=
  visitors ← getVisitors type methodName;
  forEach visitors (λ d,
    match type with
    | Some type =>
        log (Called methodName d type additionalArgs);;
        run (method d methodName type additionalArgs)
    | None => mret tt
    end).

Definition visitFields (type : Ref) : Eff WalkState unit :=
  withWorld (λ w,
    each (getFields w type) (λ field _,
      callVisitorMethods "visitFieldDefinition" field (FieldDetails type);;
      match field with
      | Some field =>
          withWorld (λ w',
            match field_args w' field with
            | Some args =>
                forEachArray args (λ arg,
                  callVisitorMethods "visitArgumentDefinition" arg
                    (ArgumentDetails field type))
            | None => mret tt
            end)
      | None => mret tt
      end)).

(** The branches of [visit] after the first [instanceof] test.  The
    values of a type map are named types ([TypeMap] in graphql-js), so
    the recursive call of [visit] does not meet a schema. *)
Definition visitNamedType (type : option Ref) : Eff WalkState unit :=
  match type with
  | None => mret tt
  | Some namedType =>
      match class_of namedType with
      | ObjectTypeClass =>
          callVisitorMethods "visitObject" type NoDetails;;
          visitFields namedType
      | InterfaceTypeClass =>
          callVisitorMethods "visitInterface" type NoDetails;;
          visitFields namedType
      | InputObjectTypeClass =>
          callVisitorMethods "visitInputObject" type NoDetails;;
          withWorld (λ w,
            each (getFields w namedType) (λ field _,
              callVisitorMethods "visitInputFieldDefinition" field
                (FieldDetails namedType)))
      | ScalarTypeClass => callVisitorMethods "visitScalar" type NoDetails
      | UnionTypeClass => callVisitorMethods "visitUnion" type NoDetails
      | EnumTypeClass =>
          callVisitorMethods "visitEnum" type NoDetails;;
          withWorld (λ w,
            forEachArray (getValues w namedType) (λ value,
              callVisitorMethods "visitEnumValue" value
                (EnumValueDetails namedType)))
      | SchemaClass | OtherClass => mret tt
      end
  end.

Definition visit (type : option Ref) : Eff WalkState unit :=
  match type with
  | Some object =>
      match class_of object with
      | SchemaClass =>
          callVisitorMethods "visitSchema" type NoDetails;;
          withWorld (λ w,
            each (getTypeMap w object) (λ namedType typeName,
              if negb (String.prefix "__" typeName)
              then visitNamedType namedType
              else mret tt))
      | _ => visitNamedType type
      end
  | None => mret tt
  end.


(** *** One node: the resolver and the calls, as functions of the objects *)

(** What the resolver's callback computes for one occurrence before it
    runs the constructor. *)
Definition instantiate (type : Ref) (methodName : string)
    (directiveNode : DirectiveNode) : Result (option Visitor) :=
  let directiveName := directive_name directiveNode in
  match directiveVisitors !! directiveName with
  | None => Ok None
  | Some visitorClass =>
      if negb (Directives.shouldCall visitorClass methodName) then Ok None
      else
        match
          match declaredDirectives !! directiveName with
          | Some decl => getArgumentValues decl directiveNode
          | None => Directives.untypedArgs parseInt parseFloat directiveNode
          end
        with
        | Ok args =>
            Ok (Some (mkVisitor visitorClass directiveName args type schema))
        | Err e => Err e
        end
  end.

(** The visitors constructed before the first exception, that exception,
    and the objects as the constructors leave them. *)
Fixpoint collect (type : Ref) (methodName : string)
    (directiveNodes : list DirectiveNode) (w : World)
  : list Visitor * option Error * World :=
  match directiveNodes with
  | [] => ([], None, w)
  | directiveNode :: rest =>
      match instantiate type methodName directiveNode with
      | Ok None => collect type methodName rest w
      | Ok (Some visitor) =>
          match (construct visitor w).1 with
          | Ok _ =>
              let r := collect type methodName rest (construct visitor w).2 in
              (visitor :: r.1.1, r.1.2, r.2)
          | Err e => ([], Some e, (construct visitor w).2)
          end
      | Err e => ([], Some e, w)
      end
  end.

(** The visitors called, up to and with the first whose method throws. *)
Fixpoint dispatch (methodName : string) (type : Ref) (details : Details)
    (visitors : list Visitor) (w : World)
  : list Visitor * option Error * World :=
  match visitors with
  | [] => ([], None, w)
  | d :: rest =>
      match (method d methodName type details w).1 with
      | Ok _ =>
          let r := dispatch methodName type details rest
                     (method d methodName type details w).2 in
          (d :: r.1.1, r.1.2, r.2)
      | Err e => ([d], Some e, (method d methodName type details w).2)
      end
  end.

(** The occurrences the resolver goes through. *)
Definition occurrences (directiveNodes : option (list DirectiveNode))
  : list DirectiveNode :=
  match directiveNodes with
  | Some directiveNodes => directiveNodes
  | None => []
  end.

(** One call of [callVisitorMethods] on an object: the events it leaves,
    the exception it ends with, and the objects afterwards. *)
Definition stepOutcome (methodName : string) (type : Ref) (details : Details)
    (w : World) : list Event * option Error * World :=
  let directiveNodes := directiveNodes w type in
  let made := collect type methodName (occurrences directiveNodes) w in
  match made.1.2 with
  | Some e =>
      (Resolved methodName type directiveNodes :: (Constructed <$> made.1.1),
       Some e, made.2)
  | None =>
      let called := dispatch methodName type details made.1.1 made.2 in
      (Resolved methodName type directiveNodes
       :: (Constructed <$> made.1.1)
       ++ ((λ d, Called methodName d type details) <$> called.1.1),
       called.1.2, called.2)
  end.

(** Every key of [directiveVisitors] has its array in [createdVisitors]. *)
Definition goodKeys (st : WalkState) : Prop :=
  ∀ k, is_Some (directiveVisitors !! k) → is_Some (createdVisitors st !! k).

Definition result_of (failure : option Error) : Result unit :=
  match failure with
  | None => Ok tt
  | Some e => Err e
  end.

Lemma bind_eval {A B : Type} (m : Eff WalkState A) (f : A → Eff WalkState B) st :
  (m ≫= f) st
  = match m st with
    | (Ok a, st') => f a st'
    | (Err e, st') => (Err e, st')
    end.
Proof. done. Qed.

Lemma getVisitors_node_unfold type m visitors d st :
  getVisitors_node type m visitors d st
  = match instantiate type m d with
    | Ok None => (Ok visitors, st)
    | Ok (Some v) =>
        match (construct v (world st)).1 with
        | Ok _ =>
            (Ok (visitors ++ [v]),
             mkWalkState (construct v (world st)).2 (createdVisitors st)
               (trace st ++ [Constructed v]))
        | Err e =>
            (Err e,
             mkWalkState (construct v (world st)).2 (createdVisitors st)
               (trace st))
        end
    | Err e => (Err e, st)
    end.
Proof.
  unfold getVisitors_node, instantiate.
  destruct (directiveVisitors !! directive_name d) as [cls|]; [|done].
  destruct (Directives.shouldCall cls m); cbn [negb]; [|done].
  unfold mbind, Eff_bind, lift.
  destruct (match declaredDirectives !! directive_name d with
            | Some decl => getArgumentValues decl d
            | None => Directives.untypedArgs parseInt parseFloat d
            end) as [args|e]; [|done].
  unfold run. cbn [fst snd world createdVisitors trace].
  by destruct (construct _ (world st)).1 as [[]|e].
Qed.

Lemma foldE_collect_live type m ds acc st :
  foldE (getVisitors_node type m) acc ds st
  = (match (collect type m ds (world st)).1.2 with
     | None => Ok (acc ++ (collect type m ds (world st)).1.1)
     | Some e => Err e
     end,
     mkWalkState (collect type m ds (world st)).2 (createdVisitors st)
       (trace st ++ (Constructed <$> (collect type m ds (world st)).1.1))).
Proof.
  revert acc st. induction ds as [|d ds IH]; intros acc st.
  - cbn. rewrite !app_nil_r. by destruct st.
  - cbn [foldE collect]. unfold mbind at 1, Eff_bind at 1.
    rewrite getVisitors_node_unfold.
    destruct (instantiate type m d) as [[v|]|e].
    + destruct (construct v (world st)).1 as [[]|e].
      * rewrite IH. cbn [world createdVisitors trace fst snd].
        rewrite <- !app_assoc. cbn [fmap list_fmap app].
        by destruct (collect type m ds _).1.2.
      * cbn. by rewrite app_nil_r.
    + apply IH.
    + cbn. rewrite app_nil_r. by destruct st.
Qed.

Lemma instantiate_name type m d v :
  instantiate type m d = Ok (Some v) →
  is_Some (directiveVisitors !! visitor_name v).
Proof.
  unfold instantiate.
  destruct (directiveVisitors !! directive_name d) as [cls|] eqn:Hcls; [|done].
  destruct (Directives.shouldCall cls m); cbn [negb]; [|done].
  destruct (match declaredDirectives !! directive_name d with
            | Some decl => getArgumentValues decl d
            | None => Directives.untypedArgs parseInt parseFloat d
            end); [|done].
  intros [= <-]. cbn. by rewrite Hcls.
Qed.

Lemma collect_names type m ds w v :
  v ∈ (collect type m ds w).1.1 →
  is_Some (directiveVisitors !! visitor_name v).
Proof.
  revert w. induction ds as [|d ds IH]; intros w; cbn [collect].
  - by intros ?%elem_of_nil.
  - destruct (instantiate type m d) as [[v'|]|e] eqn:Hd.
    + destruct (construct v' w).1 as [[]|e]; cbn [fst snd].
      * intros [->|Hin]%elem_of_cons; [by eapply instantiate_name | by eapply IH].
      * by intros ?%elem_of_nil.
    + apply IH.
    + by intros ?%elem_of_nil.
Qed.

Lemma forEach_push_created_live visitors st :
  (∀ v, v ∈ visitors → is_Some (directiveVisitors !! visitor_name v)) →
  goodKeys st →
  ∃ created,
    forEach visitors push_created st
    = (Ok tt, mkWalkState (world st) created (trace st))
    ∧ goodKeys (mkWalkState (world st) created (trace st)).
Proof.
  revert st. induction visitors as [|v vs IH]; intros st Hnames Hkeys.
  - exists (createdVisitors st). by destruct st.
  - cbn [forEach]. unfold mbind, Eff_bind, push_created at 1.
    destruct (Hkeys (visitor_name v)) as [held Hheld]; [apply Hnames; by left|].
    rewrite Hheld.
    destruct (IH (mkWalkState (world st)
                    (<[visitor_name v := held ++ [v]]> (createdVisitors st))
                    (trace st))) as (created & Hrun & Hgood).
    + intros v' Hv'. apply Hnames. by right.
    + intros k Hk. cbn. destruct (decide (visitor_name v = k)) as [->|Hne].
      * rewrite lookup_insert_eq. by eexists.
      * rewrite lookup_insert_ne by done. by apply Hkeys.
    + exists created. by rewrite Hrun.
Qed.

Lemma forEach_dispatch m type details visitors st :
  forEach visitors (λ d,
    log (Called m d type details);; run (method d m type details)) st
  = (result_of (dispatch m type details visitors (world st)).1.2,
     mkWalkState (dispatch m type details visitors (world st)).2
       (createdVisitors st)
       (trace st ++ ((λ d, Called m d type details)
                       <$> (dispatch m type details visitors (world st)).1.1))).
Proof.
  revert st. induction visitors as [|d ds IH]; intros st.
  - cbn. rewrite app_nil_r. by destruct st.
  - cbn [forEach dispatch]. rewrite !bind_eval.
    cbn [log modify run fst snd world createdVisitors trace].
    destruct (method d m type details (world st)).1 as [[]|e].
    + rewrite IH. cbn [world createdVisitors trace fst snd fmap list_fmap].
      by rewrite <- app_assoc.
    + done.
Qed.

Lemma getVisitors_outcome m type st :
  goodKeys st →
  let made := collect type m (occurrences (directiveNodes (world st) type))
                (world st) in
  ∃ created,
    getVisitors (Some type) m st
    = (match made.1.2 with
       | None => Ok made.1.1
       | Some e => Err e
       end,
       mkWalkState made.2 created
         (trace st ++ Resolved m type (directiveNodes (world st) type)
                      :: (Constructed <$> made.1.1)))
    ∧ (∀ k, is_Some (directiveVisitors !! k) → is_Some (created !! k)).
Proof.
  intros Hkeys. unfold getVisitors, withWorld. rewrite bind_eval.
  cbn [log modify fst snd world createdVisitors trace].
  destruct (directiveNodes (world st) type) as [ds|]; cbn [occurrences].
  - rewrite bind_eval, foldE_collect_live.
    cbn [world createdVisitors trace app].
    destruct (collect type m ds (world st)) as [[vs failed] w1] eqn:Hc.
    cbn [fst snd]. rewrite <- !app_assoc. cbn [app].
    destruct failed as [e|].
    + exists (createdVisitors st). split; [done | exact Hkeys].
    + set (st1 := mkWalkState w1 (createdVisitors st)
                    (trace st ++ Resolved m type (Some ds) :: (Constructed <$> vs))).
      assert (Hnames : ∀ v, v ∈ vs → is_Some (directiveVisitors !! visitor_name v)).
      { intros v Hv. apply (collect_names type m ds (world st)).
        by rewrite Hc. }
      destruct (forEach_push_created_live vs st1 Hnames Hkeys)
        as (created & Hpush & Hgood).
      exists (if bool_decide (0 < length vs) then created else createdVisitors st).
      rewrite bind_eval. case_bool_decide.
      * rewrite Hpush. split; [done | exact Hgood].
      * split; [done | exact Hkeys].
  - cbn. exists (createdVisitors st). by split; [|exact Hkeys].
Qed.

(** [callVisitorMethods] on an object, in a state where the pushes find
    their arrays. *)
Lemma callVisitorMethods_outcome m type details st :
  goodKeys st →
  ∃ created,
    callVisitorMethods m (Some type) details st
    = (result_of (stepOutcome m type details (world st)).1.2,
       mkWalkState (stepOutcome m type details (world st)).2 created
         (trace st ++ (stepOutcome m type details (world st)).1.1))
    ∧ (∀ k, is_Some (directiveVisitors !! k) → is_Some (created !! k)).
Proof.
  intros Hkeys. unfold callVisitorMethods, stepOutcome. rewrite bind_eval.
  destruct (getVisitors_outcome m type st Hkeys) as (created & -> & Hgood).
  exists created.
  destruct (collect type m (occurrences (directiveNodes (world st) type))
              (world st)) as [[vs failed] w1].
  cbn [fst snd]. destruct failed as [e|]; [done|].
  rewrite forEach_dispatch. cbn [world createdVisitors trace fst snd].
  rewrite <- app_assoc. done.
Qed.

(** *** The walk as a run of such calls *)

(** The visitor methods for what a named type holds. *)
Definition childMethods : list string :=
  [ "visitFieldDefinition"; "visitArgumentDefinition";
    "visitInputFieldDefinition"; "visitEnumValue" ].

(** [Walked M w events failure w']: a part of the walk that starts on the
    objects as they are in [w], leaves [events], ends with [failure] and
    leaves the objects as they are in [w']; each of its calls of
    [callVisitorMethods] is for a method of [M]. *)
Inductive Walked (M : string → Prop)
  : World → list Event → option Error → World → Prop :=
  | walked_nil w : Walked M w [] None w
  | walked_undefined w :
      Walked M w []
        (Some (TypeError "Cannot read property 'astNode' of undefined")) w
  | walked_step w m type details :
      M m →
      Walked M w (stepOutcome m type details w).1.1
        (stepOutcome m type details w).1.2 (stepOutcome m type details w).2
  | walked_seq w events1 w1 events2 failure w2 :
      Walked M w events1 None w1 →
      Walked M w1 events2 failure w2 →
      Walked M w (events1 ++ events2) failure w2.

Definition walks (M : string → Prop) {A : Type} (c : Eff WalkState A) : Prop :=
  ∀ st, goodKeys st →
    ∃ events,
      Walked M (world st) events (Live.failure (c st).1) (world (c st).2)
      ∧ trace (c st).2 = trace st ++ events
      ∧ goodKeys (c st).2.

Lemma Walked_mono (M M' : string → Prop) w events failure w' :
  (∀ m, M m → M' m) →
  Walked M w events failure w' → Walked M' w events failure w'.
Proof.
  intros HM. induction 1; [constructor..|econstructor]; eauto.
Qed.

Lemma walks_mono (M M' : string → Prop) {A : Type} (c : Eff WalkState A) :
  (∀ m, M m → M' m) → walks M c → walks M' c.
Proof.
  intros HM Hc st Hst. destruct (Hc st Hst) as (events & Hw & Ht & Hg).
  exists events. split_and!; [|done..]. by eapply Walked_mono.
Qed.

Lemma walks_ret M {A : Type} (a : A) : walks M (mret a : Eff WalkState A).
Proof.
  intros st Hst. exists []. cbn. rewrite app_nil_r.
  split_and!; [constructor | done | done].
Qed.

Lemma walks_bind M {A B : Type} (c : Eff WalkState A) (f : A → Eff WalkState B) :
  walks M c → (∀ a, walks M (f a)) → walks M (c ≫= f).
Proof.
  intros Hc Hf st Hst. rewrite bind_eval.
  destruct (Hc st Hst) as (events1 & Hw1 & Ht1 & Hg1).
  destruct (c st) as [[a|e] st1]; cbn [fst snd Live.failure] in *.
  - destruct (Hf a st1 Hg1) as (events2 & Hw2 & Ht2 & Hg2).
    exists (events1 ++ events2). split_and!; [|by rewrite Ht2, Ht1, app_assoc|done].
    by eapply walked_seq.
  - by exists events1.
Qed.

Lemma walks_withWorld M {A : Type} (f : World → Eff WalkState A) :
  (∀ w, walks M (f w)) → walks M (withWorld f).
Proof. intros Hf st Hst. by apply Hf. Qed.

Lemma walks_forEach M {A : Type} (l : list A) (f : A → Eff WalkState unit) :
  (∀ x, walks M (f x)) → walks M (forEach l f).
Proof.
  intros Hf. induction l as [|x l IH]; cbn [forEach].
  - apply walks_ret.
  - apply walks_bind; [apply Hf | intros _; apply IH].
Qed.

Lemma walks_each M obj (callback : option Ref → string → Eff WalkState unit) :
  (∀ value key, walks M (callback value key)) → walks M (each obj callback).
Proof.
  intros Hc. apply walks_withWorld. intros w. apply walks_forEach. intros key.
  apply walks_withWorld. intros w'. apply Hc.
Qed.

Lemma walks_forEachArray M array (callback : option Ref → Eff WalkState unit) :
  (∀ value, walks M (callback value)) → walks M (forEachArray array callback).
Proof.
  intros Hc. apply walks_withWorld. intros w. apply walks_forEach. intros k.
  apply walks_withWorld. intros w'.
  destruct (array_get w' array k); [apply Hc | apply walks_ret].
Qed.

Lemma walks_callVisitorMethods (M : string → Prop) m type details :
  M m → walks M (callVisitorMethods m type details).
Proof.
  intros Hm st Hst. destruct type as [type|].
  - destruct (callVisitorMethods_outcome m type details st Hst)
      as (created & -> & Hgood).
    exists (stepOutcome m type details (world st)).1.1.
    cbn [fst snd world trace]. split_and!; [|done|exact Hgood].
    destruct (stepOutcome m type details (world st)) as [[events failed] w'] eqn:Hs.
    replace events with (stepOutcome m type details (world st)).1.1
      by (by rewrite Hs).
    replace failed with (stepOutcome m type details (world st)).1.2
      by (by rewrite Hs).
    replace w' with (stepOutcome m type details (world st)).2
      by (by rewrite Hs).
    assert (Hf : Live.failure
                   (result_of (stepOutcome m type details (world st)).1.2)
                 = (stepOutcome m type details (world st)).1.2).
    { by destruct (stepOutcome m type details (world st)).1.2. }
    cbn [fst snd]. rewrite Hf. by constructor.
  - exists []. cbn. rewrite app_nil_r. split_and!; [constructor | done | done].
Qed.

Lemma walks_visitFields (M : string → Prop) type :
  (∀ m, m ∈ childMethods → M m) → walks M (visitFields type).
Proof.
  intros HM. unfold visitFields. apply walks_withWorld. intros w.
  apply walks_each. intros field _. apply walks_bind.
  - apply walks_callVisitorMethods, HM. unfold childMethods. in_list.
  - intros _. destruct field as [field|]; [|apply walks_ret].
    apply walks_withWorld. intros w'.
    destruct (field_args w' field) as [args|]; [|apply walks_ret].
    apply walks_forEachArray. intros arg.
    apply walks_callVisitorMethods, HM. unfold childMethods. in_list.
Qed.

(** What follows the first call in a branch of [visitNamedType]. *)
Definition visitChildren (type : Ref) : Eff WalkState unit :=
  match class_of type with
  | ObjectTypeClass | InterfaceTypeClass => visitFields type
  | InputObjectTypeClass =>
      withWorld (λ w,
        each (getFields w type) (λ field _,
          callVisitorMethods "visitInputFieldDefinition" field
            (FieldDetails type)))
  | EnumTypeClass =>
      withWorld (λ w,
        forEachArray (getValues w type) (λ value,
          callVisitorMethods "visitEnumValue" value (EnumValueDetails type)))
  | _ => mret tt
  end.

(** The method [visitNamedType] calls on an object of a class. *)
Definition methodOfClass (class : Class) : option string :=
  match class with
  | ObjectTypeClass => Some "visitObject"
  | InterfaceTypeClass => Some "visitInterface"
  | InputObjectTypeClass => Some "visitInputObject"
  | ScalarTypeClass => Some "visitScalar"
  | UnionTypeClass => Some "visitUnion"
  | EnumTypeClass => Some "visitEnum"
  | SchemaClass | OtherClass => None
  end.

Lemma visitNamedType_unfold type st :
  visitNamedType (Some type) st
  = match methodOfClass (class_of type) with
    | Some m =>
        (callVisitorMethods m (Some type) NoDetails;; visitChildren type) st
    | None => (Ok tt, st)
    end.
Proof.
  unfold visitNamedType, visitChildren.
  destruct (class_of type); cbn [methodOfClass]; try done.
  - rewrite bind_eval. by destruct (callVisitorMethods _ _ _ st) as [[[]|e] st'].
  - rewrite bind_eval. by destruct (callVisitorMethods _ _ _ st) as [[[]|e] st'].
Qed.

Lemma methodOfClass_typeMethods class m :
  methodOfClass class = Some m → m ∈ typeMethods.
Proof. destruct class; intros [= <-]; unfold typeMethods; in_list. Qed.

Lemma walks_visitChildren (M : string → Prop) type :
  (∀ m, m ∈ childMethods → M m) → walks M (visitChildren type).
Proof.
  intros HM. unfold visitChildren.
  destruct (class_of type); try apply walks_ret; try by apply walks_visitFields.
  - apply walks_withWorld. intros w. apply walks_each. intros field _.
    apply walks_callVisitorMethods, HM. unfold childMethods. in_list.
  - apply walks_withWorld. intros w. apply walks_forEachArray. intros value.
    apply walks_callVisitorMethods, HM. unfold childMethods. in_list.
Qed.

Lemma walks_visitNamedType (M : string → Prop) type :
  (∀ m, m ∈ typeMethods ∨ m ∈ childMethods → M m) →
  walks M (visitNamedType type).
Proof.
  intros HM. destruct type as [type|]; [|apply walks_ret].
  intros st Hst. rewrite visitNamedType_unfold.
  destruct (methodOfClass (class_of type)) as [m|] eqn:Hm.
  - apply walks_bind; [|intros _; apply walks_visitChildren; auto|done].
    apply walks_callVisitorMethods, HM. left.
    by eapply methodOfClass_typeMethods.
  - by apply (walks_ret M tt).
Qed.

Lemma walks_visit type : walks (λ _, True) (visit type).
Proof.
  destruct type as [object|]; [|apply walks_ret]. unfold visit.
  destruct (class_of object) eqn:Hclass;
    try (intros st Hst;
         pose proof (walks_visitNamedType (λ _, True) (Some object)
                       (λ _ _, I) st Hst) as H;
         rewrite visitNamedType_unfold, Hclass in H;
         rewrite visitNamedType_unfold, Hclass; exact H).
  apply walks_bind; [by apply walks_callVisitorMethods|]. intros _.
  apply walks_withWorld. intros w. apply walks_each. intros namedType typeName.
  destruct (negb (String.prefix "__" typeName)); [|apply walks_ret].
  by apply walks_visitNamedType.
Qed.

(** *** What the caller's code may do to the objects *)

(** [w'] is [w] after some calls of constructors and visitor methods. *)
Inductive evolves : World → World → Prop :=
  | evolves_refl w : evolves w w
  | evolves_construct w w' v :
      evolves w w' → evolves w (construct v w').2
  | evolves_method w w' d m type details :
      evolves w w' → evolves w (method d m type details w').2.

(** No constructor and no visitor method changes what [read] reads. *)
Definition kept {A : Type} (read : World → A) : Prop :=
  (∀ v w, read (construct v w).2 = read w)
  ∧ (∀ d m type details w, read (method d m type details w).2 = read w).

Lemma evolves_trans w1 w2 w3 : evolves w1 w2 → evolves w2 w3 → evolves w1 w3.
Proof. intros H12 H23. induction H23; [done | constructor; auto..]. Qed.

Lemma kept_evolves {A : Type} (read : World → A) w w' :
  kept read → evolves w w' → read w' = read w.
Proof.
  intros [Hc Hm]. induction 1 as [|w w' v _ IH|w w' d m type details _ IH];
    [done | by rewrite Hc | by rewrite Hm].
Qed.

Lemma collect_evolves type m ds w : evolves w (collect type m ds w).2.
Proof.
  revert w. induction ds as [|d ds IH]; intros w; cbn [collect]; [constructor|].
  destruct (instantiate type m d) as [[v|]|e]; [|apply IH|constructor].
  destruct (construct v w).1 as [[]|e]; cbn [snd].
  - eapply evolves_trans; [|apply IH]. repeat constructor.
  - repeat constructor.
Qed.

Lemma dispatch_evolves m type details vs w :
  evolves w (dispatch m type details vs w).2.
Proof.
  revert w. induction vs as [|d ds IH]; intros w; cbn [dispatch]; [constructor|].
  destruct (method d m type details w).1 as [[]|e]; cbn [snd].
  - eapply evolves_trans; [|apply IH]. repeat constructor.
  - repeat constructor.
Qed.

Lemma stepOutcome_evolves m type details w :
  evolves w (stepOutcome m type details w).2.
Proof.
  unfold stepOutcome.
  pose proof (collect_evolves type m (occurrences (directiveNodes w type)) w) as Hc.
  destruct (collect type m _ w) as [[vs failed] w1]. cbn [fst snd] in *.
  destruct failed; cbn [snd]; [done|].
  eapply evolves_trans; [exact Hc | apply dispatch_evolves].
Qed.


(** *** Where an exception comes from *)

Definition fromResolver (e : Error) : Prop :=
  e = UnexpectedValueKind "Variable"
  ∨ (∃ decl d, getArgumentValues decl d = Err e)
  ∨ (∃ v w, (construct v w).1 = Err e).

Definition origin (e : Error) : Prop :=
  fromResolver e
  ∨ (∃ d m type details w, (method d m type details w).1 = Err e)
  ∨ e = TypeError "Cannot read property 'astNode' of undefined".

Lemma instantiate_Err_live type m d e :
  instantiate type m d = Err e →
  e = UnexpectedValueKind "Variable"
  ∨ ∃ decl d, getArgumentValues decl d = Err e.
Proof.
  unfold instantiate.
  destruct (directiveVisitors !! directive_name d) as [cls|]; [|done].
  destruct (Directives.shouldCall cls m); cbn [negb]; [|done].
  destruct (declaredDirectives !! directive_name d) as [decl|].
  - destruct (getArgumentValues decl d) as [args|e'] eqn:Hc; [done|].
    intros [= ->]. right. by exists decl, d.
  - destruct (Directives.untypedArgs parseInt parseFloat d) as [args|e'] eqn:Hu;
      [done|].
    intros [= ->]. left. by eapply Directives.untypedArgs_Err.
Qed.

Lemma collect_failure type m ds w e :
  (collect type m ds w).1.2 = Some e → fromResolver e.
Proof.
  revert w. induction ds as [|d ds IH]; intros w; cbn [collect]; [done|].
  destruct (instantiate type m d) as [[v|]|e'] eqn:Hd.
  - destruct (construct v w).1 as [[]|e'] eqn:Hv; cbn [fst snd].
    + apply IH.
    + intros [= ->]. right. right. by exists v, w.
  - apply IH.
  - cbn. intros [= ->]. apply instantiate_Err_live in Hd as [?|?];
      [by left | right; by left].
Qed.

Lemma dispatch_failure m type details vs w e :
  (dispatch m type details vs w).1.2 = Some e →
  ∃ d m type details w, (method d m type details w).1 = Err e.
Proof.
  revert w. induction vs as [|d ds IH]; intros w; cbn [dispatch]; [done|].
  destruct (method d m type details w).1 as [[]|e'] eqn:Hd; cbn [fst snd].
  - apply IH.
  - intros [= ->]. by exists d, m, type, details, w.
Qed.

Lemma stepOutcome_origin m type details w e :
  (stepOutcome m type details w).1.2 = Some e → origin e.
Proof.
  unfold stepOutcome.
  destruct (collect type m _ w) as [[vs failed] w1] eqn:Hc. cbn [fst snd].
  destruct failed as [e'|]; cbn [fst snd].
  - intros [= ->]. left.
    apply (collect_failure type m (occurrences (directiveNodes w type)) w).
    by rewrite Hc.
  - intros H. right. left. by eapply dispatch_failure.
Qed.

Lemma Walked_origin M w events e w' :
  Walked M w events (Some e) w' → origin e.
Proof.
  remember (Some e) as failed eqn:Hf. induction 1 as [| | |? ? ? ? ? ? _ _ _ IH].
  - done.
  - injection Hf as <-. right. by right.
  - by eapply stepOutcome_origin.
  - by apply IH.
Qed.

(** *** The events of a part of the walk *)

(** The objects the resolver was entered for as named types. *)
Definition resolvedTypes (events : list Event) : list Ref :=
  omap (λ event,
          match event with
          | Resolved m type _ =>
              if bool_decide (m ∈ typeMethods) then Some type else None
          | _ => None
          end) events.



Lemma stepOutcome_events m type details w :
  ∃ vs called,
    (stepOutcome m type details w).1.1
    = Resolved m type (directiveNodes w type)
      :: (Constructed <$> vs) ++ ((λ d, Called m d type details) <$> called).
Proof.
  unfold stepOutcome.
  destruct (collect type m _ w) as [[vs failed] w1]. cbn [fst snd].
  destruct failed; cbn [fst snd].
  - exists vs, []. by rewrite app_nil_r.
  - by eexists _, _.
Qed.




(** *** An occurrence the decoder cannot read *)

(** The resolver, called with [m], handles [d]: the name has a class that
    overrides [m]; no directive of that name is declared; and a literal
    of [d] holds a variable reference, at whatever depth. *)
Definition offending (m : string) (d : DirectiveNode) : bool :=
  match directiveVisitors !! directive_name d with
  | Some visitorClass =>
      Directives.shouldCall visitorClass m
      && match declaredDirectives !! directive_name d with
         | None => true
         | Some _ => false
         end
      && existsb (λ a, containsVariable (arg_value a)) (arguments d)
  | None => false
  end.

Lemma untypedArgs_variable d :
  existsb (λ a, containsVariable (arg_value a)) (arguments d) = true →
  Directives.untypedArgs parseInt parseFloat d
  = Err (UnexpectedValueKind "Variable").
Proof.
  intros Hvar.
  destruct (Directives.untypedArgs parseInt parseFloat d) as [args|e] eqn:Hu.
  - apply Directives.untypedArgs_Ok in Hu as (ws & Hws & _).
    apply existsb_exists in Hvar as (a & Ha & Hvar).
    apply list_elem_of_In in Ha.
    assert (Hdec : ∃ w, valueFromASTUntyped parseInt parseFloat (arg_value a)
                        = Ok w).
    { clear Hvar. induction Hws as [|a' w rest ws Hw _ IH].
      - by apply elem_of_nil in Ha.
      - apply elem_of_cons in Ha as [->|Ha]; [by exists w | by apply IH]. }
    apply valueFromASTUntyped_is_Ok in Hdec. congruence.
  - f_equal. by eapply Directives.untypedArgs_Err.
Qed.

Lemma instantiate_offending type m d :
  offending m d = true →
  instantiate type m d = Err (UnexpectedValueKind "Variable").
Proof.
  unfold offending, instantiate.
  destruct (directiveVisitors !! directive_name d) as [cls|]; [|done].
  destruct (Directives.shouldCall cls m); cbn [negb andb]; [|done].
  destruct (declaredDirectives !! directive_name d); cbn [andb]; [done|].
  intros Hvar. by rewrite untypedArgs_variable.
Qed.

Lemma collect_app type m pre rest w :
  collect type m (pre ++ rest) w
  = match (collect type m pre w).1.2 with
    | Some e => collect type m pre w
    | None =>
        ((collect type m pre w).1.1
         ++ (collect type m rest (collect type m pre w).2).1.1,
         (collect type m rest (collect type m pre w).2).1.2,
         (collect type m rest (collect type m pre w).2).2)
    end.
Proof.
  revert w. induction pre as [|d pre IH]; intros w; cbn [app collect].
  - cbn [fst snd]. by destruct (collect type m rest w) as [[? ?] ?].
  - destruct (instantiate type m d) as [[v|]|e]; [|apply IH|done].
    destruct (construct v w).1 as [[]|e]; [|done].
    rewrite IH. cbn [fst snd].
    destruct (collect type m pre (construct v w).2) as [[vs failed] w'].
    cbn [fst snd]. by destruct failed.
Qed.

(** When every occurrence goes through [instantiate], the resolver
    either constructs all the visitors or stops where a constructor
    throws. *)
Lemma collect_mapM_live type m ds w made :
  mapM (instantiate type m) ds = Ok made →
  ((collect type m ds w).1.2 = None
   ∧ (collect type m ds w).1.1 = omap id made)
  ∨ ((∃ e, (collect type m ds w).1.2 = Some e)
     ∧ length (collect type m ds w).1.1 < length (omap id made)).
Proof.
  revert w made. induction ds as [|d ds IH]; intros w made; cbn [mapM collect].
  - intros [= <-]. by left.
  - destruct (instantiate type m d) as [ov|e]; [|done].
    destruct (mapM (instantiate type m) ds) as [made'|e] eqn:Hm; [|done].
    intros [= <-]. destruct ov as [v|]; cbn [omap list_omap id].
    + destruct (construct v w).1 as [[]|e]; cbn [fst snd length].
      * destruct (IH (construct v w).2 made' eq_refl) as [[-> ->]|[He Hlen]];
          [by left | right]. split; [done | lia].
      * right. split; [by eexists | lia].
    + apply IH. done.
Qed.

Lemma collect_None type m ds w :
  (collect type m ds w).1.2 = None →
  ∃ made,
    mapM (instantiate type m) ds = Ok made
    ∧ (collect type m ds w).1.1 = omap id made.
Proof.
  revert w. induction ds as [|d ds IH]; intros w; cbn [mapM collect].
  - by exists [].
  - destruct (instantiate type m d) as [[v|]|e]; [| |done].
    + destruct (construct v w).1 as [[]|e]; cbn [fst snd]; [|done].
      intros H. apply IH in H as (made & -> & ->). by eexists.
    + intros H. apply IH in H as (made & -> & ->). by eexists.
Qed.

Lemma dispatch_None m type details vs w :
  (dispatch m type details vs w).1.2 = None →
  (dispatch m type details vs w).1.1 = vs.
Proof.
  revert w. induction vs as [|d ds IH]; intros w; cbn [dispatch]; [done|].
  destruct (method d m type details w).1 as [[]|e]; cbn [fst snd]; [|done].
  intros H. by rewrite IH.
Qed.

(** What is known of the exception [e] the resolver ends with at a node
    whose occurrences [ds] hold an offending one, and of the events
    [rest] after its [Resolved]: they are the visitors constructed before
    the throw; [e] was thrown in the resolver; and when these visitors
    are all those of the occurrences before an offending one, [e] is the
    decoder's. *)
Definition explains (m : string) (type : Ref) (ds : list DirectiveNode)
    (rest : list Event) (e : Error) : Prop :=
  ∃ vs,
    rest = Constructed <$> vs
    ∧ fromResolver e
    ∧ ∀ pre d post made,
        ds = pre ++ d :: post →
        offending m d = true →
        mapM (instantiate type m) pre = Ok made →
        vs = omap id made →
        e = UnexpectedValueKind "Variable".

Lemma collect_explains type m ds w :
  existsb (offending m) ds = true →
  ∃ e, (collect type m ds w).1.2 = Some e
       ∧ explains m type ds (Constructed <$> (collect type m ds w).1.1) e.
Proof.
  intros Hex. apply existsb_exists in Hex as (d & Hd & Hoff).
  apply list_elem_of_In, list_elem_of_split in Hd as (pre & post & ->).
  assert (Hfail : ∃ e, (collect type m (pre ++ d :: post) w).1.2 = Some e).
  { rewrite collect_app.
    destruct (collect type m pre w).1.2 as [e|] eqn:Hpre; [by exists e|].
    cbn [fst snd collect]. rewrite (instantiate_offending _ _ _ Hoff).
    by eexists. }
  destruct Hfail as [e He]. exists e. split; [done|].
  exists (collect type m (pre ++ d :: post) w).1.1. split_and!; [done| |].
  - by eapply collect_failure.
  - intros pre' d' post' made Heq Hoff' Hmade Hvs. rewrite Heq in He, Hvs.
    rewrite collect_app in He, Hvs.
    destruct (collect_mapM_live type m pre' w made Hmade)
      as [[Hnone Hall]|[[e' Hsome] Hlen]].
    + rewrite Hnone in He, Hvs. cbn [fst snd collect] in He, Hvs.
      rewrite (instantiate_offending _ _ _ Hoff') in He. cbn in He. congruence.
    + rewrite Hsome in Hvs. rewrite Hvs in Hlen. lia.
Qed.

(** Once the resolver has been entered at a node with an offending
    occurrence, the events end with the visitors it constructed there,
    and the part of the walk ends with an exception. *)
Fixpoint sealed (events : list Event) (failed : option Error) : Prop :=
  match events with
  | [] => True
  | Resolved m type (Some ds) :: rest =>
      if existsb (offending m) ds
      then ∃ e, failed = Some e ∧ explains m type ds rest e
      else sealed rest failed
  | _ :: rest => sealed rest failed
  end.

Lemma sealed_app events1 events2 failed :
  sealed events1 None → sealed events2 failed →
  sealed (events1 ++ events2) failed.
Proof.
  intros H1 H2. induction events1 as [|event events1 IH]; [done|].
  cbn [app sealed] in *. destruct event as [m type [ds|]| |]; try by apply IH.
  destruct (existsb (offending m) ds); [|by apply IH].
  by destruct H1 as (e & ? & _).
Qed.

Lemma sealed_unresolved events failed :
  Forall (λ event, match event with Resolved _ _ _ => False | _ => True end)
         events →
  sealed events failed.
Proof. induction 1 as [|[] events Hevent _ IH]; done. Qed.

Lemma sealed_step m type details w :
  sealed (stepOutcome m type details w).1.1 (stepOutcome m type details w).1.2.
Proof.
  unfold stepOutcome.
  destruct (directiveNodes w type) as [ds|] eqn:Hds; cbn [occurrences].
  - destruct (existsb (offending m) ds) eqn:Hex.
    + destruct (collect_explains type m ds w Hex) as (e & He & Hexp).
      rewrite He. cbn [fst snd sealed]. rewrite Hex. by exists e.
    + destruct (collect type m ds w).1.2; cbn [fst snd sealed]; rewrite Hex;
        apply sealed_unresolved.
      * by apply Forall_fmap, Forall_forall.
      * apply Forall_app. split; by apply Forall_fmap, Forall_forall.
  - cbn [collect fst snd sealed]. apply sealed_unresolved.
    apply Forall_app. split; by apply Forall_fmap, Forall_forall.
Qed.

Lemma Walked_sealed M w events failed w' :
  Walked M w events failed w' → sealed events failed.
Proof.
  induction 1; [done | done | apply sealed_step | by apply sealed_app].
Qed.

Lemma sealed_split before m type ds after failed :
  sealed (before ++ Resolved m type (Some ds) :: after) failed →
  existsb (offending m) ds = true →
  ∃ e, failed = Some e ∧ explains m type ds after e.
Proof.
  intros Hsealed Hex. induction before as [|event before IH].
  - cbn in Hsealed. by rewrite Hex in Hsealed.
  - cbn [app sealed] in Hsealed.
    destruct event as [m' type' [ds'|]| |]; try by apply IH.
    destruct (existsb (offending m') ds'); [|by apply IH].
    destruct Hsealed as (e & _ & vs & Hrest & _). exfalso.
    assert (Hin : Resolved m type (Some ds) ∈ Constructed <$> vs).
    { rewrite <- Hrest. apply elem_of_app. right. by left. }
    by apply list_elem_of_fmap in Hin as (? & ? & _).
Qed.

(** *** The named types of the type map *)

Lemma methodOfClass_namedType class :
  namedType class = bool_decide (is_Some (methodOfClass class)).
Proof. by destruct class. Qed.





(** *** A walk that returns *)

(** One call of [callVisitorMethods] that returned: the method, the
    object, the second argument, the occurrences read, and what
    [instantiate] made of each. *)
Record Resolution : Type := mkResolution {
  resolution_method : string;
  resolution_type : Ref;
  resolution_details : Details;
  resolution_nodes : option (list DirectiveNode);
  resolution_made : list (option Visitor)
}.

Definition resolutionEvents (r : Resolution) : list Event :=
  Resolved (resolution_method r) (resolution_type r) (resolution_nodes r)
  :: (Constructed <$> omap id (resolution_made r))
  ++ ((λ d, Called (resolution_method r) d (resolution_type r)
              (resolution_details r))
        <$> omap id (resolution_made r)).

Definition resolutionSound (r : Resolution) : Prop :=
  mapM (instantiate (resolution_type r) (resolution_method r))
       (occurrences (resolution_nodes r))
  = Ok (resolution_made r).

Lemma Walked_returned M w events w' :
  Walked M w events None w' →
  ∃ resolutions,
    events = flat_map resolutionEvents resolutions
    ∧ Forall resolutionSound resolutions.
Proof.
  remember None as failed eqn:Hf.
  induction 1 as [| |w m type details _
                 |w events1 w1 events2 failed w2 _ IH1 _ IH2].
  - by exists [].
  - done.
  - unfold stepOutcome in *.
    destruct (collect type m (occurrences (directiveNodes w type)) w)
      as [[vs failed] w1] eqn:Hc.
    cbn [fst snd] in *. destruct failed as [e|]; [done|].
    pose proof (dispatch_None m type details vs w1) as Hcalled.
    destruct (dispatch m type details vs w1) as [[called failed] w2].
    cbn [fst snd] in *. subst failed. rewrite Hcalled by done.
    destruct (collect_None type m (occurrences (directiveNodes w type)) w)
      as (made & Hmade & Hvs); [by rewrite Hc|].
    rewrite Hc in Hvs. cbn [fst] in Hvs. subst vs.
    exists [mkResolution m type details (directiveNodes w type) made].
    split; [|by constructor].
    cbn [flat_map resolutionEvents resolution_method resolution_type
         resolution_details resolution_nodes resolution_made].
    by rewrite app_nil_r.
  - destruct (IH1 eq_refl) as (rs1 & -> & Hs1).
    destruct (IH2 Hf) as (rs2 & -> & Hs2).
    exists (rs1 ++ rs2). split; [by rewrite flat_map_app | by apply Forall_app].
Qed.

(** *** A schema no visitor reshapes *)

(** The objects the resolver was entered for, in order. *)
Definition resolved (events : list Event) : list Ref :=
  omap (λ event,
          match event with
          | Resolved _ type _ => Some type
          | _ => None
          end) events.

(** What the walk reads of an object to find its way. *)
Definition shape (w : World) (object : Ref)
  : Ref * Ref * Ref * option Ref * list string * nat :=
  (getTypeMap w object, getFields w object, getValues w object,
   field_args w object, keys w object, array_length w object).

(** No constructor and no visitor method changes where the walk goes:
    what it reads of an object to find its way, the values of the maps
    and the elements of the arrays stay as they are. *)
Definition stable : Prop :=
  (∀ object, kept (λ w, shape w object))
  ∧ (∀ object key, kept (λ w, get w object key))
  ∧ (∀ array k, kept (λ w, array_get w array k)).

(** The elements [forEach] finds in an array, and the values [each]
    finds in a map. *)
Definition elements (w : World) (array : Ref) : list (option Ref) :=
  omap (array_get w array) (seq 0 (array_length w array)).

Definition values (w : World) (obj : Ref) : list (option Ref) :=
  get w obj <$> keys w obj.

Definition fieldNodes (w : World) (field : option Ref) : list Ref :=
  match field with
  | Some field =>
      field
      :: match field_args w field with
         | Some args => omap id (elements w args)
         | None => []
         end
  | None => []
  end.

Definition childNodes (w : World) (type : Ref) : list Ref :=
  match class_of type with
  | ObjectTypeClass | InterfaceTypeClass =>
      flat_map (fieldNodes w) (values w (getFields w type))
  | InputObjectTypeClass => omap id (values w (getFields w type))
  | EnumTypeClass => omap id (elements w (getValues w type))
  | _ => []
  end.

Definition typeNodes (w : World) (type : option Ref) : list Ref :=
  match type with
  | Some type =>
      if namedType (class_of type) then type :: childNodes w type else []
  | None => []
  end.

(** The schema, and the nodes of its named types whose key does not
    start with two underscores. *)
Definition schemaNodes (w : World) : list Ref :=
  schema
  :: flat_map (typeNodes w)
       (get w (getTypeMap w schema)
          <$> filter (λ key, negb (String.prefix "__" key) = true)
                     (keys w (getTypeMap w schema))).

Section Stable.
Variable w0 : World.
Hypothesis Hstable : stable.

(** When [c] returns, from a state the walk has reached, the resolver
    was entered for [expected], in order. *)
Definition summarises (c : Eff WalkState unit) (expected : list Ref) : Prop :=
  ∀ st st',
    goodKeys st → evolves w0 (world st) → c st = (Ok tt, st') →
    goodKeys st' ∧ evolves w0 (world st')
    ∧ ∃ events, trace st' = trace st ++ events ∧ resolved events = expected.

Lemma resolved_app events1 events2 :
  resolved (events1 ++ events2) = resolved events1 ++ resolved events2.
Proof. apply omap_app. Qed.

Lemma summarises_ret : summarises (mret tt) [].
Proof.
  intros st st' Hst Hev [= <-]. split_and!; [done..|].
  exists []. by rewrite app_nil_r.
Qed.

Lemma summarises_bind c1 (c2 : Eff WalkState unit) expected1 expected2 :
  summarises c1 expected1 → summarises c2 expected2 →
  summarises (c1;; c2) (expected1 ++ expected2).
Proof.
  intros H1 H2 st st' Hst Hev. rewrite bind_eval.
  destruct (c1 st) as [[[]|e] st1] eqn:Hc1; [|done].
  destruct (H1 st st1 Hst Hev Hc1) as (Hg1 & Hev1 & events1 & Ht1 & Hr1).
  intros Hc2.
  destruct (H2 st1 st' Hg1 Hev1 Hc2) as (Hg2 & Hev2 & events2 & Ht2 & Hr2).
  split_and!; [done..|]. exists (events1 ++ events2).
  by rewrite Ht2, Ht1, app_assoc, resolved_app, Hr1, Hr2.
Qed.

Lemma summarises_forEach {A : Type} (l : list A) (f : A → Eff WalkState unit)
    (g : A → list Ref) :
  (∀ x, summarises (f x) (g x)) → summarises (forEach l f) (flat_map g l).
Proof.
  intros Hf. induction l as [|x l IH]; cbn [forEach flat_map].
  - apply summarises_ret.
  - by apply summarises_bind.
Qed.

(** A read of the objects finds what it finds at the start. *)
Lemma summarises_read {A : Type} (read : World → A)
    (f : A → Eff WalkState unit) expected :
  kept read →
  summarises (f (read w0)) expected →
  summarises (withWorld (λ w, f (read w))) expected.
Proof.
  intros Hkept Hf st st' Hst Hev. unfold withWorld.
  rewrite (kept_evolves _ _ _ Hkept Hev). by apply Hf.
Qed.

Lemma summarises_callVisitorMethods m type details :
  summarises (callVisitorMethods m type details) (option_list type).
Proof.
  intros st st' Hst Hev. destruct type as [type|]; [|done].
  destruct (callVisitorMethods_outcome m type details st Hst)
    as (created & -> & Hgood).
  pose proof (stepOutcome_evolves m type details (world st)) as Hev1.
  destruct (stepOutcome_events m type details (world st))
    as (vs & called & Hevents).
  intros [= _ <-]. cbn [world trace]. split_and!.
  - exact Hgood.
  - by eapply evolves_trans.
  - eexists. split; [done|]. rewrite Hevents. cbn.
    rewrite resolved_app.
    assert (H1 : resolved (Constructed <$> vs) = []).
    { clear. induction vs as [|v vs IH]; [done|]. by rewrite fmap_cons. }
    assert (H2 : resolved ((λ d, Called m d type details) <$> called) = []).
    { clear. induction called as [|v vs IH]; [done|]. by rewrite fmap_cons. }
    by rewrite H1, H2.
Qed.

Lemma kept_shape {A : Type}
    (part : Ref * Ref * Ref * option Ref * list string * nat → A) object :
  kept (λ w, part (shape w object)).
Proof using Hstable.
  destruct Hstable as (Hshape & _ & _). destruct (Hshape object) as [Hc Hm].
  split; intros; cbv beta; [by rewrite Hc | by rewrite Hm].
Qed.

Lemma flat_map_over_fmap {A B C : Type} (f : A → B) (g : B → list C) l :
  flat_map g (f <$> l) = flat_map (λ x, g (f x)) l.
Proof. induction l as [|x l IH]; [done|]. cbn. by rewrite <- IH. Qed.

Lemma flat_map_option_list (l : list (option Ref)) :
  flat_map option_list l = omap id l.
Proof. induction l as [|[x|] l IH]; cbn; by rewrite ?IH. Qed.

Lemma summarises_each obj (callback : option Ref → string → Eff WalkState unit)
    (g : option Ref → list Ref) :
  (∀ value key, summarises (callback value key) (g value)) →
  summarises (each obj callback) (flat_map g (values w0 obj)).
Proof using Hstable.
  intros Hc. unfold each, values.
  apply (summarises_read (λ w, keys w obj)
           (λ names, forEach names (λ key,
              withWorld (λ w', callback (get w' obj key) key)))).
  { apply (kept_shape (λ s, s.1.2)). }
  rewrite flat_map_over_fmap.
  apply summarises_forEach. intros key.
  apply (summarises_read (λ w, get w obj key) (λ value, callback value key)).
  { by destruct Hstable as (_ & Hget & _). }
  apply Hc.
Qed.

Lemma summarises_forEachArray array (callback : option Ref → Eff WalkState unit)
    (g : option Ref → list Ref) :
  (∀ value, summarises (callback value) (g value)) →
  summarises (forEachArray array callback) (flat_map g (elements w0 array)).
Proof using Hstable.
  intros Hc. unfold forEachArray, elements.
  apply (summarises_read (λ w, array_length w array)
           (λ n, forEach (seq 0 n) (λ k,
              withWorld (λ w',
                match array_get w' array k with
                | Some value => callback value
                | None => mret tt
                end)))).
  { apply (kept_shape (λ s, s.2)). }
  assert (Heq : flat_map g (omap (array_get w0 array)
                              (seq 0 (array_length w0 array)))
                = flat_map (λ k, match array_get w0 array k with
                                 | Some value => g value
                                 | None => []
                                 end) (seq 0 (array_length w0 array))).
  { induction (seq 0 (array_length w0 array)) as [|k ks IH]; [done|].
    cbn [omap list_omap flat_map].
    destruct (array_get w0 array k); cbn [flat_map]; by rewrite IH. }
  rewrite Heq. apply summarises_forEach. intros k.
  apply (summarises_read (λ w, array_get w array k)
           (λ item, match item with
                    | Some value => callback value
                    | None => mret tt
                    end)).
  { by destruct Hstable as (_ & _ & Hitem). }
  destruct (array_get w0 array k); [apply Hc | apply summarises_ret].
Qed.

Lemma summarises_visitFields type :
  summarises (visitFields type)
    (flat_map (fieldNodes w0) (values w0 (getFields w0 type))).
Proof using Hstable.
  unfold visitFields.
  apply (summarises_read (λ w, getFields w type)
           (λ fields, each fields (λ field _,
              callVisitorMethods "visitFieldDefinition" field (FieldDetails type);;
              match field with
              | Some field =>
                  withWorld (λ w',
                    match field_args w' field with
                    | Some args =>
                        forEachArray args (λ arg,
                          callVisitorMethods "visitArgumentDefinition" arg
                            (ArgumentDetails field type))
                    | None => mret tt
                    end)
              | None => mret tt
              end))).
  { apply (kept_shape (λ s, s.1.1.1.1.2)). }
  apply summarises_each. intros field _.
  destruct field as [field|]; cbn [fieldNodes].
  - apply (summarises_bind _ _ [field]);
      [apply (summarises_callVisitorMethods _ (Some field))|].
    apply (summarises_read (λ w, field_args w field)
             (λ args, match args with
                      | Some args =>
                          forEachArray args (λ arg,
                            callVisitorMethods "visitArgumentDefinition" arg
                              (ArgumentDetails field type))
                      | None => mret tt
                      end)).
    { apply (kept_shape (λ s, s.1.1.2)). }
    destruct (field_args w0 field) as [args|]; [|apply summarises_ret].
    rewrite <- flat_map_option_list. apply summarises_forEachArray.
    intros arg. apply summarises_callVisitorMethods.
  - intros st st' _ _. rewrite bind_eval. done.
Qed.

Lemma summarises_visitChildren type :
  summarises (visitChildren type) (childNodes w0 type).
Proof using Hstable.
  unfold visitChildren, childNodes.
  destruct (class_of type); try apply summarises_ret;
    try apply summarises_visitFields.
  - apply (summarises_read (λ w, getFields w type)
             (λ fields, each fields (λ field _,
                callVisitorMethods "visitInputFieldDefinition" field
                  (FieldDetails type)))).
    { apply (kept_shape (λ s, s.1.1.1.1.2)). }
    rewrite <- flat_map_option_list. apply summarises_each.
    intros field _. apply summarises_callVisitorMethods.
  - apply (summarises_read (λ w, getValues w type)
             (λ array, forEachArray array (λ value,
                callVisitorMethods "visitEnumValue" value
                  (EnumValueDetails type)))).
    { apply (kept_shape (λ s, s.1.1.1.2)). }
    rewrite <- flat_map_option_list. apply summarises_forEachArray.
    intros value. apply summarises_callVisitorMethods.
Qed.

Lemma summarises_visitNamedType type :
  summarises (visitNamedType type) (typeNodes w0 type).
Proof using Hstable.
  destruct type as [type|]; [|apply summarises_ret].
  intros st st'. rewrite visitNamedType_unfold. cbn [typeNodes].
  rewrite methodOfClass_namedType.
  destruct (methodOfClass (class_of type)) as [m|].
  - rewrite bool_decide_eq_true_2 by by eexists.
    apply (summarises_bind _ _ [type]);
      [apply (summarises_callVisitorMethods _ (Some type))
      |apply summarises_visitChildren].
  - rewrite bool_decide_eq_false_2 by by intros [? ?].
    apply summarises_ret.
Qed.

Lemma summarises_visit :
  class_of schema = SchemaClass →
  summarises (visit (Some schema)) (schemaNodes w0).
Proof using Hstable.
  intros Hclass. unfold visit, schemaNodes. rewrite Hclass.
  apply (summarises_bind _ _ [schema]);
    [apply (summarises_callVisitorMethods _ (Some schema))|].
  apply (summarises_read (λ w, getTypeMap w schema)
           (λ typeMap, each typeMap (λ namedType typeName,
              if negb (String.prefix "__" typeName)
              then visitNamedType namedType
              else mret tt))).
  { apply (kept_shape (λ s, s.1.1.1.1.1)). }
  unfold each.
  apply (summarises_read (λ w, keys w (getTypeMap w0 schema))
           (λ names, forEach names (λ key,
              withWorld (λ w',
                (λ namedType typeName,
                   if negb (String.prefix "__" typeName)
                   then visitNamedType namedType
                   else mret tt) (get w' (getTypeMap w0 schema) key) key)))).
  { apply (kept_shape (λ s, s.1.2)). }
  rewrite flat_map_over_fmap.
  assert (Heq : ∀ names,
    flat_map (λ key, typeNodes w0 (get w0 (getTypeMap w0 schema) key))
             (filter (λ key, negb (String.prefix "__" key) = true) names)
    = flat_map (λ key, if negb (String.prefix "__" key)
                       then typeNodes w0 (get w0 (getTypeMap w0 schema) key)
                       else []) names).
  { induction names as [|key names IH]; [done|].
    rewrite filter_cons. cbn [flat_map].
    destruct (negb (String.prefix "__" key)).
    - rewrite decide_True by done. cbn [flat_map]. by rewrite IH.
    - rewrite decide_False by done. by rewrite IH. }
  unfold compose. rewrite Heq. apply summarises_forEach. intros key.
  apply (summarises_read (λ w, get w (getTypeMap w0 schema) key)
           (λ value, (λ namedType typeName,
                        if negb (String.prefix "__" typeName)
                        then visitNamedType namedType
                        else mret tt) value key)).
  { by destruct Hstable as (_ & Hget & _). }
  cbv beta. destruct (negb (String.prefix "__" key));
    [apply summarises_visitNamedType | apply summarises_ret].
Qed.

End Stable.

End visit.

(** [declaredDirectives] after [schema.getDirectives().forEach(...)]. *)
Definition declared (w : World) : gmap string GraphQLDirective :=
  foldl (λ declared decl, <[decl_name decl := decl]> declared) ∅
        (getDirectives w schema).

(** [createdVisitors] after [Object.keys(directiveVisitors).forEach(...)]. *)
Definition initialState (w : World) : WalkState :=
  mkWalkState w ((λ _, []) <$> directiveVisitors) [].

(** The body of [visitSchema] up to its [return], started on the objects
    as they are in [w]. *)
Definition visitSchema_run (w : World) : Result unit * WalkState :=
  visit (declared w) (Some schema) (initialState w).

Definition visitSchema (w : World) : Result (gmap string (list Visitor)) :=
  match visitSchema_run w with
  | (Ok _, st) => Ok (createdVisitors st)
  | (Err e, _) => Err e
  end.

Lemma goodKeys_initialState w : goodKeys (initialState w).
Proof. intros k [cls Hk]. cbn. rewrite lookup_fmap, Hk. by eexists. Qed.

(** The whole walk is a run of calls of [callVisitorMethods]. *)
Lemma visitSchema_run_Walked w0 :
  Walked (declared w0) (λ _, True) w0 (trace (visitSchema_run w0).2)
    (failure (visitSchema_run w0).1) (world (visitSchema_run w0).2).
Proof.
  destruct (walks_visit (declared w0) (Some schema) (initialState w0)
              (goodKeys_initialState w0)) as (events & Hw & Ht & _).
  unfold visitSchema_run. by rewrite Ht.
Qed.

(** X13.  In a walk that returns, every entry of the resolver went
    through all the occurrences of its node: the trace is, entry after
    entry, the [Resolved] event, the visitors of the occurrences the
    resolver handles, constructed in the order of the occurrences, and
    the calls of the method on these visitors in that same order, on the
    object the resolver was entered for. *)
Theorem returning_walk_resolved_every_occurrence w0 st :
  visitSchema_run w0 = (Ok tt, st) →
  ∃ resolutions,
    trace st = flat_map resolutionEvents resolutions
    ∧ Forall (resolutionSound (declared w0)) resolutions.
Proof.
  intros Hrun. pose proof (visitSchema_run_Walked w0) as Hw.
  rewrite Hrun in Hw. cbn [fst snd failure] in Hw.
  by eapply Walked_returned.
Qed.

(** X14.  When no constructor and no visitor method changes where the
    walk goes, whatever else they change, a walk that returns has entered
    the resolver once for the schema and then once for every node of
    every named type whose key in the type map does not start with two
    underscores: the type, then each field followed by its arguments, or
    each input field, or each enum value, in the order of the maps and
    arrays. *)
Theorem every_node_resolved_once w0 st :
  stable →
  class_of schema = SchemaClass →
  visitSchema_run w0 = (Ok tt, st) →
  resolved (trace st) = schemaNodes w0.
Proof.
  intros Hstable Hclass Hrun.
  destruct (summarises_visit (declared w0) w0 Hstable Hclass
              (initialState w0) st (goodKeys_initialState w0)
              (evolves_refl w0) Hrun)
    as (_ & _ & events & Htrace & Hresolved).
  by rewrite Htrace.
Qed.


(** C3, as the code has it.  The decoder throws on a variable reference,
    the one kind of literal it has no case for, and on every literal that
    holds one.  When the walk has entered the resolver at a node that
    carries an offending occurrence, the walk has ended with an
    exception and returns no index; after that [Resolved] event the trace
    holds nothing but the visitors constructed at that node before the
    throw, so no method was called at that node and no later node was
    reached; the exception was thrown in the resolver, and it is the
    decoder's when the visitors constructed are those of all the
    occurrences before an offending one.  Every exception of a walk is
    the decoder's or was thrown by the coercer, by a constructor or by a
    visitor method, or is the engine's for an entry that is [undefined]
    when the walk comes to it. *)
Theorem literal_outside_the_cases_aborts_walk w0 :
  (∀ valueNode,
     recognized valueNode = false →
     valueFromASTUntyped parseInt parseFloat valueNode
     = Err (UnexpectedValueKind (kind valueNode)))
  ∧ (∀ valueNode,
       containsVariable valueNode = true →
       valueFromASTUntyped parseInt parseFloat valueNode
       = Err (UnexpectedValueKind "Variable"))
  ∧ (∀ before m type ds after,
       trace (visitSchema_run w0).2
       = before ++ Resolved m type (Some ds) :: after →
       existsb (offending (declared w0) m) ds = true →
       ∃ e vs,
         (visitSchema_run w0).1 = Err e
         ∧ visitSchema w0 = Err e
         ∧ after = Constructed <$> vs
         ∧ fromResolver e
         ∧ ∀ pre d post made,
             ds = pre ++ d :: post →
             offending (declared w0) m d = true →
             mapM (instantiate (declared w0) type m) pre = Ok made →
             vs = omap id made →
             e = UnexpectedValueKind "Variable")
  ∧ (∀ e, visitSchema w0 = Err e → origin e).
Proof.
  pose proof (visitSchema_run_Walked w0) as Hw. split_and!.
  - apply valueFromASTUntyped_unrecognized.
  - intros valueNode Hvar.
    destruct (valueFromASTUntyped parseInt parseFloat valueNode) as [w|e] eqn:Hd.
    + assert (containsVariable valueNode = false); [|congruence].
      apply (valueFromASTUntyped_is_Ok parseInt parseFloat). by exists w.
    + f_equal. by eapply valueFromASTUntyped_Err.
  - intros before m type ds after Htrace Hoff.
    apply Walked_sealed in Hw. rewrite Htrace in Hw.
    apply sealed_split in Hw as (e & He & vs & Hafter & Hfrom & Hdecoder); [|done].
    exists e, vs. unfold visitSchema.
    destruct (visitSchema_run w0) as [[[]|e'] st]; cbn in He; [done|].
    injection He as ->. by split_and!.
  - intros e. unfold visitSchema.
    destruct (visitSchema_run w0) as [[[]|e'] st]; [done|].
    intros [= ->]. by eapply Walked_origin.
Qed.

End Objects.

Arguments mkVisitor {Ref}.
Arguments visitor_class {Ref}.
Arguments visitor_name {Ref}.
Arguments visitor_args {Ref}.
Arguments visitor_visitedType {Ref}.
Arguments visitor_schema {Ref}.
Arguments NoDetails {Ref}.
Arguments FieldDetails {Ref}.
Arguments ArgumentDetails {Ref}.
Arguments EnumValueDetails {Ref}.
Arguments Resolved {Ref}.
Arguments Constructed {Ref}.
Arguments Called {Ref}.
Arguments world {Ref World}.
Arguments createdVisitors {Ref World}.
Arguments trace {Ref World}.
Arguments resolvedTypes {Ref}.
Arguments resolved {Ref}.
Arguments mkResolution {Ref}.

End Live.

(** * The live walk on schemas held as trees

    For the examples the objects are the nodes of a [GraphQLSchema]
    record, referred to by where they sit: the world is the record, a
    visitor changes it by putting another record in its place, and a
    reference is a path.  The path of a named type carries the class of
    the type. *)

Inductive Path : Type :=
  | AtSchema
  | AtTypeMap
  | AtType (class : Live.Class) (typeName : string)
  | AtFields (typeName : string)
  | AtField (typeName fieldName : string)
  | AtArgs (typeName fieldName : string)
  | AtArgument (typeName fieldName : string) (index : nat)
  | AtValues (typeName : string)
  | AtValue (typeName : string) (index : nat).

Module Tree.

Definition class_of (p : Path) : Live.Class :=
  match p with
  | AtSchema => Live.SchemaClass
  | AtType class _ => class
  | _ => Live.OtherClass
  end.

Definition classOfNamedType (type : GraphQLNamedType) : Live.Class :=
  match type with
  | ObjectType _ => Live.ObjectTypeClass
  | InterfaceType _ => Live.InterfaceTypeClass
  | InputObjectType _ => Live.InputObjectTypeClass
  | ScalarType _ => Live.ScalarTypeClass
  | UnionType _ => Live.UnionTypeClass
  | EnumType _ => Live.EnumTypeClass
  end.

Definition typeAt (w : GraphQLSchema) (typeName : string)
  : option GraphQLNamedType :=
  obj_get typeName (getTypeMap w).

(** The fields of a type, as nodes. *)
Definition fieldsOf (type : GraphQLNamedType) : list (string * VisitableType) :=
  match type with
  | ObjectType t => prod_map id OfField <$> object_fields t
  | InterfaceType t => prod_map id OfField <$> interface_fields t
  | InputObjectType t => prod_map id OfInputField <$> inputObject_fields t
  | _ => []
  end.

Definition fieldAt (w : GraphQLSchema) (typeName fieldName : string)
  : option VisitableType :=
  type ← typeAt w typeName; obj_get fieldName (fieldsOf type).

Definition argsAt (w : GraphQLSchema) (typeName fieldName : string)
  : option (list GraphQLArgument) :=
  match fieldAt w typeName fieldName with
  | Some (OfField field) => field_args field
  | _ => None
  end.

Definition valuesAt (w : GraphQLSchema) (typeName : string)
  : list GraphQLEnumValue :=
  match typeAt w typeName with
  | Some (EnumType t) => enum_values t
  | _ => []
  end.

Definition nodeAt (w : GraphQLSchema) (p : Path) : option VisitableType :=
  match p with
  | AtSchema => Some (OfSchema w)
  | AtType _ typeName => OfNamedType <$> typeAt w typeName
  | AtField typeName fieldName => fieldAt w typeName fieldName
  | AtArgument typeName fieldName index =>
      args ← argsAt w typeName fieldName; OfArgument <$> args !! index
  | AtValue typeName index => OfEnumValue <$> valuesAt w typeName !! index
  | AtTypeMap | AtFields _ | AtArgs _ _ | AtValues _ => None
  end.

Definition directiveNodes (w : GraphQLSchema) (p : Path)
  : option (list DirectiveNode) :=
  nodeAt w p ≫= directiveNodes_of.

Definition declarations (w : GraphQLSchema) (p : Path) : list GraphQLDirective :=
  getDirectives w.

Definition typeMapOf (w : GraphQLSchema) (p : Path) : Path := AtTypeMap.

Definition typeName_of (p : Path) : string :=
  match p with
  | AtType _ typeName => typeName
  | _ => ""
  end.

Definition fieldMapOf (w : GraphQLSchema) (p : Path) : Path :=
  AtFields (typeName_of p).

Definition valuesOf (w : GraphQLSchema) (p : Path) : Path :=
  AtValues (typeName_of p).

Definition argsOf (w : GraphQLSchema) (p : Path) : option Path :=
  match p with
  | AtField typeName fieldName =>
      (λ _, AtArgs typeName fieldName) <$> argsAt w typeName fieldName
  | _ => None
  end.

Definition keys (w : GraphQLSchema) (p : Path) : list string :=
  match p with
  | AtTypeMap => obj_keys (getTypeMap w)
  | AtFields typeName =>
      match typeAt w typeName with
      | Some type => obj_keys (fieldsOf type)
      | None => []
      end
  | _ => []
  end.

Definition get (w : GraphQLSchema) (p : Path) (key : string) : option Path :=
  match p with
  | AtTypeMap => (λ type, AtType (classOfNamedType type) key) <$> typeAt w key
  | AtFields typeName =>
      (λ _, AtField typeName key) <$> fieldAt w typeName key
  | _ => None
  end.

Definition array_length (w : GraphQLSchema) (p : Path) : nat :=
  match p with
  | AtArgs typeName fieldName =>
      length (default [] (argsAt w typeName fieldName))
  | AtValues typeName => length (valuesAt w typeName)
  | _ => 0
  end.

Definition array_get (w : GraphQLSchema) (p : Path) (index : nat)
  : option (option Path) :=
  match p with
  | AtArgs typeName fieldName =>
      (λ _, Some (AtArgument typeName fieldName index))
        <$> default [] (argsAt w typeName fieldName) !! index
  | AtValues typeName =>
      (λ _, Some (AtValue typeName index)) <$> valuesAt w typeName !! index
  | _ => None
  end.

(** The constructor of [SchemaDirectiveVisitor], which the classes of the
    examples inherit: it stores the four properties. *)
Definition construct (visitor : Live.Visitor Path) (w : GraphQLSchema)
  : Result unit * GraphQLSchema :=
  (Ok tt, w).

(** [type.getFields()[name] = { name, ..., args: [] }] *)
Definition addField (typeName fieldName : string) (w : GraphQLSchema)
  : GraphQLSchema :=
  mkSchema
    ((λ kv : string * GraphQLNamedType,
        (kv.1,
         match kv.2 with
         | ObjectType t =>
             if bool_decide (kv.1 = typeName)
             then ObjectType
                    (mkObjectType (object_name t)
                       (obj_set fieldName (mkField fieldName (Some []) None)
                          (object_fields t))
                       (object_astNode t))
             else kv.2
         | type => type
         end)) <$> getTypeMap w)
    (getDirectives w) (schema_astNode w).

(** The visitor methods of the examples.  [visitObject] of the visitor
    for [@uniqueID] is the one of the documentation: it adds a field,
    named by the argument [name], to the type it visits.  The other
    methods change nothing the walk reads. *)
Definition method (d : Live.Visitor Path) (methodName : string)
    (type : Path) (details : Live.Details Path) (w : GraphQLSchema)
  : Result unit * GraphQLSchema :=
  if bool_decide (Live.visitor_name d = "uniqueID"
                  ∧ methodName = "visitObject")
  then
    match obj_get "name" (Live.visitor_args d) with
    | Some (JString name) => (Ok tt, addField (typeName_of type) name w)
    | _ => (Ok tt, w)
    end
  else (Ok tt, w).




(** A visitor method that changes the schema object, though not where
    the walk goes: it drops the AST node of the schema. *)
Definition dropSchemaNode (d : Live.Visitor Path) (methodName : string)
    (type : Path) (details : Live.Details Path) (w : GraphQLSchema)
  : Result unit * GraphQLSchema :=
  (Ok tt, mkSchema (getTypeMap w) (getDirectives w) None).

End Tree.

(** The walk of [directives.ts] over a schema held as a tree, with the
    visitors' code of the examples. *)
Definition liveWalk (directiveVisitors : gmap string VisitorClass)
    (w : GraphQLSchema) : Result unit * Live.WalkState Path GraphQLSchema :=
  Live.visitSchema_run Path GraphQLSchema Tree.class_of Tree.declarations
    Tree.typeMapOf Tree.fieldMapOf Tree.valuesOf Tree.argsOf Tree.directiveNodes
    Tree.keys Tree.get Tree.array_length Tree.array_get Tree.construct
    Tree.method exampleParseInt exampleParseFloat exampleCoercer AtSchema
    directiveVisitors w.

Definition liveVisitSchema (directiveVisitors : gmap string VisitorClass)
    (w : GraphQLSchema) : Result (gmap string (list (Live.Visitor Path))) :=
  Live.visitSchema Path GraphQLSchema Tree.class_of Tree.declarations
    Tree.typeMapOf Tree.fieldMapOf Tree.valuesOf Tree.argsOf Tree.directiveNodes
    Tree.keys Tree.get Tree.array_length Tree.array_get Tree.construct
    Tree.method exampleParseInt exampleParseFloat exampleCoercer AtSchema
    directiveVisitors w.

(** [class SchemaVisitor extends SchemaDirectiveVisitor { visitSchema() {…} }] *)
Definition SchemaVisitor : VisitorClass :=
  Extends 3 SchemaDirectiveVisitor ["visitSchema"].

(** [class UniqueIDVisitor extends SchemaDirectiveVisitor {
      visitObject(type) {…} }] *)
Definition UniqueIDVisitor : VisitorClass :=
  Extends 4 SchemaDirectiveVisitor ["visitObject"].

Definition liveVisitors : gmap string VisitorClass :=
  {[ "audit" := SchemaVisitor; "uniqueID" := UniqueIDVisitor;
     "length" := FieldVisitor; "upper" := FieldVisitor ]}.

(** [type Person @uniqueID(name: "uid", from: ["personID"]) {
      personID: Int  name: String @upper }] *)
Definition Person : GraphQLObjectType :=
  mkObjectType "Person"
    [ ("personID", mkField "personID" (Some []) (withDirectives []));
      ("name", mkField "name" (Some [])
                 (withDirectives [mkDirectiveNode "upper" []])) ]
    (withDirectives
       [ mkDirectiveNode "uniqueID"
           [ mkArgumentNode "name" (StringValue "uid");
             mkArgumentNode "from" (ListValue [StringValue "personID"]) ] ]).

(** [schema @audit @length { query: Person }] *)
Definition liveSchema : GraphQLSchema :=
  mkSchema
    [ ("Person", ObjectType Person);
      ("__Type", ObjectType introspectionType);
      ("Media", UnionType Media) ]
    []
    (withDirectives [mkDirectiveNode "audit" []; mkDirectiveNode "length" []]).

(** [body: String @upper @length(max: [1, $limit])]: the variable
    reference sits inside a list literal. *)
Definition nestedOccurrences : list DirectiveNode :=
  [ mkDirectiveNode "upper" [];
    mkDirectiveNode "length"
      [mkArgumentNode "max" (ListValue [IntValue "1"; VariableNode "limit"])] ].

Definition Comment : GraphQLObjectType :=
  mkObjectType "Comment"
    [("body", mkField "body" None (withDirectives nestedOccurrences))] None.

Definition nestedSchema : GraphQLSchema :=
  mkSchema
    [ ("Person", ObjectType Person);
      ("Comment", ObjectType Comment);
      ("Media", UnionType Media) ]
    [] None.


Lemma literal_outside_the_cases_aborts_walk_witness :
  ∃ upper before,
    Live.visitor_name upper = "upper"
    ∧ liveVisitSchema liveVisitors nestedSchema
      = Err (UnexpectedValueKind "Variable")
    ∧ Live.trace (liveWalk liveVisitors nestedSchema).2
      = before
        ++ [ Live.Resolved "visitFieldDefinition" (AtField "Comment" "body")
               (Some nestedOccurrences);
             Live.Constructed upper ].
Proof.
  pose (events := Live.trace (liveWalk liveVisitors nestedSchema).2).
  destruct (proj1 (proj2 (proj2
              (Live.literal_outside_the_cases_aborts_walk Path GraphQLSchema
                 Tree.class_of Tree.declarations Tree.typeMapOf Tree.fieldMapOf
                 Tree.valuesOf Tree.argsOf Tree.directiveNodes Tree.keys
                 Tree.get Tree.array_length Tree.array_get Tree.construct
                 Tree.method exampleParseInt exampleParseFloat exampleCoercer
                 AtSchema liveVisitors nestedSchema)))
              (take (length events - 2) events)
              "visitFieldDefinition" (AtField "Comment" "body")
              nestedOccurrences (drop (length events - 1) events))
    as (e & vs & _ & Herr & Hafter & _ & Hdecoder).
  - vm_compute. reflexivity.
  - vm_compute. reflexivity.
  - vm_compute in Hafter. destruct vs as [|upper [|? ?]]; try discriminate Hafter.
    injection Hafter as Hupper.
    rewrite (Hdecoder [mkDirectiveNode "upper" []]
               (mkDirectiveNode "length"
                  [mkArgumentNode "max"
                     (ListValue [IntValue "1"; VariableNode "limit"])])
               [] [Some upper]) in Herr.
    + exists upper, (take (length events - 2) events).
      split_and!; [by rewrite <- Hupper | exact Herr |].
      rewrite <- Hupper. vm_compute. reflexivity.
    + reflexivity.
    + vm_compute. reflexivity.
    + rewrite <- Hupper. vm_compute. reflexivity.
    + reflexivity.
Defined.

(** C3, as stated, fails in its last clause.  [@tag] is declared with an
    argument [level] of a non-null type, and [union Media @tag] does not
    supply it: the coercer throws, and the walk ends with that exception,
    over a schema none of whose literals holds a variable reference. *)
Lemma coercer_exception_aborts_walk :
  ∃ e,
    liveVisitSchema exampleVisitors requiringSchema = Err e
    ∧ Directives.visitSchema exampleParseInt exampleParseFloat exampleCoercer
        requiringSchema exampleVisitors = Err e
    ∧ (∀ kind, e ≠ UnexpectedValueKind kind)
    ∧ Forall (λ node,
                Forall (λ d,
                          Forall (λ a, containsVariable (arg_value a) = false)
                                 (arguments d))
                       (default [] (directiveNodes_of node)))
             (nodes_of_schema requiringSchema).
Proof.
  eexists. split_and!.
  - vm_compute. reflexivity.
  - vm_compute. reflexivity.
  - done.
  - repeat constructor.
Qed.

Lemma returning_walk_resolved_every_occurrence_witness :
  ∃ resolutions,
    Live.trace (liveWalk liveVisitors liveSchema).2
    = flat_map (Live.resolutionEvents Path) resolutions
    ∧ Forall (Live.resolutionSound Path exampleParseInt exampleParseFloat
                exampleCoercer AtSchema liveVisitors
                (Directives.declaredDirectives liveSchema))
             resolutions.
Proof.
  apply (Live.returning_walk_resolved_every_occurrence Path GraphQLSchema
           Tree.class_of Tree.declarations Tree.typeMapOf Tree.fieldMapOf
           Tree.valuesOf Tree.argsOf Tree.directiveNodes Tree.keys Tree.get
           Tree.array_length Tree.array_get Tree.construct Tree.method
           exampleParseInt exampleParseFloat exampleCoercer AtSchema
           liveVisitors liveSchema).
  vm_compute. reflexivity.
Defined.

(** [schema @audit { query: Query }
     type Query { book(id: ID @length): String @upper }
     enum Genre { FICTION POETRY }
     input Filter { genre: Genre }] *)
Definition shapedSchema : GraphQLSchema :=
  mkSchema
    [ ("Query",
       ObjectType
         (mkObjectType "Query"
            [ ("book",
               mkField "book"
                 (Some [mkArgument "id"
                          (withDirectives [mkDirectiveNode "length" []])])
                 (withDirectives [mkDirectiveNode "upper" []])) ]
            None));
      ("Genre",
       EnumType
         (mkEnumType "Genre"
            [mkEnumValue "FICTION" None; mkEnumValue "POETRY" None] None));
      ("Filter",
       InputObjectType
         (mkInputObjectType "Filter" [("genre", mkInputField "genre" None)]
            None));
      ("__Type", ObjectType introspectionType) ]
    [] (withDirectives [mkDirectiveNode "audit" []]).

Lemma every_node_resolved_once_witness :
  let st :=
    (Live.visitSchema_run Path GraphQLSchema Tree.class_of Tree.declarations
       Tree.typeMapOf Tree.fieldMapOf Tree.valuesOf Tree.argsOf
       Tree.directiveNodes Tree.keys Tree.get Tree.array_length Tree.array_get
       Tree.construct Tree.dropSchemaNode exampleParseInt exampleParseFloat
       exampleCoercer AtSchema liveVisitors shapedSchema).2 in
  schema_astNode (Live.world st) = None
  ∧ Live.resolved (Live.trace st)
    = [ AtSchema;
        AtType Live.ObjectTypeClass "Query"; AtField "Query" "book";
        AtArgument "Query" "book" 0;
        AtType Live.EnumTypeClass "Genre";
        AtValue "Genre" 0; AtValue "Genre" 1;
        AtType Live.InputObjectTypeClass "Filter"; AtField "Filter" "genre" ].
Proof.
  intros st. split; [vm_compute; reflexivity|].
  rewrite (Live.every_node_resolved_once Path GraphQLSchema
             Tree.class_of Tree.declarations Tree.typeMapOf Tree.fieldMapOf
             Tree.valuesOf Tree.argsOf Tree.directiveNodes Tree.keys Tree.get
             Tree.array_length Tree.array_get Tree.construct
             Tree.dropSchemaNode exampleParseInt exampleParseFloat
             exampleCoercer AtSchema liveVisitors shapedSchema st).
  - vm_compute. reflexivity.
  - split_and!; intros; split; intros; reflexivity.
  - reflexivity.
  - vm_compute. reflexivity.
Defined.
